(** * Phaser.Text (src/gameobjects/Text.js): a shallow embedding and its properties

    The development follows the source file function by function.
    JavaScript strings are sequences of UTF-16 code units ([list N]);
    pixel quantities are exact rationals ([Q]), with [NaN] written out
    where the source can produce it; the width and the height of the
    canvas are the whole numbers its host keeps of what is assigned to
    them, and [parseInt] returns a double; the object's mutable fields
    are a record threaded through every method. *)

From Stdlib Require Import List String Ascii Bool Arith NArith ZArith QArith Qround Qabs Lia Lqa.
Import ListNotations.

Set Implicit Arguments.

(* ================================================================== *)
(** * Part I. The embedding *)
(* ================================================================== *)

(** ** JavaScript strings *)
Module Js.

(** A string is its sequence of code units. *)
Abbreviation jstr := (list N) (only parsing).

(** A string literal of the source, as code units. *)
Definition lit (s : string) : jstr :=
  List.map N_of_ascii (list_ascii_of_string s).
Arguments lit s%_string.

Fixpoint eqb (a b : jstr) : bool :=
  match a, b with
  | [], [] => true
  | x :: a', y :: b' => N.eqb x y && eqb a' b'
  | _, _ => false
  end.

(** [parts.join(sep)] *)
Fixpoint join (sep : jstr) (parts : list jstr) : jstr :=
  match parts with
  | [] => []
  | [p] => p
  | p :: ps => p ++ sep ++ join sep ps
  end.

(** [s.split(c)] for a one-character separator: never the empty list. *)
Fixpoint split (c : N) (s : jstr) : list jstr :=
  match s with
  | [] => [[]]
  | x :: s' =>
      if N.eqb x c then [] :: split c s'
      else match split c s' with
           | w :: ws => (x :: w) :: ws
           | [] => [[x]]
           end
  end.

Definition space : N := 32.
Definition newline : N := 10.
Definition tabchar : N := 9.

(** Truthiness of a possibly undefined string: defined and not empty. *)
Definition truthy (v : option jstr) : bool :=
  match v with
  | Some (_ :: _) => true
  | _ => false
  end.

(** [v || d] on a possibly undefined string. *)
Definition or_else (v : option jstr) (d : jstr) : jstr :=
  match v with
  | Some (x :: r) => x :: r
  | _ => d
  end.

End Js.

(** ** Backtracking regular expressions

    The fragment of ECMAScript regular expressions that the font pattern
    uses.  Matching returns every way of matching in the order in which a
    backtracking matcher tries them; the head of the list is the match
    that [String.prototype.match] reports. *)
Module Regex.
Import Js.

Inductive regex : Type :=
| Eps
| Lit (w : jstr)                          (* a run of literal characters *)
| Cls (p : N -> bool)                     (* one character of a class *)
| Seq (r1 r2 : regex)
| Alt (r1 r2 : regex)                     (* r1|r2, r1 tried first *)
| Opt (r : regex)                         (* greedy r? *)
| StarCls (p : N -> bool)                 (* greedy [p]* *)
| RepCls (p : N -> bool) (lo extra : nat) (* greedy [p]{lo,lo+extra} *)
| Grp (i : nat) (r : regex)               (* capturing group number i *)
| WordB                                   (* \b *)
| Bol                                     (* ^ *)
| Eol.                                    (* $ *)

Record mstate := MState {
  prev : option N;          (* the character before the position *)
  rest : jstr;              (* the input from the position on *)
  caps : list (nat * jstr)  (* captures set so far, latest first *)
}.

Definition is_digit (c : N) : bool := (48 <=? c)%N && (c <=? 57)%N.
Definition is_lower (c : N) : bool := (97 <=? c)%N && (c <=? 122)%N.
Definition is_upper (c : N) : bool := (65 <=? c)%N && (c <=? 90)%N.
(** \w *)
Definition is_word (c : N) : bool :=
  is_digit c || is_lower c || is_upper c || N.eqb c 95.
(** LineTerminator *)
Definition is_line_term (c : N) : bool :=
  N.eqb c 10 || N.eqb c 13 || N.eqb c 8232 || N.eqb c 8233.
(** . *)
Definition is_dot (c : N) : bool := negb (is_line_term c).
(** \s : WhiteSpace and LineTerminator *)
Definition is_space (c : N) : bool :=
  ((9 <=? c)%N && (c <=? 13)%N) || N.eqb c 32 || N.eqb c 160 ||
  N.eqb c 5760 || ((8192 <=? c)%N && (c <=? 8202)%N) ||
  N.eqb c 8232 || N.eqb c 8233 || N.eqb c 8239 || N.eqb c 8287 ||
  N.eqb c 12288 || N.eqb c 65279.

Definition is_word_opt (c : option N) : bool :=
  match c with Some x => is_word x | None => false end.

Definition word_boundary (st : mstate) : bool :=
  xorb (is_word_opt (prev st)) (is_word_opt (hd_error (rest st))).

Fixpoint prefixb (w s : jstr) : bool :=
  match w, s with
  | [], _ => true
  | x :: w', y :: s' => N.eqb x y && prefixb w' s'
  | _ :: _, [] => false
  end.

Definition last_of (w : jstr) (d : option N) : option N :=
  match rev w with x :: _ => Some x | [] => d end.

Definition advance (w : jstr) (st : mstate) : mstate :=
  MState (last_of w (prev st)) (skipn (List.length w) (rest st)) (caps st).

Definition set_cap (i : nat) (c : jstr) (st : mstate) : mstate :=
  MState (prev st) (rest st) ((i, c) :: caps st).

Fixpoint get_cap (i : nat) (l : list (nat * jstr)) : option jstr :=
  match l with
  | [] => None
  | (j, c) :: l' => if Nat.eqb i j then Some c else get_cap i l'
  end.

Definition cons_run (a : N) (x : jstr * (option N * jstr)) :=
  (a :: fst x, snd x).

(** All runs of [p]*, longest first. *)
Fixpoint star_runs (p : N -> bool) (pv : option N) (s : jstr)
  : list (jstr * (option N * jstr)) :=
  match s with
  | [] => [([], (pv, []))]
  | a :: s' =>
      if p a
      then List.map (cons_run a) (star_runs p (Some a) s') ++ [([], (pv, s))]
      else [([], (pv, s))]
  end.

(** All runs of [p]{lo,lo+extra}, longest first. *)
Fixpoint rep_runs (p : N -> bool) (lo extra : nat) (pv : option N) (s : jstr)
  : list (jstr * (option N * jstr)) :=
  match lo, extra, s with
  | O, O, _ => [([], (pv, s))]
  | O, S _, [] => [([], (pv, s))]
  | S _, _, [] => []
  | S lo', _, a :: s' =>
      if p a then List.map (cons_run a) (rep_runs p lo' extra (Some a) s')
      else []
  | O, S e, a :: s' =>
      if p a
      then List.map (cons_run a) (rep_runs p O e (Some a) s') ++ [([], (pv, s))]
      else [([], (pv, s))]
  end.

Definition of_run (st : mstate) (x : jstr * (option N * jstr)) : jstr * mstate :=
  (fst x, MState (fst (snd x)) (snd (snd x)) (caps st)).

Definition nonempty (x : jstr * mstate) : bool :=
  match fst x with [] => false | _ :: _ => true end.

Definition app_run (c1 : jstr) (x : jstr * mstate) : jstr * mstate :=
  (c1 ++ fst x, snd x).

Definition cap_run (i : nat) (x : jstr * mstate) : jstr * mstate :=
  (fst x, set_cap i (fst x) (snd x)).

(** [ms r st]: the ways [r] matches at [st], each with the characters
    it consumed and the state it ends in, in backtracking order.  An
    optional part that matched the empty string is rejected, as the
    language's RepeatMatcher does. *)
Fixpoint ms (r : regex) (st : mstate) : list (jstr * mstate) :=
  match r with
  | Eps => [([], st)]
  | Lit w => if prefixb w (rest st) then [(w, advance w st)] else []
  | Cls p =>
      match rest st with
      | a :: s' => if p a then [([a], MState (Some a) s' (caps st))] else []
      | [] => []
      end
  | Seq r1 r2 =>
      flat_map (fun x => List.map (app_run (fst x)) (ms r2 (snd x))) (ms r1 st)
  | Alt r1 r2 => ms r1 st ++ ms r2 st
  | Opt r1 => filter nonempty (ms r1 st) ++ [([], st)]
  | StarCls p => List.map (of_run st) (star_runs p (prev st) (rest st))
  | RepCls p lo extra =>
      List.map (of_run st) (rep_runs p lo extra (prev st) (rest st))
  | Grp i r1 => List.map (cap_run i) (ms r1 st)
  | WordB => if word_boundary st then [([], st)] else []
  | Bol => match prev st with None => [([], st)] | Some _ => [] end
  | Eol => match rest st with [] => [([], st)] | _ :: _ => [] end
  end.

(** [s.match(r)] without the g flag: the first start index, from 0 up
    to the length, at which [r] matches. *)
Fixpoint exec_from (r : regex) (pv : option N) (s : jstr) : option mstate :=
  match ms r (MState pv s []) with
  | x :: _ => Some (snd x)
  | [] =>
      match s with
      | [] => None
      | a :: s' => exec_from r (Some a) s'
      end
  end.

Definition exec (r : regex) (s : jstr) : option mstate := exec_from r None s.

(** r1 r2 ... rn *)
Fixpoint seqs (l : list regex) : regex :=
  match l with
  | [] => Eps
  | [r] => r
  | r :: l' => Seq r (seqs l')
  end.

(** w0|w1|...|wn on literal words, followed by one more alternative. *)
Fixpoint alts (ws : list string) (last : regex) : regex :=
  match ws with
  | [] => last
  | w :: ws' => Alt (Lit (lit w)) (alts ws' last)
  end.

(** w0|w1|...|wn *)
Definition words (w0 : string) (ws : list string) : regex :=
  match rev (w0 :: ws) with
  | l :: front => alts (rev front) (Lit (lit l))
  | [] => Lit (lit w0)
  end.

End Regex.

(** ** The font shorthand: [fontToComponents] and [componentsToFont] *)
Module Font.
Import Js Regex.
Local Open Scope string_scope.

Definition ws : regex := StarCls is_space.

(** (?:\b(...)?\b) *)
Definition field (i : nat) (r : regex) : regex :=
  Seq WordB (Seq (Opt (Grp i r)) WordB).

Definition style_re : regex := words "normal" ["italic"; "oblique"; "inherit"].
Definition variant_re : regex := words "normal" ["small-caps"; "inherit"].
Definition weight_re : regex :=
  words "normal" ["bold"; "bolder"; "lighter"; "100"; "200"; "300"; "400";
                  "500"; "600"; "700"; "800"; "900"; "inherit"].

(** The last alternative of the size field: digits, an optional
    fraction (a dot and digits), then a percent sign or a unit of two
    to five lower-case letters. *)
Definition number_re : regex :=
  Seq (StarCls is_digit)
      (Seq (Opt (Seq (Cls (N.eqb 46)) (StarCls is_digit)))
           (Alt (Cls (N.eqb 37)) (RepCls is_lower 2 3))).

Definition size_re : regex :=
  alts ["xx-small"; "x-small"; "small"; "medium"; "large"; "x-large";
        "xx-large"; "larger"; "smaller"; "0"] number_re.

(** The pattern of [fontToComponents] (Text.js, line 902). *)
Definition font_re : regex :=
  seqs [Bol; ws; field 1 style_re; ws; field 2 variant_re; ws;
        field 3 weight_re; ws; field 4 size_re; ws;
        Grp 5 (StarCls is_dot); ws; Eol].

(** The object [fontToComponents] returns; an absent property is [None]. *)
Record components := Components {
  font : jstr;
  fontStyle : option jstr;
  fontVariant : option jstr;
  fontWeight : option jstr;
  fontSize : option jstr;
  fontFamily : option jstr
}.

Definition normal : jstr := lit "normal".
Definition medium : jstr := lit "medium".

(** The diagnostic of the failing branch goes to the console and is
    not part of the result. *)
Definition fontToComponents (f : jstr) : components :=
  match exec font_re f with
  | Some m =>
      Components f
        (Some (or_else (get_cap 1 (caps m)) normal))
        (Some (or_else (get_cap 2 (caps m)) normal))
        (Some (or_else (get_cap 3 (caps m)) normal))
        (Some (or_else (get_cap 4 (caps m)) medium))
        (get_cap 5 (caps m))
  | None => Components f None None None None None
  end.

(** [if (v && v !== d) parts.push(v)] *)
Definition push_unless (d : jstr) (v : option jstr) (parts : list jstr) : list jstr :=
  match v with
  | Some x => if truthy v && negb (Js.eqb x d) then parts ++ [x] else parts
  | None => parts
  end.

(** [if (v) parts.push(v)] *)
Definition push_if (v : option jstr) (parts : list jstr) : list jstr :=
  match v with
  | Some x => if truthy v then parts ++ [x] else parts
  | None => parts
  end.

Definition componentsToFont (c : components) : jstr :=
  let parts := [] in
  let parts := push_unless normal (fontStyle c) parts in
  let parts := push_unless normal (fontVariant c) parts in
  let parts := push_unless normal (fontWeight c) parts in
  let parts := push_unless medium (fontSize c) parts in
  let parts := push_if (fontFamily c) parts in
  let parts := match parts with [] => [font c] | _ :: _ => parts end in
  join (lit " ") parts.

End Font.

(** ** JavaScript numbers

    Pixel quantities are exact rationals; [NaN] is what arithmetic on
    [undefined] yields (an array read past its end). *)
Module Num.

Inductive num : Type :=
| Num (q : Q)
| NaN.

Definition add (a b : num) : num :=
  match a, b with
  | Num x, Num y => Num (x + y)
  | _, _ => NaN
  end.

Definition mul (a b : num) : num :=
  match a, b with
  | Num x, Num y => Num (x * y)
  | _, _ => NaN
  end.

Definition sub (a b : num) : num :=
  match a, b with
  | Num x, Num y => Num (x - y)
  | _, _ => NaN
  end.

(** [-a] *)
Definition neg (a : num) : num :=
  match a with
  | Num x => Num (- x)
  | NaN => NaN
  end.

(** [a / 2] *)
Definition half (a : num) : num :=
  match a with
  | Num x => Num (x / 2)
  | NaN => NaN
  end.

(** [Math.ceil] *)
Definition ceil (a : num) : num :=
  match a with
  | Num x => Num (inject_Z (Qceiling x))
  | NaN => NaN
  end.

Definition Qmax (x y : Q) : Q := if Qle_bool x y then y else x.

(** [Math.max] of two numbers: [NaN] if either is. *)
Definition max (a b : num) : num :=
  match a, b with
  | Num x, Num y => Num (Qmax x y)
  | _, _ => NaN
  end.

(** Numeric equality; [NaN] equals nothing. *)
Definition eq (a b : num) : Prop :=
  match a, b with
  | Num x, Num y => x == y
  | _, _ => False
  end.

(** The same number or both [NaN]: the outcome of a computation. *)
Definition same (a b : num) : Prop :=
  match a, b with
  | Num x, Num y => x == y
  | NaN, NaN => True
  | _, _ => False
  end.

(** [a[i]] read as a number: [undefined] past the end. *)
Definition index (a : list Q) (i : nat) : num :=
  match nth_error a i with
  | Some x => Num x
  | None => NaN
  end.

(** [a > b] on exact numbers *)
Definition Qgtb (a b : Q) : bool := negb (Qle_bool a b).
(** [a < b] on exact numbers *)
Definition Qltb (a b : Q) : bool := negb (Qle_bool b a).

End Num.

(** ** [runWordWrap] *)
Module WordWrap.
Import Js Num.

Section Wrap.
(** [this.context.measureText(s).width] under the current font. *)
Variable measureText : jstr -> Q.
(** [this.style.wordWrapWidth] *)
Variable wordWrapWidth : Q.

(** The loop over [words], from index [j] on. *)
Fixpoint wrap_words (j : nat) (words : list jstr) (spaceLeft : Q) (result : jstr)
  : jstr * Q :=
  match words with
  | [] => (result, spaceLeft)
  | w :: ws =>
      let wordWidth := measureText w in
      let wordWidthWithSpace := wordWidth + measureText [space] in
      if Qgtb wordWidthWithSpace spaceLeft
      then
        let result := if (0 <? j)%nat then result ++ [newline] else result in
        wrap_words (S j) ws (wordWrapWidth - wordWidth) (result ++ w ++ [space])
      else
        wrap_words (S j) ws (spaceLeft - wordWidthWithSpace) (result ++ w ++ [space])
  end.

(** The loop over [lines], from index [i] on; [n] is [lines.length]. *)
Fixpoint wrap_lines (i n : nat) (lines : list jstr) (result : jstr) : jstr :=
  match lines with
  | [] => result
  | l :: ls =>
      let result := fst (wrap_words 0 (split space l) wordWrapWidth result) in
      let result := if (i <? n - 1)%nat then result ++ [newline] else result in
      wrap_lines (S i) n ls result
  end.

Definition runWordWrap (text : jstr) : jstr :=
  let lines := split newline text in
  wrap_lines 0 (List.length lines) lines [].

End Wrap.

End WordWrap.

(** ** The measuring half of [updateText], and [renderTabLine] *)
Module Layout.
Import Js Num.

(** [style.tabs]: a tab size, or an array with one entry per tab stop. *)
Inductive tabs_t : Type :=
| TabSize (size : Q)
| TabStops (stops : list Q).

(** [tabs === 0] *)
Definition tabs_is_zero (t : tabs_t) : bool :=
  match t with
  | TabSize q => Qeq_bool q 0
  | TabStops _ => false
  end.

(** [outputText.split] on the pattern of carriage return and line
    feed, carriage return, or line feed. *)
Fixpoint split_lines (s : jstr) : list jstr :=
  match s with
  | [] => [[]]
  | x :: s' =>
      if N.eqb x 13 then
        match s' with
        | y :: s'' => if N.eqb y 10 then [] :: split_lines s'' else [] :: split_lines s'
        | [] => [] :: split_lines s'
        end
      else if N.eqb x 10 then [] :: split_lines s'
      else match split_lines s' with
           | w :: ws => (x :: w) :: ws
           | [] => [[x]]
           end
  end.

(** Modelled from the spec: [Phaser.Math.snapToCeil(input, gap)] is not
    part of this file; the specification describes it as snapping the
    cumulative width up to the next multiple of the tab size. *)
Definition snapToCeil (input gap : Q) : Q :=
  if Qeq_bool gap 0 then input
  else gap * inject_Z (Qceiling (input / gap)).

Section Measure.
(** [this.context.measureText(s).width] under the current font. *)
Variable measureText : jstr -> Q.

Definition section_width (seg : jstr) : num := ceil (Num (measureText seg)).

(** The loop of [updateText] for array-valued tabs, from segment
    index [c] on: [tab] and [lineWidth] are the loop's variables. *)
Fixpoint array_tab_loop (tabs : list Q) (c : nat) (line : list jstr)
         (tab lineWidth : num) : num :=
  match line with
  | [] => lineWidth
  | seg :: line' =>
      let section := section_width seg in
      let tab := if (0 <? c)%nat then add tab (index tabs (c - 1)) else tab in
      array_tab_loop tabs (S c) line' tab (add tab section)
  end.

(** The loop of [updateText] for a scalar tab size. *)
Fixpoint scalar_tab_loop (tabs : Q) (line : list jstr) (lineWidth : Q) : Q :=
  match line with
  | [] => lineWidth
  | seg :: line' =>
      let lineWidth := lineWidth + inject_Z (Qceiling (measureText seg)) in
      let diff := snapToCeil lineWidth tabs - lineWidth in
      scalar_tab_loop tabs line' (lineWidth + diff)
  end.

(** The value of [lineWidth] when the body of the first loop of
    [updateText] reaches [lineWidths[i] = Math.ceil(lineWidth)]. *)
Definition line_width (tabs : tabs_t) (strokeThickness paddingX : Q) (l : jstr) : num :=
  if tabs_is_zero tabs then
    Num (measureText l + strokeThickness + paddingX)
  else
    let line := split tabchar l in
    let lineWidth := Num (paddingX + strokeThickness) in
    match tabs with
    | TabStops stops => array_tab_loop stops 0 line (Num 0) lineWidth
    | TabSize size =>
        match lineWidth with
        | Num w => Num (scalar_tab_loop size line w)
        | NaN => NaN
        end
    end.

(** [lineWidths[i]] *)
Definition reported_width (tabs : tabs_t) (strokeThickness paddingX : Q) (l : jstr) : num :=
  ceil (line_width tabs strokeThickness paddingX l).

(** [maxLineWidth] after the first loop. *)
Definition max_line_width (tabs : tabs_t) (strokeThickness paddingX : Q)
           (lines : list jstr) : num :=
  fold_left (fun m l => max m (reported_width tabs strokeThickness paddingX l))
            lines (Num 0).

(** One call of [fillText] or [strokeText]. *)
Record draw := Draw {
  draw_fill : bool;
  draw_text : jstr;
  draw_x : num;
  draw_y : Q
}.

(** The array branch of [renderTabLine], from segment index [c] on. *)
Fixpoint render_array_loop (tabs : list Q) (c : nat) (text : list jstr)
         (x : Q) (y : Q) (fill : bool) (tab : num) : list draw :=
  match text with
  | [] => []
  | seg :: text' =>
      let tab := if (0 <? c)%nat then add tab (index tabs (c - 1)) else tab in
      let snap := add (Num x) tab in
      Draw fill seg snap y :: render_array_loop tabs (S c) text' x y fill tab
  end.

(** The scalar branch of [renderTabLine]. *)
Fixpoint render_scalar_loop (tabs : Q) (text : list jstr)
         (x : Q) (y : Q) (fill : bool) : list draw :=
  match text with
  | [] => []
  | seg :: text' =>
      let section := inject_Z (Qceiling (measureText seg)) in
      let snap := snapToCeil x tabs in
      Draw fill seg (Num snap) y :: render_scalar_loop tabs text' (snap + section) y fill
  end.

(** [renderTabLine(line, x, y, fill)]: the drawing calls it issues, in order. *)
Definition renderTabLine (tabs : tabs_t) (line : jstr) (x y : Q) (fill : bool)
  : list draw :=
  let text := split tabchar line in
  match tabs with
  | TabStops stops => render_array_loop stops 0 text x y fill (Num 0)
  | TabSize size => render_scalar_loop size text x y fill
  end.

End Measure.

(** The spacing [updateText] uses after its clamp of a negative
    [lineSpacing]. *)
Definition effective_spacing (lineHeight lineSpacing : Q) : Q :=
  if Qltb lineSpacing 0 && Qgtb (Qabs lineSpacing) lineHeight
  then - lineHeight
  else lineSpacing.

(** [height] when [updateText] reaches [this.canvas.height = height * this._res]. *)
Definition text_height (lineHeight lineSpacing : Q) (nlines : nat) : Q :=
  let height := lineHeight * inject_Z (Z.of_nat nlines) in
  let lineSpacing := effective_spacing lineHeight lineSpacing in
  if negb (Qeq_bool lineSpacing 0)
  then height + lineSpacing * (inject_Z (Z.of_nat nlines) - 1)
  else height.

(** [lineHeight] *)
Definition line_height (fontSize strokeThickness paddingY : Q) : Q :=
  fontSize + strokeThickness + paddingY.

(** [height * this._res], the number [updateText] assigns to
    [this.canvas.height]. *)
Definition scaled_height (fontSize strokeThickness paddingY lineSpacing res : Q)
           (nlines : nat) : Q :=
  text_height (line_height fontSize strokeThickness paddingY) lineSpacing nlines * res.

End Layout.

(** ** The Text object: fields, mutators, setters and render triggers *)
Module Text.
Import Js Num Layout Font.
Local Open Scope string_scope.

(** A value a caller may pass where the source accepts anything. *)
Inductive value : Type :=
| VUndefined
| VNull
| VBool (b : bool)
| VNumber (n : num)
| VString (s : jstr)
| VObject (addr : nat).

Inductive error : Type := TypeError.

(** The outcome of a call that may throw. *)
Inductive result (A : Type) : Type :=
| Ok (a : A)
| Throw (e : error).
Arguments Ok {A} a.
Arguments Throw {A} e.

Definition bind {A B : Type} (r : result A) (k : A -> result B) : result B :=
  match r with
  | Ok a => k a
  | Throw e => Throw e
  end.

(** [new Phaser.Rectangle(x, y, width, height)] *)
Record rectangle := Rectangle {
  rect_x : Q;
  rect_y : Q;
  rect_width : Q;
  rect_height : Q
}.

(** Modelled from the spec: [Phaser.Rectangle] is not part of this file;
    the specification places the centre of the bounds half of its
    extent from its origin. *)
Definition halfWidth (r : rectangle) : Q := rect_width r / 2.
Definition halfHeight (r : rectangle) : Q := rect_height r / 2.

(** [style.fontSize]: a number of pixels or a CSS size. *)
Inductive font_size : Type :=
| SizeNumber (n : num)
| SizeString (s : jstr).

(** The argument of [setStyle]; an absent property is [None]. *)
Record style_arg := StyleArg {
  arg_font : option jstr;
  arg_fontStyle : option jstr;
  arg_fontVariant : option jstr;
  arg_fontWeight : option jstr;
  arg_fontSize : option font_size;
  arg_backgroundColor : option jstr;
  arg_fill : option jstr;
  arg_align : option jstr;
  arg_boundsAlignH : option jstr;
  arg_boundsAlignV : option jstr;
  arg_stroke : option jstr;
  arg_strokeThickness : option Q;
  arg_wordWrap : option bool;
  arg_wordWrapWidth : option Q;
  arg_shadowOffsetX : option Q;
  arg_shadowOffsetY : option Q;
  arg_shadowColor : option jstr;
  arg_shadowBlur : option Q;
  arg_shadowStroke : option bool;
  arg_shadowFill : option bool;
  arg_tabs : option (nat * tabs_t)
}.

(** [this.style] once [setStyle] has filled in the defaults.  The
    [tabs] value carries the identity of its array, which is what the
    setter compares. *)
Record style_t := Style {
  style_font : jstr;
  backgroundColor : option jstr;
  fill : jstr;
  align : jstr;
  boundsAlignH : jstr;
  boundsAlignV : jstr;
  stroke : jstr;
  strokeThickness : Q;
  wordWrap : bool;
  wordWrapWidth : Q;
  shadowOffsetX : Q;
  shadowOffsetY : Q;
  shadowColor : jstr;
  shadowBlur : Q;
  shadowStroke : option bool;
  shadowFill : option bool;
  tabs_ref : nat;
  tabs : tabs_t
}.

Record text_obj := TextObj {
  padding_x : Q;
  padding_y : Q;
  textBounds : option rectangle;
  colors : list (option jstr);
  strokeColors : list (option jstr);
  fontStyles : list (option jstr);
  fontWeights : list (option jstr);
  autoRound : bool;
  _res : Q;
  _text : jstr;
  _fontComponents : components;
  _lineSpacing : Q;
  _charCount : nat;
  _width : num;
  _height : num;
  style : style_t;
  dirty : bool;
  canvas_width : num;
  canvas_height : num;
  texture_width : num;
  texture_height : num;
  texture_resolution : Q;
  requiresReTint : bool;
  pivot_x : num;
  pivot_y : num;
  renderable : bool;
  parent : bool;
  (** Calls made to the host, counted. *)
  transform_updates : nat;
  layout_passes : nat;
  base_dirty_calls : nat
}.

(** *** Field updates *)

Definition with_style (f : style_t -> style_t) (o : text_obj) : text_obj :=
  TextObj (padding_x o) (padding_y o) (textBounds o) (colors o) (strokeColors o)
    (fontStyles o) (fontWeights o) (autoRound o) (_res o) (_text o)
    (_fontComponents o) (_lineSpacing o) (_charCount o) (_width o) (_height o)
    (f (style o)) (dirty o) (canvas_width o) (canvas_height o) (texture_width o)
    (texture_height o) (texture_resolution o) (requiresReTint o) (pivot_x o)
    (pivot_y o) (renderable o) (parent o) (transform_updates o) (layout_passes o)
    (base_dirty_calls o).

Definition set_dirty (b : bool) (o : text_obj) : text_obj :=
  TextObj (padding_x o) (padding_y o) (textBounds o) (colors o) (strokeColors o)
    (fontStyles o) (fontWeights o) (autoRound o) (_res o) (_text o)
    (_fontComponents o) (_lineSpacing o) (_charCount o) (_width o) (_height o)
    (style o) b (canvas_width o) (canvas_height o) (texture_width o)
    (texture_height o) (texture_resolution o) (requiresReTint o) (pivot_x o)
    (pivot_y o) (renderable o) (parent o) (transform_updates o) (layout_passes o)
    (base_dirty_calls o).

Definition set__text (s : jstr) (o : text_obj) : text_obj :=
  TextObj (padding_x o) (padding_y o) (textBounds o) (colors o) (strokeColors o)
    (fontStyles o) (fontWeights o) (autoRound o) (_res o) s
    (_fontComponents o) (_lineSpacing o) (_charCount o) (_width o) (_height o)
    (style o) (dirty o) (canvas_width o) (canvas_height o) (texture_width o)
    (texture_height o) (texture_resolution o) (requiresReTint o) (pivot_x o)
    (pivot_y o) (renderable o) (parent o) (transform_updates o) (layout_passes o)
    (base_dirty_calls o).

Definition set__res (r : Q) (o : text_obj) : text_obj :=
  TextObj (padding_x o) (padding_y o) (textBounds o) (colors o) (strokeColors o)
    (fontStyles o) (fontWeights o) (autoRound o) r (_text o)
    (_fontComponents o) (_lineSpacing o) (_charCount o) (_width o) (_height o)
    (style o) (dirty o) (canvas_width o) (canvas_height o) (texture_width o)
    (texture_height o) (texture_resolution o) (requiresReTint o) (pivot_x o)
    (pivot_y o) (renderable o) (parent o) (transform_updates o) (layout_passes o)
    (base_dirty_calls o).

Definition set__lineSpacing (v : Q) (o : text_obj) : text_obj :=
  TextObj (padding_x o) (padding_y o) (textBounds o) (colors o) (strokeColors o)
    (fontStyles o) (fontWeights o) (autoRound o) (_res o) (_text o)
    (_fontComponents o) v (_charCount o) (_width o) (_height o)
    (style o) (dirty o) (canvas_width o) (canvas_height o) (texture_width o)
    (texture_height o) (texture_resolution o) (requiresReTint o) (pivot_x o)
    (pivot_y o) (renderable o) (parent o) (transform_updates o) (layout_passes o)
    (base_dirty_calls o).

Definition set__fontComponents (c : components) (o : text_obj) : text_obj :=
  TextObj (padding_x o) (padding_y o) (textBounds o) (colors o) (strokeColors o)
    (fontStyles o) (fontWeights o) (autoRound o) (_res o) (_text o)
    c (_lineSpacing o) (_charCount o) (_width o) (_height o)
    (style o) (dirty o) (canvas_width o) (canvas_height o) (texture_width o)
    (texture_height o) (texture_resolution o) (requiresReTint o) (pivot_x o)
    (pivot_y o) (renderable o) (parent o) (transform_updates o) (layout_passes o)
    (base_dirty_calls o).

Definition set_textBounds (b : option rectangle) (o : text_obj) : text_obj :=
  TextObj (padding_x o) (padding_y o) b (colors o) (strokeColors o)
    (fontStyles o) (fontWeights o) (autoRound o) (_res o) (_text o)
    (_fontComponents o) (_lineSpacing o) (_charCount o) (_width o) (_height o)
    (style o) (dirty o) (canvas_width o) (canvas_height o) (texture_width o)
    (texture_height o) (texture_resolution o) (requiresReTint o) (pivot_x o)
    (pivot_y o) (renderable o) (parent o) (transform_updates o) (layout_passes o)
    (base_dirty_calls o).

Definition set_runs (c sc fs fw : list (option jstr)) (o : text_obj) : text_obj :=
  TextObj (padding_x o) (padding_y o) (textBounds o) c sc fs fw
    (autoRound o) (_res o) (_text o)
    (_fontComponents o) (_lineSpacing o) (_charCount o) (_width o) (_height o)
    (style o) (dirty o) (canvas_width o) (canvas_height o) (texture_width o)
    (texture_height o) (texture_resolution o) (requiresReTint o) (pivot_x o)
    (pivot_y o) (renderable o) (parent o) (transform_updates o) (layout_passes o)
    (base_dirty_calls o).

(** [if (this.parent) { this.updateTransform(); }] *)
Definition updateTransform_if_parent (o : text_obj) : text_obj :=
  if parent o then
    TextObj (padding_x o) (padding_y o) (textBounds o) (colors o) (strokeColors o)
      (fontStyles o) (fontWeights o) (autoRound o) (_res o) (_text o)
      (_fontComponents o) (_lineSpacing o) (_charCount o) (_width o) (_height o)
      (style o) (dirty o) (canvas_width o) (canvas_height o) (texture_width o)
      (texture_height o) (texture_resolution o) (requiresReTint o) (pivot_x o)
      (pivot_y o) (renderable o) (parent o) (S (transform_updates o))
      (layout_passes o) (base_dirty_calls o)
  else o.

(** [a[i] = v] on an array with holes: a write past the end extends it. *)
Definition set_index (a : list (option jstr)) (i : nat) (v : jstr) : list (option jstr) :=
  if (i <? List.length a)%nat
  then (firstn i a ++ Some v :: skipn (S i) a)%list
  else (a ++ repeat None (i - List.length a) ++ [Some v])%list.

(** *** Assignments to one property of [this.style] *)

Definition style_set_style_font (v : jstr) (s : style_t) : style_t :=
  Style v (backgroundColor s) (fill s) (align s) (boundsAlignH s)
    (boundsAlignV s) (stroke s) (strokeThickness s) (wordWrap s)
    (wordWrapWidth s) (shadowOffsetX s) (shadowOffsetY s) (shadowColor s)
    (shadowBlur s) (shadowStroke s) (shadowFill s) (tabs_ref s) (tabs s).

Definition style_set_backgroundColor (v : option jstr) (s : style_t) : style_t :=
  Style (style_font s) v (fill s) (align s) (boundsAlignH s)
    (boundsAlignV s) (stroke s) (strokeThickness s) (wordWrap s)
    (wordWrapWidth s) (shadowOffsetX s) (shadowOffsetY s) (shadowColor s)
    (shadowBlur s) (shadowStroke s) (shadowFill s) (tabs_ref s) (tabs s).

Definition style_set_fill (v : jstr) (s : style_t) : style_t :=
  Style (style_font s) (backgroundColor s) v (align s) (boundsAlignH s)
    (boundsAlignV s) (stroke s) (strokeThickness s) (wordWrap s)
    (wordWrapWidth s) (shadowOffsetX s) (shadowOffsetY s) (shadowColor s)
    (shadowBlur s) (shadowStroke s) (shadowFill s) (tabs_ref s) (tabs s).

Definition style_set_align (v : jstr) (s : style_t) : style_t :=
  Style (style_font s) (backgroundColor s) (fill s) v (boundsAlignH s)
    (boundsAlignV s) (stroke s) (strokeThickness s) (wordWrap s)
    (wordWrapWidth s) (shadowOffsetX s) (shadowOffsetY s) (shadowColor s)
    (shadowBlur s) (shadowStroke s) (shadowFill s) (tabs_ref s) (tabs s).

Definition style_set_boundsAlignH (v : jstr) (s : style_t) : style_t :=
  Style (style_font s) (backgroundColor s) (fill s) (align s) v
    (boundsAlignV s) (stroke s) (strokeThickness s) (wordWrap s)
    (wordWrapWidth s) (shadowOffsetX s) (shadowOffsetY s) (shadowColor s)
    (shadowBlur s) (shadowStroke s) (shadowFill s) (tabs_ref s) (tabs s).

Definition style_set_boundsAlignV (v : jstr) (s : style_t) : style_t :=
  Style (style_font s) (backgroundColor s) (fill s) (align s)
    (boundsAlignH s) v (stroke s) (strokeThickness s) (wordWrap s)
    (wordWrapWidth s) (shadowOffsetX s) (shadowOffsetY s) (shadowColor s)
    (shadowBlur s) (shadowStroke s) (shadowFill s) (tabs_ref s) (tabs s).

Definition style_set_stroke (v : jstr) (s : style_t) : style_t :=
  Style (style_font s) (backgroundColor s) (fill s) (align s)
    (boundsAlignH s) (boundsAlignV s) v (strokeThickness s) (wordWrap s)
    (wordWrapWidth s) (shadowOffsetX s) (shadowOffsetY s) (shadowColor s)
    (shadowBlur s) (shadowStroke s) (shadowFill s) (tabs_ref s) (tabs s).

Definition style_set_strokeThickness (v : Q) (s : style_t) : style_t :=
  Style (style_font s) (backgroundColor s) (fill s) (align s)
    (boundsAlignH s) (boundsAlignV s) (stroke s) v (wordWrap s)
    (wordWrapWidth s) (shadowOffsetX s) (shadowOffsetY s) (shadowColor s)
    (shadowBlur s) (shadowStroke s) (shadowFill s) (tabs_ref s) (tabs s).

Definition style_set_wordWrap (v : bool) (s : style_t) : style_t :=
  Style (style_font s) (backgroundColor s) (fill s) (align s)
    (boundsAlignH s) (boundsAlignV s) (stroke s) (strokeThickness s) v
    (wordWrapWidth s) (shadowOffsetX s) (shadowOffsetY s) (shadowColor s)
    (shadowBlur s) (shadowStroke s) (shadowFill s) (tabs_ref s) (tabs s).

Definition style_set_wordWrapWidth (v : Q) (s : style_t) : style_t :=
  Style (style_font s) (backgroundColor s) (fill s) (align s)
    (boundsAlignH s) (boundsAlignV s) (stroke s) (strokeThickness s)
    (wordWrap s) v (shadowOffsetX s) (shadowOffsetY s) (shadowColor s)
    (shadowBlur s) (shadowStroke s) (shadowFill s) (tabs_ref s) (tabs s).

Definition style_set_shadowOffsetX (v : Q) (s : style_t) : style_t :=
  Style (style_font s) (backgroundColor s) (fill s) (align s)
    (boundsAlignH s) (boundsAlignV s) (stroke s) (strokeThickness s)
    (wordWrap s) (wordWrapWidth s) v (shadowOffsetY s) (shadowColor s)
    (shadowBlur s) (shadowStroke s) (shadowFill s) (tabs_ref s) (tabs s).

Definition style_set_shadowOffsetY (v : Q) (s : style_t) : style_t :=
  Style (style_font s) (backgroundColor s) (fill s) (align s)
    (boundsAlignH s) (boundsAlignV s) (stroke s) (strokeThickness s)
    (wordWrap s) (wordWrapWidth s) (shadowOffsetX s) v (shadowColor s)
    (shadowBlur s) (shadowStroke s) (shadowFill s) (tabs_ref s) (tabs s).

Definition style_set_shadowColor (v : jstr) (s : style_t) : style_t :=
  Style (style_font s) (backgroundColor s) (fill s) (align s)
    (boundsAlignH s) (boundsAlignV s) (stroke s) (strokeThickness s)
    (wordWrap s) (wordWrapWidth s) (shadowOffsetX s) (shadowOffsetY s) v
    (shadowBlur s) (shadowStroke s) (shadowFill s) (tabs_ref s) (tabs s).

Definition style_set_shadowBlur (v : Q) (s : style_t) : style_t :=
  Style (style_font s) (backgroundColor s) (fill s) (align s)
    (boundsAlignH s) (boundsAlignV s) (stroke s) (strokeThickness s)
    (wordWrap s) (wordWrapWidth s) (shadowOffsetX s) (shadowOffsetY s)
    (shadowColor s) v (shadowStroke s) (shadowFill s) (tabs_ref s) (tabs s).

Definition style_set_shadowStroke (v : option bool) (s : style_t) : style_t :=
  Style (style_font s) (backgroundColor s) (fill s) (align s)
    (boundsAlignH s) (boundsAlignV s) (stroke s) (strokeThickness s)
    (wordWrap s) (wordWrapWidth s) (shadowOffsetX s) (shadowOffsetY s)
    (shadowColor s) (shadowBlur s) v (shadowFill s) (tabs_ref s) (tabs s).

Definition style_set_shadowFill (v : option bool) (s : style_t) : style_t :=
  Style (style_font s) (backgroundColor s) (fill s) (align s)
    (boundsAlignH s) (boundsAlignV s) (stroke s) (strokeThickness s)
    (wordWrap s) (wordWrapWidth s) (shadowOffsetX s) (shadowOffsetY s)
    (shadowColor s) (shadowBlur s) (shadowStroke s) v (tabs_ref s) (tabs s).

Definition style_set_tabs (r : nat) (v : tabs_t) (s : style_t) : style_t :=
  Style (style_font s) (backgroundColor s) (fill s) (align s)
    (boundsAlignH s) (boundsAlignV s) (stroke s) (strokeThickness s)
    (wordWrap s) (wordWrapWidth s) (shadowOffsetX s) (shadowOffsetY s)
    (shadowColor s) (shadowBlur s) (shadowStroke s) (shadowFill s) r v.


(** [determineFontProperties(fontStyle)] *)
Record font_properties := FontProperties {
  ascent : Q;
  descent : Q;
  fontSize_px : Q
}.

(** *** Truthiness and defaults *)

(** [v || d] on a possibly absent string *)
Definition or_str (v : option jstr) (d : jstr) : jstr := or_else v d.

(** [v || null] on a possibly absent string *)
Definition or_null (v : option jstr) : option jstr :=
  if truthy v then v else None.

(** [v || d] on a possibly absent number: zero is falsy *)
Definition or_num (v : option Q) (d : Q) : Q :=
  match v with
  | Some q => if Qeq_bool q 0 then d else q
  | None => d
  end.

(** [v || false] *)
Definition or_false (v : option bool) : bool :=
  match v with
  | Some b => b
  | None => false
  end.

(** [style.tabs || 0]: an array is truthy even when empty *)
Definition or_tabs (v : option (nat * tabs_t)) : nat * tabs_t :=
  match v with
  | Some (r, TabSize q) => if Qeq_bool q 0 then (O, TabSize 0) else (r, TabSize q)
  | Some (r, TabStops l) => (r, TabStops l)
  | None => (O, TabSize 0)
  end.

(** [a !== b] on tab values: numbers by value, arrays by identity *)
Definition tabs_differ (r1 : nat) (t1 : tabs_t) (r2 : nat) (t2 : tabs_t) : bool :=
  match t1, t2 with
  | TabSize a, TabSize b => negb (Qeq_bool a b)
  | TabStops _, TabStops _ => negb (Nat.eqb r1 r2)
  | _, _ => true
  end.

Definition bool_differ (v : bool) (cur : option bool) : bool :=
  match cur with
  | Some b => negb (Bool.eqb v b)
  | None => true
  end.

Section Host.
(** [context.measureText(s).width] with [context.font] set to a font string *)
Variable measureText : jstr -> jstr -> Q.
(** The probe behind [determineFontProperties]; its cache only saves
    repeating it. *)
Variable determineFontProperties : jstr -> font_properties.
(** [n.toString()] and the [toString] of a host object *)
Variable number_toString : num -> jstr.
Variable object_toString : nat -> jstr.

(** [v.toString()]: a TypeError on [undefined] and [null] *)
Definition toString (v : value) : result jstr :=
  match v with
  | VUndefined => Throw TypeError
  | VNull => Throw TypeError
  | VBool true => Ok (lit "true")
  | VBool false => Ok (lit "false")
  | VNumber n => Ok (number_toString n)
  | VString s => Ok s
  | VObject a => Ok (object_toString a)
  end.

(** [String(v)], as [s += v] applies it *)
Definition to_string_concat (v : value) : jstr :=
  match v with
  | VUndefined => lit "undefined"
  | VNull => lit "null"
  | VBool true => lit "true"
  | VBool false => lit "false"
  | VNumber n => number_toString n
  | VString s => s
  | VObject a => object_toString a
  end.

(** The string of an element under [Array.prototype.join] *)
Definition to_string_join (v : value) : jstr :=
  match v with
  | VUndefined => []
  | VNull => []
  | _ => to_string_concat v
  end.

(** *** The canvas

    [this.canvas] is an HTMLCanvasElement of the host, and its [width]
    and [height] are unsigned integers.  An assignment to one of them
    converts the number to an unsigned long: NaN becomes 0, any other
    number loses its fraction and is taken modulo 2^32.  A result above
    2147483647 is replaced by the default of the attribute, 300 for
    the width and 150 for the height. *)

(** A number without its fraction *)
Definition integer_part (q : Q) : Z :=
  if Qle_bool 0 q then Qfloor q else Qceiling q.

Definition to_unsigned_long (v : num) : Z :=
  match v with
  | Num q => (integer_part q mod 4294967296)%Z
  | NaN => 0%Z
  end.

(** What [this.canvas.width] or [this.canvas.height] holds once [v] has
    been assigned to it. *)
Definition canvas_size (default : Z) (v : num) : num :=
  let n := to_unsigned_long v in
  Num (inject_Z (if (n <=? 2147483647)%Z then n else default)).

(** *** [updateTexture] *)
Definition updateTexture (o : text_obj) : text_obj :=
  let w := canvas_width o in
  let h := canvas_height o in
  let pivot :=
    match textBounds o with
    | Some b =>
        let x := Num (rect_x b) in
        let y := Num (rect_y b) in
        let x :=
          if Js.eqb (boundsAlignH (style o)) (lit "right")
          then add x (sub (Num (rect_width b)) w)
          else if Js.eqb (boundsAlignH (style o)) (lit "center")
          then add x (sub (Num (halfWidth b)) (half w))
          else x in
        let y :=
          if Js.eqb (boundsAlignV (style o)) (lit "bottom")
          then add y (sub (Num (rect_height b)) h)
          else if Js.eqb (boundsAlignV (style o)) (lit "middle")
          then add y (sub (Num (halfHeight b)) (half h))
          else y in
        (neg x, neg y)
    | None => (pivot_x o, pivot_y o)
    end in
  let nonzero (a : num) :=
    match a with
    | Num q => negb (Qeq_bool q 0)
    | NaN => true
    end in
  TextObj (padding_x o) (padding_y o) (textBounds o) (colors o) (strokeColors o)
    (fontStyles o) (fontWeights o) (autoRound o) (_res o) (_text o)
    (_fontComponents o) (_lineSpacing o) (_charCount o) w h
    (style o) (dirty o) (canvas_width o) (canvas_height o) w h
    (texture_resolution o) true (fst pivot) (snd pivot)
    (nonzero w && nonzero h) (parent o) (transform_updates o) (layout_passes o)
    (S (base_dirty_calls o)).

(** *** [updateText]: the canvas is sized, the drawing calls are not
    recorded in the object, and the texture is brought in line. *)
Definition updateText (o : text_obj) : text_obj :=
  let st := style o in
  let measure := measureText (style_font st) in
  let outputText :=
    if wordWrap st
    then WordWrap.runWordWrap measure (wordWrapWidth st) (_text o)
    else _text o in
  let lines := split_lines outputText in
  let maxLineWidth :=
    max_line_width measure (tabs st) (strokeThickness st) (padding_x o) lines in
  let fontProperties := determineFontProperties (style_font st) in
  let cw := canvas_size 300 (mul maxLineWidth (Num (_res o))) in
  let ch :=
    canvas_size 150
      (Num (scaled_height (fontSize_px fontProperties) (strokeThickness st) (padding_y o)
                          (_lineSpacing o) (_res o) (List.length lines))) in
  let per_char :=
    (0 <? List.length (colors o))%nat || (0 <? List.length (strokeColors o))%nat ||
    (0 <? List.length (fontWeights o))%nat || (0 <? List.length (fontStyles o))%nat in
  let charCount :=
    if per_char then fold_left (fun n l => (n + List.length l)%nat) lines O else O in
  updateTexture
    (TextObj (padding_x o) (padding_y o) (textBounds o) (colors o) (strokeColors o)
       (fontStyles o) (fontWeights o) (autoRound o) (_res o) (_text o)
       (_fontComponents o) (_lineSpacing o) charCount (_width o) (_height o)
       (style o) (dirty o) cw ch (texture_width o) (texture_height o)
       (_res o) (requiresReTint o) (pivot_x o) (pivot_y o)
       (renderable o) (parent o) (transform_updates o) (S (layout_passes o))
       (base_dirty_calls o)).

(** [if (this.dirty) { this.updateText(); this.dirty = false; }], the
    opening of every render trigger. *)
Definition flush (o : text_obj) : text_obj :=
  if dirty o then set_dirty false (updateText o) else o.

Definition _renderWebGL (o : text_obj) : text_obj := flush o.
Definition _renderCanvas (o : text_obj) : text_obj := flush o.
Definition getBounds (o : text_obj) : text_obj := flush o.
Definition get_width (o : text_obj) : text_obj := flush o.
Definition get_height (o : text_obj) : text_obj := flush o.

(** *** [setShadow], with its defaults for absent arguments *)
Definition setShadow (x y : option Q) (color : option jstr) (blur : option Q)
           (sStroke sFill : option bool) (o : text_obj) : text_obj :=
  let x := match x with Some v => v | None => 0 end in
  let y := match y with Some v => v | None => 0 end in
  let color := match color with Some v => v | None => lit "rgba(0, 0, 0, 1)" end in
  let blur := match blur with Some v => v | None => 0 end in
  let sStroke := match sStroke with Some v => v | None => true end in
  let sFill := match sFill with Some v => v | None => true end in
  set_dirty true
    (with_style (fun s =>
       style_set_shadowFill (Some sFill)
         (style_set_shadowStroke (Some sStroke)
            (style_set_shadowBlur blur
               (style_set_shadowColor color
                  (style_set_shadowOffsetY y
                     (style_set_shadowOffsetX x s)))))) o).

(** [style.fontSize] as stored: a number gets the px suffix. *)
Definition size_string (v : font_size) : jstr :=
  match v with
  | SizeNumber n => (number_toString n ++ lit "px")%list
  | SizeString s => s
  end.

Definition size_truthy (v : option font_size) : bool :=
  match v with
  | Some (SizeNumber (Num q)) => negb (Qeq_bool q 0)
  | Some (SizeNumber NaN) => false
  | Some (SizeString (_ :: _)) => true
  | _ => false
  end.

(** *** [setStyle] *)
Definition setStyle (a : option style_arg) (o : text_obj) : text_obj :=
  let a := match a with
           | Some a => a
           | None => StyleArg None None None None None None None None None None
                              None None None None None None None None None None None
           end in
  let font0 := or_str (arg_font a) (lit "bold 20pt Arial") in
  let components := fontToComponents font0 in
  let components :=
    if truthy (arg_fontStyle a)
    then Components (font components) (arg_fontStyle a) (fontVariant components)
           (fontWeight components) (fontSize components) (fontFamily components)
    else components in
  let components :=
    if truthy (arg_fontVariant a)
    then Components (font components) (fontStyle components) (arg_fontVariant a)
           (fontWeight components) (fontSize components) (fontFamily components)
    else components in
  let components :=
    if truthy (arg_fontWeight a)
    then Components (font components) (fontStyle components) (fontVariant components)
           (arg_fontWeight a) (fontSize components) (fontFamily components)
    else components in
  let components :=
    match arg_fontSize a with
    | Some v =>
        if size_truthy (arg_fontSize a)
        then Components (font components) (fontStyle components)
               (fontVariant components) (fontWeight components)
               (Some (size_string v)) (fontFamily components)
        else components
    | None => components
    end in
  let t := or_tabs (arg_tabs a) in
  let st :=
    Style (componentsToFont components)
      (or_null (arg_backgroundColor a))
      (or_str (arg_fill a) (lit "black"))
      (or_str (arg_align a) (lit "left"))
      (or_str (arg_boundsAlignH a) (lit "left"))
      (or_str (arg_boundsAlignV a) (lit "top"))
      (or_str (arg_stroke a) (lit "black"))
      (or_num (arg_strokeThickness a) 0)
      (or_false (arg_wordWrap a))
      (or_num (arg_wordWrapWidth a) 100)
      (or_num (arg_shadowOffsetX a) 0)
      (or_num (arg_shadowOffsetY a) 0)
      (or_str (arg_shadowColor a) (lit "rgba(0,0,0,0)"))
      (or_num (arg_shadowBlur a) 0)
      (arg_shadowStroke a)
      (arg_shadowFill a)
      (fst t) (snd t) in
  set_dirty true (with_style (fun _ => st) (set__fontComponents components o)).

(** *** The style-run maps *)
Definition clearColors (o : text_obj) : text_obj :=
  set_dirty true (set_runs [] [] (fontStyles o) (fontWeights o) o).

Definition clearFontValues (o : text_obj) : text_obj :=
  set_dirty true (set_runs (colors o) (strokeColors o) [] [] o).

Definition addColor (color : jstr) (position : nat) (o : text_obj) : text_obj :=
  set_dirty true
    (set_runs (set_index (colors o) position color) (strokeColors o)
              (fontStyles o) (fontWeights o) o).

Definition addStrokeColor (color : jstr) (position : nat) (o : text_obj) : text_obj :=
  set_dirty true
    (set_runs (colors o) (set_index (strokeColors o) position color)
              (fontStyles o) (fontWeights o) o).

Definition addFontStyle (sty : jstr) (position : nat) (o : text_obj) : text_obj :=
  set_dirty true
    (set_runs (colors o) (strokeColors o)
              (set_index (fontStyles o) position sty) (fontWeights o) o).

Definition addFontWeight (weight : jstr) (position : nat) (o : text_obj) : text_obj :=
  set_dirty true
    (set_runs (colors o) (strokeColors o)
              (fontStyles o) (set_index (fontWeights o) position weight) o).

(** *** The [text] property and [setText] *)

(** [value !== this._text] *)
Definition text_differs (v : value) (o : text_obj) : bool :=
  match v with
  | VString s => negb (Js.eqb s (_text o))
  | _ => true
  end.

(** The setter of [text] *)
Definition set_text (v : value) (o : text_obj) : result text_obj :=
  if text_differs v o then
    bind (toString v) (fun s =>
      Ok (updateTransform_if_parent (set_dirty true (set__text s o))))
  else Ok o.

(** [setText(text)] *)
Definition setText (text : value) (o : text_obj) : result text_obj :=
  bind (toString text) (fun s =>
    bind (set_text (VString s) o) (fun o' =>
      Ok (set_dirty true o'))).

(** *** [parseList] *)
Inductive list_item : Type :=
| Item (v : value)
| Row (cells : list value).

Inductive list_arg : Type :=
| NotArray (v : value)
| Array (items : list list_item).

Fixpoint parse_items (i n : nat) (items : list list_item) (s : jstr) : jstr :=
  match items with
  | [] => s
  | Row cells :: items' =>
      let s := (s ++ join [tabchar] (List.map to_string_join cells))%list in
      let s := if (i <? n - 1)%nat then (s ++ [newline])%list else s in
      parse_items (S i) n items' s
  | Item v :: items' =>
      let s := (s ++ to_string_concat v)%list in
      let s := if (i <? n - 1)%nat then (s ++ [tabchar])%list else s in
      parse_items (S i) n items' s
  end.

Definition parseList (l : list_arg) (o : text_obj) : result text_obj :=
  match l with
  | NotArray _ => Ok o
  | Array items =>
      let s := parse_items 0 (List.length items) items [] in
      bind (set_text (VString s) o) (fun o' => Ok (set_dirty true o'))
  end.

(** *** [setTextBounds]; no argument at all is [None] *)
Definition setTextBounds (a : option (Q * Q * Q * Q)) (o : text_obj) : text_obj :=
  match a with
  | None => updateTexture (set_textBounds None o)
  | Some (x, y, width, height) =>
      let o := set_textBounds (Some (Rectangle x y width height)) o in
      let o :=
        if Qgtb (wordWrapWidth (style o)) width
        then with_style (style_set_wordWrapWidth width) o
        else o in
      updateTexture o
  end.

(** *** The comparing setters *)

(** The setter of [fill] *)
Definition set_fill (value : jstr) (o : text_obj) : text_obj :=
  if negb (Js.eqb value (fill (style o)))
  then set_dirty true (with_style (style_set_fill value) o)
  else o.

(** The setter of [align] *)
Definition set_align (value : jstr) (o : text_obj) : text_obj :=
  if negb (Js.eqb value (align (style o)))
  then set_dirty true (with_style (style_set_align value) o)
  else o.

(** The setter of [resolution] *)
Definition set_resolution (value : Q) (o : text_obj) : text_obj :=
  if negb (Qeq_bool value (_res o))
  then set_dirty true (set__res value o)
  else o.

(** The setter of [tabs]; [ref] is the identity of an array value *)
Definition set_tabs (ref : nat) (value : tabs_t) (o : text_obj) : text_obj :=
  if tabs_differ ref value (tabs_ref (style o)) (tabs (style o))
  then set_dirty true (with_style (style_set_tabs ref value) o)
  else o.

(** The setter of [boundsAlignH] *)
Definition set_boundsAlignH (value : jstr) (o : text_obj) : text_obj :=
  if negb (Js.eqb value (boundsAlignH (style o)))
  then set_dirty true (with_style (style_set_boundsAlignH value) o)
  else o.

(** The setter of [boundsAlignV] *)
Definition set_boundsAlignV (value : jstr) (o : text_obj) : text_obj :=
  if negb (Js.eqb value (boundsAlignV (style o)))
  then set_dirty true (with_style (style_set_boundsAlignV value) o)
  else o.

(** The setter of [stroke] *)
Definition set_stroke (value : jstr) (o : text_obj) : text_obj :=
  if negb (Js.eqb value (stroke (style o)))
  then set_dirty true (with_style (style_set_stroke value) o)
  else o.

(** The setter of [strokeThickness] *)
Definition set_strokeThickness (value : Q) (o : text_obj) : text_obj :=
  if negb (Qeq_bool value (strokeThickness (style o)))
  then set_dirty true (with_style (style_set_strokeThickness value) o)
  else o.

(** The setter of [wordWrap] *)
Definition set_wordWrap (value : bool) (o : text_obj) : text_obj :=
  if negb (Bool.eqb value (wordWrap (style o)))
  then set_dirty true (with_style (style_set_wordWrap value) o)
  else o.

(** The setter of [wordWrapWidth] *)
Definition set_wordWrapWidth (value : Q) (o : text_obj) : text_obj :=
  if negb (Qeq_bool value (wordWrapWidth (style o)))
  then set_dirty true (with_style (style_set_wordWrapWidth value) o)
  else o.

(** The setter of [lineSpacing]; [parseFloat] of a number is the number *)
Definition set_lineSpacing (value : Q) (o : text_obj) : text_obj :=
  if negb (Qeq_bool value (_lineSpacing o))
  then updateTransform_if_parent (set_dirty true (set__lineSpacing value o))
  else o.

(** The setter of [shadowOffsetX] *)
Definition set_shadowOffsetX (value : Q) (o : text_obj) : text_obj :=
  if negb (Qeq_bool value (shadowOffsetX (style o)))
  then set_dirty true (with_style (style_set_shadowOffsetX value) o)
  else o.

(** The setter of [shadowOffsetY] *)
Definition set_shadowOffsetY (value : Q) (o : text_obj) : text_obj :=
  if negb (Qeq_bool value (shadowOffsetY (style o)))
  then set_dirty true (with_style (style_set_shadowOffsetY value) o)
  else o.

(** The setter of [shadowColor] *)
Definition set_shadowColor (value : jstr) (o : text_obj) : text_obj :=
  if negb (Js.eqb value (shadowColor (style o)))
  then set_dirty true (with_style (style_set_shadowColor value) o)
  else o.

(** The setter of [shadowBlur] *)
Definition set_shadowBlur (value : Q) (o : text_obj) : text_obj :=
  if negb (Qeq_bool value (shadowBlur (style o)))
  then set_dirty true (with_style (style_set_shadowBlur value) o)
  else o.

(** The setter of [shadowStroke] *)
Definition set_shadowStroke (value : bool) (o : text_obj) : text_obj :=
  if bool_differ value (shadowStroke (style o))
  then set_dirty true (with_style (style_set_shadowStroke (Some value)) o)
  else o.

(** The setter of [shadowFill] *)
Definition set_shadowFill (value : bool) (o : text_obj) : text_obj :=
  if bool_differ value (shadowFill (style o))
  then set_dirty true (with_style (style_set_shadowFill (Some value)) o)
  else o.

(** *** The font setters *)

(** [updateFont(components)] *)
Definition updateFont (c : components) (o : text_obj) : text_obj :=
  let f := componentsToFont c in
  if negb (Js.eqb (style_font (style o)) f)
  then updateTransform_if_parent (set_dirty true (with_style (style_set_style_font f) o))
  else o.

(** The getter and the setter of [cssFont] *)
Definition get_cssFont (o : text_obj) : jstr := componentsToFont (_fontComponents o).

Definition set_cssFont (value : option jstr) (o : text_obj) : text_obj :=
  let value := or_str value (lit "bold 20pt Arial") in
  let c := fontToComponents value in
  updateFont c (set__fontComponents c o).

(** [value.trim()] *)
Fixpoint trim_start (s : jstr) : jstr :=
  match s with
  | x :: s' => if Regex.is_space x then trim_start s' else s
  | [] => []
  end.

Definition trim (s : jstr) : jstr := rev (trim_start (rev (trim_start s))).

(** The two tests of the [font] setter: a generic family, a quote or comma *)
Definition generic_family_re : Regex.regex :=
  Regex.seqs [Regex.Bol;
              Regex.words "inherit" ["serif"; "sans-serif"; "cursive"; "fantasy"; "monospace"];
              Regex.Eol].

Definition quote_or_comma (c : N) : bool := N.eqb c 39 || N.eqb c 34 || N.eqb c 44.

Definition matches (r : Regex.regex) (s : jstr) : bool :=
  match Regex.exec r s with
  | Some _ => true
  | None => false
  end.

Definition with_family (v : jstr) (c : components) : components :=
  Components (font c) (fontStyle c) (fontVariant c) (fontWeight c) (fontSize c) (Some v).

Definition set_font (value : option jstr) (o : text_obj) : text_obj :=
  let value := or_str value (lit "Arial") in
  let value := trim value in
  let value :=
    if negb (matches generic_family_re value) &&
       negb (matches (Regex.Cls quote_or_comma) value)
    then ([39%N] ++ value ++ [39%N])%list
    else value in
  let c := with_family value (_fontComponents o) in
  updateFont c (set__fontComponents c o).

Definition set_fontSize (value : option font_size) (o : text_obj) : text_obj :=
  let value :=
    match value with
    | Some v => if size_truthy value then size_string v else lit "0"
    | None => lit "0"
    end in
  let c0 := _fontComponents o in
  let c := Components (font c0) (fontStyle c0) (fontVariant c0) (fontWeight c0)
                      (Some value) (fontFamily c0) in
  updateFont c (set__fontComponents c o).

Definition set_fontWeight (value : option jstr) (o : text_obj) : text_obj :=
  let value := or_str value (lit "normal") in
  let c0 := _fontComponents o in
  let c := Components (font c0) (fontStyle c0) (fontVariant c0) (Some value)
                      (fontSize c0) (fontFamily c0) in
  updateFont c (set__fontComponents c o).

Definition set_fontStyle (value : option jstr) (o : text_obj) : text_obj :=
  let value := or_str value (lit "normal") in
  let c0 := _fontComponents o in
  let c := Components (font c0) (Some value) (fontVariant c0) (fontWeight c0)
                      (fontSize c0) (fontFamily c0) in
  updateFont c (set__fontComponents c o).

Definition set_fontVariant (value : option jstr) (o : text_obj) : text_obj :=
  let value := or_str value (lit "normal") in
  let c0 := _fontComponents o in
  let c := Components (font c0) (fontStyle c0) (Some value) (fontWeight c0)
                      (fontSize c0) (fontFamily c0) in
  updateFont c (set__fontComponents c o).

(** *** The constructor.  [res] is the renderer's resolution and
    [cw], [ch] the size of the canvas the pool hands out; a text that
    is [undefined] or [null] becomes the empty string. *)
Definition construct (res : Q) (cw ch : num) (text : value) (a : option style_arg)
  : result text_obj :=
  bind (match text with
        | VUndefined => Ok []
        | VNull => Ok []
        | _ => toString text
        end)
    (fun text =>
       let o :=
         TextObj 0 0 None [] [] [] [] false res text
           (Components [] None None None None None) 0 O (Num 0) (Num 0)
           (Style [] None [] [] [] [] [] 0 false 0 0 0 [] 0 None None O (TabSize 0))
           false cw ch cw ch 1 false (Num 0) (Num 0) true false O O O in
       let o := setStyle a o in
       Ok (match text with
           | [] => o
           | _ :: _ => updateText o
           end)).

End Host.

End Text.

(** ** The getters of the font properties *)
Module Accessors.
Import Js Font Text.

(** The getter of [font]: the family as the components hold it. *)
Definition get_font (o : text_obj) : option jstr :=
  fontFamily (_fontComponents o).

(** The getters of [fontWeight], [fontStyle] and [fontVariant]: the
    component, or normal when it is absent or empty. *)
Definition get_fontWeight (o : text_obj) : jstr :=
  or_else (fontWeight (_fontComponents o)) normal.

Definition get_fontStyle (o : text_obj) : jstr :=
  or_else (fontStyle (_fontComponents o)) normal.

Definition get_fontVariant (o : text_obj) : jstr :=
  or_else (fontVariant (_fontComponents o)) normal.

End Accessors.

(** ** The drawing half of [updateText], [updateLine] and [updateShadow]

    The calls of [fillText] and [strokeText] that a layout pass issues,
    each with the state of the context it is issued in.  The context
    holds what was last assigned to it; its line width, cap, join and
    base line are assigned once, before the first call, and are the
    same for every call. *)
Module Canvas.
Import Js Num Layout Font Text.

(** [context.shadowColor] as assigned: a colour, or the number 0. *)
Inductive shadow_color : Type :=
| ShadowColor (c : jstr)
| ShadowZero.

(** The four shadow properties of the context. *)
Record shadow := Shadow {
  shadow_x : Q;
  shadow_y : Q;
  shadow_c : shadow_color;
  shadow_b : Q
}.

Record context := Context {
  ctx_font : jstr;
  fillStyle : jstr;
  strokeStyle : jstr;
  (** [None]: not assigned since the canvas was sized *)
  ctx_shadow : option shadow
}.

(** One call of [fillText] or [strokeText], and the context it is made in. *)
Record call := Call {
  call_draw : draw;
  call_ctx : context
}.

Definition set_ctx_font (v : jstr) (c : context) : context :=
  Context v (fillStyle c) (strokeStyle c) (ctx_shadow c).

Definition set_fillStyle (v : jstr) (c : context) : context :=
  Context (ctx_font c) v (strokeStyle c) (ctx_shadow c).

Definition set_strokeStyle (v : jstr) (c : context) : context :=
  Context (ctx_font c) (fillStyle c) v (ctx_shadow c).

(** [updateShadow(state)] *)
Definition updateShadow (st : style_t) (state : option bool) (c : context) : context :=
  if or_false state
  then Context (ctx_font c) (fillStyle c) (strokeStyle c)
         (Some (Shadow (shadowOffsetX st) (shadowOffsetY st)
                       (ShadowColor (shadowColor st)) (shadowBlur st)))
  else Context (ctx_font c) (fillStyle c) (strokeStyle c)
         (Some (Shadow 0 0 ShadowZero 0)).

(** [a[i]] where the source tests it before it uses it: a hole, an
    index past the end and the empty string are all falsy. *)
Definition run_at (a : list (option jstr)) (i : nat) : option jstr :=
  match nth_error a i with
  | Some (Some (x :: s)) => Some (x :: s)
  | _ => None
  end.

(** [this.style.stroke && this.style.strokeThickness] *)
Definition strokes (st : style_t) : bool :=
  truthy (Some (stroke st)) && negb (Qeq_bool (strokeThickness st) 0).

(** [this.style.fill] as a condition *)
Definition fills (st : style_t) : bool := truthy (Some (fill st)).

(** The test that sends a line to [updateLine]. *)
Definition per_character (o : text_obj) : bool :=
  (0 <? List.length (colors o))%nat || (0 <? List.length (strokeColors o))%nat ||
  (0 <? List.length (fontWeights o))%nat || (0 <? List.length (fontStyles o))%nat.

(** [Math.round]: the nearest integer, a half going up. *)
Definition round (q : Q) : Q := inject_Z (Qfloor (q + (1 # 2))).

Definition round_num (a : num) : num :=
  match a with
  | Num q => Num (round q)
  | NaN => NaN
  end.

Section Drawing.
(** [context.measureText(s).width] once a font string has been assigned
    to [context.font] *)
Variable measureText : jstr -> jstr -> Q.
Variable determineFontProperties : jstr -> font_properties.
(** What [context.font] reads as once a font string has been assigned to it *)
Variable font_read : jstr -> jstr.

(** [updateLine(line, x, y)], from the character at [this._charCount]
    on: the calls, the context and the counter it leaves. *)
Fixpoint updateLine (o : text_obj) (line : jstr) (x : num) (y : Q)
         (c : context) (charCount : nat) : list call * (context * nat) :=
  match line with
  | [] => ([], (c, charCount))
  | letter :: line' =>
      let st := style o in
      let c :=
        if (0 <? List.length (fontWeights o))%nat || (0 <? List.length (fontStyles o))%nat
        then
          let components := fontToComponents (font_read (ctx_font c)) in
          let components :=
            match run_at (fontStyles o) charCount with
            | Some v =>
                Components (font components) (Some v) (fontVariant components)
                  (fontWeight components) (fontSize components) (fontFamily components)
            | None => components
            end in
          let components :=
            match run_at (fontWeights o) charCount with
            | Some v =>
                Components (font components) (fontStyle components)
                  (fontVariant components) (Some v) (fontSize components)
                  (fontFamily components)
            | None => components
            end in
          set_ctx_font (componentsToFont components) c
        else c in
      let stroked :=
        if strokes st
        then
          let c :=
            match run_at (strokeColors o) charCount with
            | Some v => set_strokeStyle v c
            | None => c
            end in
          let c := updateShadow st (shadowStroke st) c in
          ([Call (Draw false [letter] x y) c], c)
        else ([], c) in
      let c := snd stroked in
      let filled :=
        if fills st
        then
          let c :=
            match run_at (colors o) charCount with
            | Some v => set_fillStyle v c
            | None => c
            end in
          let c := updateShadow st (shadowFill st) c in
          ([Call (Draw true [letter] x y) c], c)
        else ([], c) in
      let c := snd filled in
      let x := add x (Num (measureText (ctx_font c) [letter])) in
      let rest := updateLine o line' x y c (S charCount) in
      (fst stroked ++ fst filled ++ fst rest, snd rest)
  end.

(** [renderTabLine(line, x, y, fill)] at a position that may be NaN. *)
Definition renderTabLine_at (font : jstr) (tabs : tabs_t) (line : jstr)
           (x : num) (y : Q) (fill : bool) : list draw :=
  match x with
  | Num q => renderTabLine (measureText font) tabs line q y fill
  | NaN => List.map (fun seg => Draw fill seg NaN y) (split tabchar line)
  end.

(** [linePositionX] for a line of width [lineWidth] *)
Definition linePositionX (o : text_obj) (maxLineWidth lineWidth : num) : num :=
  let st := style o in
  let x := Num (strokeThickness st / 2) in
  let x :=
    if Js.eqb (align st) (lit "right")
    then add x (sub maxLineWidth lineWidth)
    else if Js.eqb (align st) (lit "center")
    then add x (half (sub maxLineWidth lineWidth))
    else x in
  if autoRound o then round_num x else x.

(** [linePositionY] for line [i]; [lineSpacing] is the spacing after
    the clamp. *)
Definition linePositionY (o : text_obj) (lineHeight lineSpacing ascent : Q) (i : nat) : Q :=
  let st := style o in
  let y := (strokeThickness st / 2 + inject_Z (Z.of_nat i) * lineHeight) + ascent in
  let y := if (0 <? i)%nat then y + lineSpacing * inject_Z (Z.of_nat i) else y in
  if autoRound o then round y else y.

(** The calls of one pass of the loop that draws line [i] at [x], [y]. *)
Definition draw_line (o : text_obj) (line : jstr) (x : num) (y : Q)
           (c : context) (charCount : nat) : list call * (context * nat) :=
  let st := style o in
  if per_character o
  then updateLine o line x y c charCount
  else
    let stroked :=
      if strokes st
      then
        let c := updateShadow st (shadowStroke st) c in
        (if tabs_is_zero (tabs st)
         then [Call (Draw false line x y) c]
         else List.map (fun d => Call d c)
                (renderTabLine_at (style_font st) (tabs st) line x y false),
         c)
      else ([], c) in
    let c := snd stroked in
    let filled :=
      if fills st
      then
        let c := updateShadow st (shadowFill st) c in
        (if tabs_is_zero (tabs st)
         then [Call (Draw true line x y) c]
         else List.map (fun d => Call d c)
                (renderTabLine_at (style_font st) (tabs st) line x y true),
         c)
      else ([], c) in
    (fst stroked ++ fst filled, (snd filled, charCount)).

(** The loop that draws the lines, from line [i] on. *)
Fixpoint draw_lines (o : text_obj) (maxLineWidth : num)
         (lineHeight lineSpacing ascent : Q) (i : nat) (lines : list jstr)
         (c : context) (charCount : nat) : list call * (context * nat) :=
  match lines with
  | [] => ([], (c, charCount))
  | line :: lines' =>
      let st := style o in
      let lineWidth :=
        reported_width (measureText (style_font st)) (tabs st) (strokeThickness st)
          (padding_x o) line in
      let x := linePositionX o maxLineWidth lineWidth in
      let y := linePositionY o lineHeight lineSpacing ascent i in
      let this := draw_line o line x y c charCount in
      let rest :=
        draw_lines o maxLineWidth lineHeight lineSpacing ascent (S i) lines'
          (fst (snd this)) (snd (snd this)) in
      (fst this ++ fst rest, snd rest)
  end.

(** The lines [updateText] lays out. *)
Definition output_lines (o : text_obj) : list jstr :=
  let st := style o in
  split_lines
    (if wordWrap st
     then WordWrap.runWordWrap (measureText (style_font st)) (wordWrapWidth st) (_text o)
     else _text o).

(** The context when the drawing loop of [updateText] starts. *)
Definition start_context (o : text_obj) : context :=
  Context (style_font (style o)) (fill (style o)) (stroke (style o)) None.

(** The calls of [fillText] and [strokeText] that [updateText] issues,
    in order, and the value it leaves in [_charCount]. *)
Definition draw_calls (o : text_obj) : list call * nat :=
  let st := style o in
  let lines := output_lines o in
  let maxLineWidth :=
    max_line_width (measureText (style_font st)) (tabs st) (strokeThickness st)
      (padding_x o) lines in
  let fontProperties := determineFontProperties (style_font st) in
  let lineHeight :=
    line_height (fontSize_px fontProperties) (strokeThickness st) (padding_y o) in
  let lineSpacing := effective_spacing lineHeight (_lineSpacing o) in
  let r :=
    draw_lines o maxLineWidth lineHeight lineSpacing (ascent fontProperties)
      0 lines (start_context o) 0 in
  (fst r, snd (snd r)).

End Drawing.

End Canvas.

(** ** [determineFontProperties]: the scan of the probe image

    What the function computes for a font that is not in its cache,
    from the picture of the probe text on: [width] is the measured
    width of the probe text rounded up and [baseline] that width times
    1.4, truncated (floating-point arithmetic, left to the host);
    [imagedata] is the picture, four bytes a pixel, or [None] where
    [getImageData] gives nothing. *)
Module FontProbe.
Import Text.
Local Open Scope Z_scope.

(** [imagedata[k] !== 255]: true also where the array has no entry *)
Definition not_255 (imagedata : list N) (k : Z) : bool :=
  if k <? 0 then true
  else match nth_error imagedata (Z.to_nat k) with
       | Some v => negb (N.eqb v 255)
       | None => true
       end.

(** The inner loop over the pixels of a row, [j] going up by 4: whether
    it sets [stop]. *)
Fixpoint row_stops (imagedata : list N) (idx : Z) (pixels : nat) (j : Z) : bool :=
  match pixels with
  | O => false
  | S n => if not_255 imagedata (idx + j) then true
           else row_stops imagedata idx n (j + 4)
  end.

(** The loop for the ascent, with [rows] more rows to go: the value of
    [i] it ends with. *)
Fixpoint scan_down (imagedata : list N) (width : nat) (line : Z)
         (rows : nat) (i idx : Z) : Z :=
  match rows with
  | O => i
  | S rows' =>
      if row_stops imagedata idx width 0 then i
      else scan_down imagedata width line rows' (i + 1) (idx + line)
  end.

(** The loop for the descent: the value of [i] it ends with. *)
Fixpoint scan_up (imagedata : list N) (width : nat) (line : Z)
         (rows : nat) (i idx : Z) : Z :=
  match rows with
  | O => i
  | S rows' =>
      if row_stops imagedata idx width 0 then i
      else scan_up imagedata width line rows' (i - 1) (idx - line)
  end.

Definition ascent_of (imagedata : list N) (width baseline : Z) : Z :=
  let line := width * 4 in
  baseline - scan_down imagedata (Z.to_nat width) line (Z.to_nat baseline) 0 0.

Definition descent_of (imagedata : list N) (width baseline : Z) : Z :=
  let height := 2 * width in
  let pixels := Z.of_nat (List.length imagedata) in
  let line := width * 4 in
  let i := scan_up imagedata (Z.to_nat width) line (Z.to_nat (height - baseline))
             height (pixels - line) in
  (i - baseline) + 6.

(** The properties the function stores in its cache and returns. *)
Definition measured (width baseline : Z) (imagedata : option (list N)) : font_properties :=
  match imagedata with
  | None =>
      FontProperties (inject_Z baseline) (inject_Z (baseline + 6))
                     (inject_Z baseline + inject_Z (baseline + 6))
  | Some data =>
      let a := ascent_of data width baseline in
      let d := descent_of data width baseline in
      FontProperties (inject_Z a) (inject_Z d) (inject_Z a + inject_Z d)
  end.

End FontProbe.

(** ** The getter of [fontSize] *)
Module FontSize.
Import Js Regex Font Num Text.

(** The pattern of the getter: the string 0, or px at the end. *)
Definition pixel_re : regex :=
  Alt (seqs [Bol; Lit (lit "0"); Eol]) (Seq (Lit (lit "px")) Eol).

(** The value of the decimal digits a string begins with, [acc] being
    the value of those before. *)
Fixpoint digits_value (s : jstr) (acc : Z) : Z :=
  match s with
  | x :: s' =>
      if is_digit x then digits_value s' (10 * acc + Z.of_N (x - 48)) else acc
  | [] => acc
  end.

(** What [parseInt] returns is a double: a whole number, an infinity
    or NaN.  Zero carries no sign here. *)
Inductive double : Type :=
| Finite (z : Z)
| Infinity (negative : bool)
| NotANumber.

(** The double nearest to a whole number that is not negative.  Up to
    53 significant bits the number is a double as it is; beyond, it is
    rounded to 53 bits, to the nearest and, of two as near, to the one
    whose last bit is 0.  The result may be 2^1024 or more, which no
    double is. *)
Definition nearest_double (z : Z) : Z :=
  let e := (Z.log2 z + 1 - 53)%Z in
  if (e <=? 0)%Z then z
  else
    let q := Z.shiftr z e in
    let r := (z mod 2 ^ e)%Z in
    let half := (2 ^ (e - 1))%Z in
    let q := if (half <? r)%Z || ((r =? half)%Z && Z.odd q) then (q + 1)%Z else q in
    Z.shiftl q e.

(** The double of a sign and a magnitude. *)
Definition to_double (negative : bool) (z : Z) : double :=
  let m := nearest_double z in
  if (2 ^ 1024 <=? m)%Z then Infinity negative
  else Finite (if negative then - m else m).

(** [parseInt(s, 10)]: white space is skipped, a sign read, then the
    digits up to the first character that is none; NaN when there is
    no digit.  The digits are read exactly, those after the twentieth
    too, where the language lets an engine take them for zeros. *)
Definition parseInt (s : jstr) : double :=
  let s := trim_start s in
  let negative := match s with x :: _ => N.eqb x 45 | [] => false end in
  let s :=
    match s with
    | x :: r => if N.eqb x 45 || N.eqb x 43 then r else s
    | [] => s
    end in
  match s with
  | x :: _ =>
      if is_digit x
      then to_double negative (digits_value s 0)
      else NotANumber
  | [] => NotANumber
  end.

(** What the getter returns: a number or the size as a string. *)
Inductive size_value : Type :=
| AsNumber (d : double)
| AsString (s : jstr).

(** The getter: a number for a size in pixels, else the size as it is. *)
Definition get_fontSize (o : text_obj) : option size_value :=
  match fontSize (_fontComponents o) with
  | Some size =>
      if truthy (Some size) && matches pixel_re size
      then Some (AsNumber (parseInt size))
      else Some (AsString size)
  | None => None
  end.

End FontSize.

(* ================================================================== *)
(** * Part II. The vocabulary of the properties *)
(* ================================================================== *)

Import Js.

(** ** Tab stops *)

(** The sum of the first [k] entries of the array, as the loops
    accumulate it in [tab]. *)
Fixpoint tab_offset (stops : list Q) (k : nat) : Num.num :=
  match k with
  | O => Num.Num 0
  | S k' => Num.add (tab_offset stops k') (Num.index stops k')
  end.

(** C4, as the claim states it: with the tab stops [30, 80] the second of
    three segments is drawn 30 from the start of the line and the third
    80 from it. *)
Definition tab_stops_absolute (measureText : jstr -> Q) (s1 s2 s3 : jstr)
           (x y : Q) (fill : bool) : Prop :=
  exists d1 d2 d3,
    Layout.renderTabLine measureText (Layout.TabStops [30; 80])
      (s1 ++ tabchar :: s2 ++ tabchar :: s3) x y fill = [d1; d2; d3] /\
    Num.eq (Layout.draw_x d2) (Num.Num (x + 30)) /\
    Num.eq (Layout.draw_x d3) (Num.Num (x + 80)).

(** ** An object to try things on *)

Definition bounded_object : Text.text_obj :=
  Text.TextObj 0 0 (Some (Text.Rectangle 0 0 800 600)) [] [] [] [] false 1 (lit "hello")
    (Font.fontToComponents (lit "bold 20pt Arial")) 0 O (Num.Num 0) (Num.Num 0)
    (Text.Style (lit "bold 20pt Arial") None (lit "black") (lit "left")
       (lit "center") (lit "bottom") (lit "black") 0 false 100 0 0
       (lit "rgba(0,0,0,0)") 0 None None O (Layout.TabSize 0))
    false (Num.Num 100) (Num.Num 40) (Num.Num 0) (Num.Num 0) 1 false
    (Num.Num 0) (Num.Num 0) true false O O O.

(** ** The public operations of a Text object *)

(** An assignment to one of the properties whose setter compares the
    new value with the current one. *)
Inductive setter_call : Type :=
| SetText (v : Text.value)
| SetFill (v : jstr)
| SetAlign (v : jstr)
| SetResolution (v : Q)
| SetTabs (ref : nat) (v : Layout.tabs_t)
| SetBoundsAlignH (v : jstr)
| SetBoundsAlignV (v : jstr)
| SetStroke (v : jstr)
| SetStrokeThickness (v : Q)
| SetWordWrap (v : bool)
| SetWordWrapWidth (v : Q)
| SetLineSpacing (v : Q)
| SetShadowOffsetX (v : Q)
| SetShadowOffsetY (v : Q)
| SetShadowColor (v : jstr)
| SetShadowBlur (v : Q)
| SetShadowStroke (v : bool)
| SetShadowFill (v : bool).

(** A call of a public operation, with its arguments. *)
Inductive op : Type :=
| OSetShadow (x y : option Q) (color : option jstr) (blur : option Q)
             (shadowStroke shadowFill : option bool)
| OSetStyle (a : option Text.style_arg)
| OClearColors
| OClearFontValues
| OAddColor (color : jstr) (position : nat)
| OAddStrokeColor (color : jstr) (position : nat)
| OAddFontStyle (sty : jstr) (position : nat)
| OAddFontWeight (weight : jstr) (position : nat)
| OSetText (text : Text.value)
| OParseList (l : Text.list_arg)
| OSetTextBounds (a : option (Q * Q * Q * Q))
| OAssign (c : setter_call)
| OSetCssFont (v : option jstr)
| OSetFont (v : option jstr)
| OSetFontSize (v : option Text.font_size)
| OSetFontWeight (v : option jstr)
| OSetFontStyle (v : option jstr)
| OSetFontVariant (v : option jstr)
| ORenderWebGL
| ORenderCanvas
| OGetBounds
| OGetWidth
| OGetHeight.

Section Operations.
Variable measureText : jstr -> jstr -> Q.
Variable determineFontProperties : jstr -> Text.font_properties.
Variable number_toString : Num.num -> jstr.
Variable object_toString : nat -> jstr.

(** The setter a call goes to. *)
Definition assign (c : setter_call) (o : Text.text_obj) : Text.result Text.text_obj :=
  match c with
  | SetText v => Text.set_text number_toString object_toString v o
  | SetFill v => Text.Ok (Text.set_fill v o)
  | SetAlign v => Text.Ok (Text.set_align v o)
  | SetResolution v => Text.Ok (Text.set_resolution v o)
  | SetTabs r v => Text.Ok (Text.set_tabs r v o)
  | SetBoundsAlignH v => Text.Ok (Text.set_boundsAlignH v o)
  | SetBoundsAlignV v => Text.Ok (Text.set_boundsAlignV v o)
  | SetStroke v => Text.Ok (Text.set_stroke v o)
  | SetStrokeThickness v => Text.Ok (Text.set_strokeThickness v o)
  | SetWordWrap v => Text.Ok (Text.set_wordWrap v o)
  | SetWordWrapWidth v => Text.Ok (Text.set_wordWrapWidth v o)
  | SetLineSpacing v => Text.Ok (Text.set_lineSpacing v o)
  | SetShadowOffsetX v => Text.Ok (Text.set_shadowOffsetX v o)
  | SetShadowOffsetY v => Text.Ok (Text.set_shadowOffsetY v o)
  | SetShadowColor v => Text.Ok (Text.set_shadowColor v o)
  | SetShadowBlur v => Text.Ok (Text.set_shadowBlur v o)
  | SetShadowStroke v => Text.Ok (Text.set_shadowStroke v o)
  | SetShadowFill v => Text.Ok (Text.set_shadowFill v o)
  end.

(** [value === current]: strings and numbers by value, booleans against
    a defined boolean, an array of tab stops by identity. *)
Definition equals_current (c : setter_call) (o : Text.text_obj) : bool :=
  let st := Text.style o in
  match c with
  | SetText (Text.VString s) => Js.eqb s (Text._text o)
  | SetText _ => false
  | SetFill v => Js.eqb v (Text.fill st)
  | SetAlign v => Js.eqb v (Text.align st)
  | SetResolution v => Qeq_bool v (Text._res o)
  | SetTabs r v =>
      match v, Text.tabs st with
      | Layout.TabSize a, Layout.TabSize b => Qeq_bool a b
      | Layout.TabStops _, Layout.TabStops _ => Nat.eqb r (Text.tabs_ref st)
      | _, _ => false
      end
  | SetBoundsAlignH v => Js.eqb v (Text.boundsAlignH st)
  | SetBoundsAlignV v => Js.eqb v (Text.boundsAlignV st)
  | SetStroke v => Js.eqb v (Text.stroke st)
  | SetStrokeThickness v => Qeq_bool v (Text.strokeThickness st)
  | SetWordWrap v => Bool.eqb v (Text.wordWrap st)
  | SetWordWrapWidth v => Qeq_bool v (Text.wordWrapWidth st)
  | SetLineSpacing v => Qeq_bool v (Text._lineSpacing o)
  | SetShadowOffsetX v => Qeq_bool v (Text.shadowOffsetX st)
  | SetShadowOffsetY v => Qeq_bool v (Text.shadowOffsetY st)
  | SetShadowColor v => Js.eqb v (Text.shadowColor st)
  | SetShadowBlur v => Qeq_bool v (Text.shadowBlur st)
  | SetShadowStroke v =>
      match Text.shadowStroke st with Some b => Bool.eqb v b | None => false end
  | SetShadowFill v =>
      match Text.shadowFill st with Some b => Bool.eqb v b | None => false end
  end.

(** The method or accessor a call goes to. *)
Definition step (p : op) (o : Text.text_obj) : Text.result Text.text_obj :=
  match p with
  | OSetShadow x y color blur ss sf => Text.Ok (Text.setShadow x y color blur ss sf o)
  | OSetStyle a => Text.Ok (Text.setStyle number_toString a o)
  | OClearColors => Text.Ok (Text.clearColors o)
  | OClearFontValues => Text.Ok (Text.clearFontValues o)
  | OAddColor c i => Text.Ok (Text.addColor c i o)
  | OAddStrokeColor c i => Text.Ok (Text.addStrokeColor c i o)
  | OAddFontStyle c i => Text.Ok (Text.addFontStyle c i o)
  | OAddFontWeight c i => Text.Ok (Text.addFontWeight c i o)
  | OSetText v => Text.setText number_toString object_toString v o
  | OParseList l => Text.parseList number_toString object_toString l o
  | OSetTextBounds a => Text.Ok (Text.setTextBounds a o)
  | OAssign c => assign c o
  | OSetCssFont v => Text.Ok (Text.set_cssFont v o)
  | OSetFont v => Text.Ok (Text.set_font v o)
  | OSetFontSize v => Text.Ok (Text.set_fontSize number_toString v o)
  | OSetFontWeight v => Text.Ok (Text.set_fontWeight v o)
  | OSetFontStyle v => Text.Ok (Text.set_fontStyle v o)
  | OSetFontVariant v => Text.Ok (Text.set_fontVariant v o)
  | ORenderWebGL => Text.Ok (Text._renderWebGL measureText determineFontProperties o)
  | ORenderCanvas => Text.Ok (Text._renderCanvas measureText determineFontProperties o)
  | OGetBounds => Text.Ok (Text.getBounds measureText determineFontProperties o)
  | OGetWidth => Text.Ok (Text.get_width measureText determineFontProperties o)
  | OGetHeight => Text.Ok (Text.get_height measureText determineFontProperties o)
  end.

(** C3, as the claim states it, for one call: the object is dirty after it. *)
Definition leaves_dirty (p : op) (o : Text.text_obj) : Prop :=
  forall o', step p o = Text.Ok o' -> Text.dirty o' = true.

(** C9, as the claim states it, for one call: it returns. *)
Definition returns (p : op) (o : Text.text_obj) : Prop :=
  exists o', step p o = Text.Ok o'.

End Operations.

(** The operations that assign [dirty = true] on every path that returns. *)
Definition always_marks (p : op) : bool :=
  match p with
  | OSetShadow _ _ _ _ _ _ | OSetStyle _ | OClearColors | OClearFontValues
  | OAddColor _ _ | OAddStrokeColor _ _ | OAddFontStyle _ _ | OAddFontWeight _ _
  | OSetText _ | OParseList (Text.Array _) => true
  | _ => false
  end.

Definition is_bounds (p : op) : bool :=
  match p with
  | OSetTextBounds _ => true
  | _ => false
  end.

Definition is_render (p : op) : bool :=
  match p with
  | ORenderWebGL | ORenderCanvas | OGetBounds | OGetWidth | OGetHeight => true
  | _ => false
  end.

(** The text content, the style descriptor, a style-run map or the
    resolution differ between two states. *)
Definition descriptor_changed (o o' : Text.text_obj) : Prop :=
  Text._text o' <> Text._text o \/
  Text.style o' <> Text.style o \/
  Text.colors o' <> Text.colors o \/
  Text.strokeColors o' <> Text.strokeColors o \/
  Text.fontStyles o' <> Text.fontStyles o \/
  Text.fontWeights o' <> Text.fontWeights o \/
  Text._res o' <> Text._res o.

(** ** A host to run the object on: every character ten pixels wide,
    every font twenty above and six below the baseline. *)
Definition demo_measure (font s : jstr) : Q :=
  10 * inject_Z (Z.of_nat (List.length s)).
Definition demo_metrics (font : jstr) : Text.font_properties :=
  Text.FontProperties 20 6 26.
Definition demo_number (n : Num.num) : jstr := lit "0".
Definition demo_object (a : nat) : jstr := lit "[object Object]".

(** [new Phaser.Text(game, 0, 0, 'hello')], rendered once. *)
Definition rendered_hello : Text.result Text.text_obj :=
  Text.bind
    (Text.construct demo_measure demo_metrics demo_number demo_object
       1 (Num.Num 300) (Num.Num 150) (Text.VString (lit "hello")) None)
    (fun o => Text.Ok (Text._renderCanvas demo_measure demo_metrics o)).


(** The object [rendered_hello] yields: constructed, rendered, clean. *)
Definition clean_hello : Text.text_obj :=
  match rendered_hello with
  | Text.Ok o => o
  | Text.Throw _ => bounded_object
  end.


(** ** Word wrap *)

(** What [runWordWrap] appends for one word: a line break if it decided
    on one, the word, a space. *)
Definition piece (d : bool * jstr) : jstr :=
  (if fst d then [newline] else []) ++ snd d ++ [space].

Section WrapVocabulary.
Variable measureText : jstr -> Q.
Variable wordWrapWidth : Q.

(** The decisions of the loop over [words]: for each word, whether a
    line break goes before it. *)
Fixpoint wrap_decisions (j : nat) (words : list jstr) (spaceLeft : Q)
  : list (bool * jstr) :=
  match words with
  | [] => []
  | w :: ws =>
      let wordWidth := measureText w in
      let wordWidthWithSpace := wordWidth + measureText [space] in
      if Num.Qgtb wordWidthWithSpace spaceLeft
      then ((0 <? j)%nat, w) :: wrap_decisions (S j) ws (wordWrapWidth - wordWidth)
      else (false, w) :: wrap_decisions (S j) ws (spaceLeft - wordWidthWithSpace)
  end.

(** The spaceLeft the loop ends with. *)
Fixpoint wrap_space_left (j : nat) (words : list jstr) (spaceLeft : Q) : Q :=
  match words with
  | [] => spaceLeft
  | w :: ws =>
      let wordWidth := measureText w in
      let wordWidthWithSpace := wordWidth + measureText [space] in
      if Num.Qgtb wordWidthWithSpace spaceLeft
      then wrap_space_left (S j) ws (wordWrapWidth - wordWidth)
      else wrap_space_left (S j) ws (spaceLeft - wordWidthWithSpace)
  end.

(** What the loop over [words] appends for one line of the input. *)
Definition line_out (l : jstr) : jstr :=
  flat_map piece (wrap_decisions 0 (split space l) wordWrapWidth).

End WrapVocabulary.

(** The lines a sequence of decisions lays out, [cur] being the line in
    progress. *)
Fixpoint lines_of (ds : list (bool * jstr)) (cur : jstr) : list jstr :=
  match ds with
  | [] => [cur]
  | d :: ds' =>
      if fst d then cur :: lines_of ds' (snd d ++ [space])
      else lines_of ds' (cur ++ snd d ++ [space])
  end.

(** A text without its line breaks. *)
Definition strip_breaks (s : jstr) : jstr :=
  filter (fun c => negb (N.eqb c newline)) s.

(** The words of a text: the non-empty runs of characters between
    spaces and line breaks. *)
Definition is_sep (c : N) : bool := N.eqb c space || N.eqb c newline.

Fixpoint split_by (p : N -> bool) (s : jstr) : list jstr :=
  match s with
  | [] => [[]]
  | x :: s' =>
      if p x then [] :: split_by p s'
      else match split_by p s' with
           | w :: ws => (x :: w) :: ws
           | [] => [[x]]
           end
  end.

Definition nonempty_word (w : jstr) : bool :=
  match w with
  | [] => false
  | _ :: _ => true
  end.

Definition tokens (s : jstr) : list jstr := filter nonempty_word (split_by is_sep s).

(** The words of one separator-free string: itself, unless it is empty. *)
Definition word_of (w : jstr) : list jstr :=
  match w with
  | [] => []
  | _ :: _ => [w]
  end.

(** C2, as the claim states it: every line emitted is at most the budget
    wide, unless it is one word wider than the budget, and the words of
    the output are the words of the input. *)
Definition line_fits (measureText : jstr -> Q) (budget : Q) (l : jstr) : Prop :=
  measureText l <= budget \/
  exists w, tokens l = [w] /\ budget < measureText w.

Definition wraps_within (measureText : jstr -> Q) (budget : Q) (text : jstr) : Prop :=
  (forall l, In l (split newline (WordWrap.runWordWrap measureText budget text)) ->
             line_fits measureText budget l) /\
  tokens (WordWrap.runWordWrap measureText budget text) = tokens text.

(** The line an emitted line is without the space that ends it. *)
Definition body_fits (measureText : jstr -> Q) (budget : Q) (l : jstr) : Prop :=
  exists body, l = body ++ [space] /\
    (measureText body <= budget \/
     (~ In space body /\ budget < measureText body)).

(** C6, as the claim states it: no two spaces in a row in the output. *)
Definition collapses_spaces (measureText : jstr -> Q) (budget : Q) (text : jstr) : Prop :=
  forall a b, WordWrap.runWordWrap measureText budget text <> a ++ space :: space :: b.


(** The state of the loop over [words] before word [j] of an input
    line: nothing laid out yet, or a line in progress that ends in a
    space and whose width, without it, is within what the budget and
    [spaceLeft] allow. *)
Definition line_in_progress (measureText : jstr -> Q) (budget : Q)
           (j : nat) (cur : jstr) (spaceLeft : Q) : Prop :=
  match j with
  | O => cur = [] /\ spaceLeft <= budget
  | S _ =>
      exists body, cur = body ++ [space] /\
        measureText body + spaceLeft <= budget /\
        (0 <= spaceLeft \/ (~ In space body /\ budget < measureText body))
  end.


(** ** Font strings *)

(** Two parse results denote the same font: the same style, variant,
    weight, size and family. *)
Definition same_font (c1 c2 : Font.components) : Prop :=
  Font.fontStyle c1 = Font.fontStyle c2 /\
  Font.fontVariant c1 = Font.fontVariant c2 /\
  Font.fontWeight c1 = Font.fontWeight c2 /\
  Font.fontSize c1 = Font.fontSize c2 /\
  Font.fontFamily c1 = Font.fontFamily c2.

(** The pattern of [fontToComponents] accepts the string. *)
Definition accepted (s : jstr) : Prop := Regex.exec Font.font_re s <> None.

(** C1, as the claim states it, for one font string. *)
Definition round_trips (s : jstr) : Prop :=
  accepted s ->
  same_font (Font.fontToComponents (Font.componentsToFont (Font.fontToComponents s)))
            (Font.fontToComponents s).

(** [x] is one of the words [l]. *)
Definition one_of (l : list string) (x : jstr) : bool :=
  existsb (fun k => Js.eqb x (lit k)) l.

Local Open Scope string_scope.

Definition styles : list string := ["normal"; "italic"; "oblique"; "inherit"].
Definition variants : list string := ["normal"; "small-caps"].
Definition weights : list string :=
  ["normal"; "bold"; "bolder"; "lighter"; "100"; "200"; "300"; "400"; "500";
   "600"; "700"; "800"; "900"].

Definition size_words : list string :=
  ["xx-small"; "x-small"; "small"; "large"; "x-large"; "xx-large"; "larger";
   "smaller"].

Local Close Scope string_scope.

(** The longest prefix of characters in a class, and what follows it. *)
Fixpoint span (p : N -> bool) (s : jstr) : jstr * jstr :=
  match s with
  | [] => ([], [])
  | x :: s' => if p x then (x :: fst (span p s'), snd (span p s')) else ([], s)
  end.

(** A size written as a whole number and a unit of two to five
    lower-case letters, such as 20pt or 32px. *)
Definition number_with_unit (x : jstr) : bool :=
  let ds := fst (span Regex.is_digit x) in
  let u := snd (span Regex.is_digit x) in
  negb (Nat.eqb (List.length ds) 0) &&
  (2 <=? List.length u)%nat && (List.length u <=? 5)%nat &&
  forallb Regex.is_lower u.

(** A family on one line that does not begin with white space. *)
Definition plain_family (x : jstr) : bool :=
  forallb Regex.is_dot x &&
  match x with
  | [] => true
  | a :: _ => negb (Regex.is_space a)
  end.

(** A parse result whose variant and weight are not [inherit], whose
    size is a keyword other than [medium] or a number with a unit, and
    whose family is plain. *)
Definition explicit (c : Font.components) : bool :=
  match Font.fontStyle c, Font.fontVariant c, Font.fontWeight c,
        Font.fontSize c, Font.fontFamily c with
  | Some st, Some va, Some we, Some sz, Some fam =>
      one_of styles st && one_of variants va && one_of weights we &&
      (number_with_unit sz || one_of size_words sz) && plain_family fam
  | _, _, _, _, _ => false
  end.

(** The first way a pattern matches: what it consumed, where it ended. *)
Definition first_match (r : Regex.regex) (st : Regex.mstate)
  : option (jstr * Regex.mstate) :=
  hd_error (Regex.ms r st).

(** A field of the shorthand as [componentsToFont] writes it in front of
    what follows: nothing for the neutral value, else the value and a
    space. *)
Definition written (x rest : jstr) : jstr :=
  if Js.eqb x Font.normal then rest else x ++ space :: rest.

(** The capture a written field leaves when it is read back. *)
Definition captured (i : nat) (x : jstr) (caps : list (nat * jstr)) : list (nat * jstr) :=
  if Js.eqb x Font.normal then caps else (i, x) :: caps.

(** The character before the position once a written field and the
    space after it have been read. *)
Definition after_field (x : jstr) (pv : option N) : option N :=
  if Js.eqb x Font.normal then pv else Some space.

(** The family as it is written after the size. *)
Definition written_family (fam : jstr) : jstr :=
  match fam with
  | [] => []
  | _ :: _ => space :: fam
  end.

(** The characters a later field of a written font can begin with. *)
Definition starts_weight_or_size (r : jstr) : bool :=
  match r with
  | a :: _ => Regex.is_digit a || N.eqb a 98 || N.eqb a 108
  | [] => false
  end.

Definition starts_later (r : jstr) : bool :=
  match r with
  | a :: _ =>
      Regex.is_digit a || N.eqb a 98 || N.eqb a 108 || N.eqb a 115 || N.eqb a 120
  | [] => false
  end.

(** What a size followed by [tail] must allow for the fields before it
    to be read back: the variant and the weight field skip it, and the
    size field takes exactly the size. *)
Definition at_start (pv : option N) : Prop := pv = None \/ pv = Some space.

Definition variant_skips (r : jstr) : Prop :=
  forall pv cs, at_start pv ->
    first_match (Font.field 2 Font.variant_re) (Regex.MState pv r cs) =
    Some ([], Regex.MState pv r cs).

Definition weight_skips (r : jstr) : Prop :=
  forall pv cs, at_start pv ->
    first_match (Font.field 3 Font.weight_re) (Regex.MState pv r cs) =
    Some ([], Regex.MState pv r cs).

Definition size_reads (sz tail : jstr) : Prop :=
  forall pv cs, at_start pv ->
    exists pv',
      first_match (Font.field 4 Font.size_re) (Regex.MState pv (sz ++ tail) cs) =
      Some (sz, Regex.MState pv' tail ((4%nat, sz) :: cs)).

Definition readable_size (sz tail : jstr) : Prop :=
  sz <> [] /\ Js.eqb sz Font.medium = false /\
  starts_later (sz ++ tail) = true /\
  variant_skips (sz ++ tail) /\ weight_skips (sz ++ tail) /\ size_reads sz tail.

(** A literal alternative that cannot end at a word boundary inside or
    at the front of a number with a unit: digits only, or not starting
    with a digit. *)
Definition misses_number (w : jstr) : bool :=
  match w with
  | [] => false
  | k :: _ => forallb Regex.is_digit w || negb (Regex.is_digit k)
  end.

(** ** What a parse can report *)

Local Open Scope string_scope.

(** The alternatives of the variant and of the weight field of the
    pattern of [fontToComponents]. *)
Definition variant_keywords : list string := ["normal"; "small-caps"; "inherit"].
Definition weight_keywords : list string :=
  ["normal"; "bold"; "bolder"; "lighter"; "100"; "200"; "300"; "400"; "500";
   "600"; "700"; "800"; "900"; "inherit"].

Local Close Scope string_scope.

(** What group [i] of the pattern can hold. *)
Definition cap_ok (i : nat) (c : jstr) : Prop :=
  match i with
  | 1%nat => one_of styles c = true
  | 2%nat => one_of variant_keywords c = true
  | 3%nat => one_of weight_keywords c = true
  | 5%nat => forallb Regex.is_dot c = true
  | _ => True
  end.

(** Every group inside [r] captures only what [P] allows. *)
Fixpoint groups_ok (P : nat -> jstr -> Prop) (r : Regex.regex) : Prop :=
  match r with
  | Regex.Grp i r' =>
      (forall st x, In x (Regex.ms r' st) -> P i (fst x)) /\ groups_ok P r'
  | Regex.Seq a b => groups_ok P a /\ groups_ok P b
  | Regex.Alt a b => groups_ok P a /\ groups_ok P b
  | Regex.Opt a => groups_ok P a
  | _ => True
  end.

(** A field of a parse result, when present, satisfies [P]. *)
Definition field_is (P : jstr -> Prop) (v : option jstr) : Prop :=
  match v with
  | Some x => P x
  | None => True
  end.

(** The components are those of a font the pattern did not match. *)
Definition only_font (c : Font.components) : Prop :=
  Font.fontStyle c = None /\ Font.fontVariant c = None /\
  Font.fontWeight c = None /\ Font.fontSize c = None /\ Font.fontFamily c = None.

(** ** Positions and sizes *)

(** The sum of the first [k] entries of an array of tab sizes. *)
Definition stops_sum (stops : list Q) (k : nat) : Q :=
  fold_left Qplus (firstn k stops) 0.

(** A number that is a whole multiple of [g]. *)
Definition multiple_of (g q : Q) : Prop := exists z : Z, q == g * inject_Z z.

(** ** The states of a Text object *)

Section States.
Variable measureText : jstr -> jstr -> Q.
Variable determineFontProperties : jstr -> Text.font_properties.
Variable number_toString : Num.num -> jstr.
Variable object_toString : nat -> jstr.

(** The states a program brings a Text object to: it constructs the
    object and calls operations on it. *)
Inductive reachable : Text.text_obj -> Prop :=
| reach_new (res : Q) (cw ch : Num.num) (text : Text.value)
            (a : option Text.style_arg) (o : Text.text_obj) :
    Text.construct measureText determineFontProperties number_toString object_toString
      res cw ch text a = Text.Ok o ->
    reachable o
| reach_step (p : op) (o o' : Text.text_obj) :
    reachable o ->
    step measureText determineFontProperties number_toString object_toString p o
    = Text.Ok o' ->
    reachable o'.

(** The size a layout pass would give the canvas now. *)
Definition layout_size (o : Text.text_obj) : Num.num * Num.num :=
  (Text.canvas_width (Text.updateText measureText determineFontProperties o),
   Text.canvas_height (Text.updateText measureText determineFontProperties o)).

(** The canvas has the size a layout pass would give it, and the
    texture the resolution of the object. *)
Definition laid_out (o : Text.text_obj) : Prop :=
  (Text.canvas_width o, Text.canvas_height o) = layout_size o /\
  Text.texture_resolution o = Text._res o.

(** A clean object is laid out. *)
Definition up_to_date (o : Text.text_obj) : Prop :=
  Text.dirty o = false -> laid_out o.

End States.

(** [style.font] is the string [componentsToFont] writes for the
    components the object holds. *)
Definition canonical_font (o : Text.text_obj) : Prop :=
  Text.style_font (Text.style o) = Font.componentsToFont (Text._fontComponents o).

(** The texture and the cached size of the object are those of the canvas. *)
Definition in_sync (o : Text.text_obj) : Prop :=
  Text.texture_width o = Text.canvas_width o /\
  Text.texture_height o = Text.canvas_height o /\
  Text._width o = Text.canvas_width o /\
  Text._height o = Text.canvas_height o.

(** The anchor of the canvas inside the bounds along one axis: the
    origin of the bounds, their far edge less the extent of the canvas,
    or their centre less half that extent. *)
Definition anchor (align far middle : jstr) (origin size : Q) (extent : Num.num)
  : Num.num :=
  if Js.eqb align far then Num.sub (Num.Num (origin + size)) extent
  else if Js.eqb align middle
       then Num.sub (Num.Num (origin + size / 2)) (Num.half extent)
       else Num.Num origin.

(** The pivot is the negated anchor of the canvas in the text bounds,
    if there are any. *)
Definition pivot_in_line (o : Text.text_obj) : Prop :=
  match Text.textBounds o with
  | Some b =>
      Num.same (Text.pivot_x o)
        (Num.neg (anchor (Text.boundsAlignH (Text.style o)) (lit "right") (lit "center")
                         (Text.rect_x b) (Text.rect_width b) (Text.canvas_width o))) /\
      Num.same (Text.pivot_y o)
        (Num.neg (anchor (Text.boundsAlignV (Text.style o)) (lit "bottom") (lit "middle")
                         (Text.rect_y b) (Text.rect_height b) (Text.canvas_height o)))
  | None => True
  end.

(** What a layout pass reads of the object. *)
Definition layout_inputs (o : Text.text_obj)
  : jstr * Text.style_t * Q * Q * Q * Q :=
  (Text._text o, Text.style o, Text.padding_x o, Text.padding_y o,
   Text._res o, Text._lineSpacing o).

(** A table of cells as [parseList] takes it, and a cell that holds no
    tab and no line break. *)
Definition table (rows : list (list jstr)) : Text.list_arg :=
  Text.Array (List.map (fun r => Text.Row (List.map Text.VString r)) rows).

Definition plain_cell (c : jstr) : Prop :=
  ~ In tabchar c /\ ~ In newline c /\ ~ In 13%N c.

(** ** The family the [font] setter stores *)

(** The value the setter of [font] puts into the components. *)
Definition stored_family (value : option jstr) : jstr :=
  let value := Text.or_str value (lit "Arial") in
  let value := Text.trim value in
  if negb (Text.matches Text.generic_family_re value) &&
     negb (Text.matches (Regex.Cls Text.quote_or_comma) value)
  then [39%N] ++ value ++ [39%N]
  else value.

(** A string that neither begins nor ends with white space. *)
Definition trimmed (s : jstr) : Prop := Text.trim s = s.

(** ** The calls of a layout pass *)

(** The calls of [fillText] ([fill] true) or of [strokeText] among some calls. *)
Definition of_kind (fill : bool) (c : Canvas.call) : bool :=
  Bool.eqb (Layout.draw_fill (Canvas.call_draw c)) fill.

Definition calls_of (fill : bool) (cs : list Canvas.call) : list Canvas.call :=
  filter (of_kind fill) cs.

(** For the two kinds of call: the colour the context holds for it, the
    array of colour runs, the colour of the style, whether the style
    has the kind drawn at all, and whether it is to cast a shadow. *)
Definition ink (fill : bool) (c : Canvas.context) : jstr :=
  if fill then Canvas.fillStyle c else Canvas.strokeStyle c.

Definition runs_of (fill : bool) (o : Text.text_obj) : list (option jstr) :=
  if fill then Text.colors o else Text.strokeColors o.

Definition base_ink (fill : bool) (st : Text.style_t) : jstr :=
  if fill then Text.fill st else Text.stroke st.

Definition enabled (fill : bool) (st : Text.style_t) : bool :=
  if fill then Canvas.fills st else Canvas.strokes st.

Definition shadow_flag (fill : bool) (st : Text.style_t) : option bool :=
  if fill then Text.shadowFill st else Text.shadowStroke st.

(** The shadow [updateShadow] assigns for a flag. *)
Definition shadow_for (st : Text.style_t) (flag : option bool) : Canvas.shadow :=
  if Text.or_false flag
  then Canvas.Shadow (Text.shadowOffsetX st) (Text.shadowOffsetY st)
         (Canvas.ShadowColor (Text.shadowColor st)) (Text.shadowBlur st)
  else Canvas.Shadow 0 0 Canvas.ShadowZero 0.

(** The colour in effect at character [k]: the last one set at an index
    up to [k], or [d] when there is none. *)
Fixpoint in_effect (runs : list (option jstr)) (k : nat) (d : jstr) : jstr :=
  match k with
  | O => match Canvas.run_at runs 0 with Some v => v | None => d end
  | S k' =>
      match Canvas.run_at runs (S k') with
      | Some v => v
      | None => in_effect runs k' d
      end
  end.

(** The colour in effect before character [n]. *)
Definition in_effect_before (runs : list (option jstr)) (n : nat) (d : jstr) : jstr :=
  match n with
  | O => d
  | S m => in_effect runs m d
  end.

(** Characters with their indexes, counted from [n]. *)
Definition numbered (chars : jstr) (n : nat) : list (N * nat) :=
  combine chars (seq n (List.length chars)).

(** What a call draws and in which colour. *)
Definition painted (fill : bool) (c : Canvas.call) : jstr * jstr :=
  (Layout.draw_text (Canvas.call_draw c), ink fill (Canvas.call_ctx c)).

(** The widths of the characters of a string, one by one, added up. *)
Fixpoint advance (measure : jstr -> Q) (l : jstr) : Q :=
  match l with
  | [] => 0
  | ch :: l' => measure [ch] + advance measure l'
  end.


(** The texts a whole-line pass draws for a line: the line, or its
    tab-separated segments when tabs are in use. *)
Definition drawn_texts (t : Layout.tabs_t) (lines : list jstr) : list jstr :=
  if Layout.tabs_is_zero t then lines else flat_map (split tabchar) lines.

(** A context read as it is assigned, and objects to draw: [hello]
    with a colour from its third character on, and with a shadow for
    the fill only. *)
Definition demo_read (font : jstr) : jstr := font.

Definition coloured_hello : Text.text_obj :=
  Text.addColor (lit "#ffff00") 2 clean_hello.

Definition shadowed_hello : Text.text_obj :=
  Text.setShadow (Some 3) (Some 3) None None (Some false) (Some true) clean_hello.

Definition first_call (cs : list Canvas.call) : Canvas.call :=
  hd (Canvas.Call (Layout.Draw true [] Num.NaN 0) (Canvas.Context [] [] [] None)) cs.

(** ** The picture of the probe text *)

(** Row [r] of a picture [width] pixels wide has a pixel whose first
    byte is not 255. *)
Definition inked (imagedata : list N) (width : Z) (r : Z) : bool :=
  FontProbe.row_stops imagedata (r * (width * 4)) (Z.to_nat width) 0.

(** A picture two pixels wide and four rows high, all red but for one
    pixel of the second row and one of the third. *)
Definition probe_picture : list N :=
  [255; 0; 0; 255;  255; 0; 0; 255;
   255; 0; 0; 255;  0; 0; 0; 255;
   0; 0; 0; 255;    255; 0; 0; 255;
   255; 0; 0; 255;  255; 0; 0; 255]%N.

(** ** Whole numbers in decimal *)

(** The decimal digits of a number that is not negative, most
    significant first, in front of [acc]. *)
Fixpoint digits_of (fuel : nat) (n : Z) (acc : jstr) : jstr :=
  match fuel with
  | O => acc
  | S fuel' =>
      let acc := (48 + Z.to_N (n mod 10))%N :: acc in
      if (n <? 10)%Z then acc else digits_of fuel' (n / 10) acc
  end.

Definition decimal (n : Z) : jstr := digits_of (S (Z.to_nat n)) n [].

(** A host that prints whole numbers in decimal. *)
Definition decimal_number (n : Num.num) : jstr :=
  match n with
  | Num.Num q => decimal (Qfloor q)
  | Num.NaN => lit "NaN"
  end.

(** The string ends in px. *)
Definition ends_in_px (s : jstr) : Prop := exists a, s = a ++ lit "px".

(** After its leading white space the string is at its end or at a
    character that is not a word character: a quote, a percent sign, a
    dot and the like. *)
Fixpoint starts_without_word (s : jstr) : bool :=
  match s with
  | [] => true
  | c :: s' =>
      negb (Regex.is_word c) && (if Regex.is_space c then starts_without_word s' else true)
  end.

(* ================================================================== *)
(** * Part III. Properties *)
(* ================================================================== *)

(** ** Comparisons of exact numbers *)
Section NumFacts.
Import Num.


Lemma Qltb_false (a b : Q) : Qltb a b = false <-> b <= a.
Proof.
  unfold Qltb. rewrite negb_false_iff. apply Qle_bool_iff.
Qed.


Lemma Qgtb_false (a b : Q) : Qgtb a b = false <-> a <= b.
Proof. apply (Qltb_false b a). Qed.

Lemma Qeq_bool_false (a b : Q) : Qeq_bool a b = false -> ~ a == b.
Proof.
  intros H E. apply Qeq_bool_iff in E. congruence.
Qed.

End NumFacts.

(** ** Line spacing (C7) *)
Section Spacing.
Import Num Layout.





End Spacing.

(** ** The numbers the canvas holds *)
Section CanvasSize.
Import Num.



(** A whole number in the range of the canvas is held as it is. *)
Lemma canvas_size_whole (d z : Z) :
  (0 <= z <= 2147483647)%Z -> Text.canvas_size d (Num (inject_Z z)) = Num (inject_Z z).
Proof.
  intro R. unfold Text.canvas_size, Text.to_unsigned_long, Text.integer_part.
  assert (P : Qle_bool 0 (inject_Z z) = true).
  { apply Qle_bool_iff. change 0 with (inject_Z 0). rewrite <- Zle_Qle. lia. }
  rewrite P, Qfloor_Z. rewrite Z.mod_small by lia.
  destruct (Z.leb_spec z 2147483647); [reflexivity|lia].
Qed.



End CanvasSize.



(** ** Splitting on one character *)
Section SplitFacts.
Import Js.

Lemma split_nonempty (c : N) (s : jstr) : split c s <> [].
Proof.
  destruct s as [|x s]; cbn; [discriminate|].
  destruct (N.eqb x c); [discriminate|].
  destruct (split c s); discriminate.
Qed.

Lemma split_free (c : N) (s : jstr) :
  ~ In c s -> split c s = [s].
Proof.
  induction s as [|x s IH]; intro H; cbn; [reflexivity|].
  destruct (N.eqb_spec x c) as [E|E].
  - exfalso. apply H. left. exact E.
  - rewrite IH; [reflexivity|]. intro I. apply H. right. exact I.
Qed.

Lemma split_app_sep (c : N) (a b : jstr) :
  ~ In c a -> split c (a ++ c :: b) = a :: split c b.
Proof.
  induction a as [|x a IH]; intro H; cbn.
  - rewrite N.eqb_refl. reflexivity.
  - destruct (N.eqb_spec x c) as [E|E].
    + exfalso. apply H. left. exact E.
    + rewrite IH; [reflexivity|]. intro I. apply H. right. exact I.
Qed.

Lemma split_parts_free (c : N) (s : jstr) :
  forall w, In w (split c s) -> ~ In c w.
Proof.
  induction s as [|x s IH]; cbn; intros w Hw.
  - destruct Hw as [<-|[]]. intros [].
  - destruct (N.eqb_spec x c) as [E|E].
    + destruct Hw as [<-|Hw]; [intros []|]. apply IH. exact Hw.
    + destruct (split c s) as [|w0 ws] eqn:S.
      * destruct Hw as [<-|[]]. intros [F|[]]. exact (E F).
      * destruct Hw as [<-|Hw].
        -- intros [F|F]; [exact (E F)|]. apply (IH w0); [left; reflexivity|exact F].
        -- apply IH. right. exact Hw.
Qed.

Lemma join_split (c : N) (s : jstr) : join [c] (split c s) = s.
Proof.
  induction s as [|x s IH]; cbn; [reflexivity|].
  destruct (N.eqb_spec x c) as [E|E].
  - subst x. pose proof (split_nonempty c s) as NE.
    destruct (split c s) as [|w ws]; [congruence|].
    cbn [join app]. f_equal. exact IH.
  - destruct (split c s) as [|w ws] eqn:S.
    + exfalso. exact (split_nonempty c s S).
    + destruct ws as [|w' ws'].
      * cbn in *. congruence.
      * cbn [join] in *. cbn [app]. f_equal. exact IH.
Qed.

End SplitFacts.

(** ** Bounds alignment (C8) *)

(** C8. With text bounds (0, 0, 800, 600), [boundsAlignH] 'center' and
    [boundsAlignV] 'bottom', a canvas 100 wide and 40 high is placed at
    (350, 560): [updateTexture] leaves the pivot at (-350, -560). *)
Theorem C8_bounds_alignment (o : Text.text_obj) (b : Text.rectangle) :
  Text.textBounds o = Some b ->
  Text.rect_x b == 0 -> Text.rect_y b == 0 ->
  Text.rect_width b == 800 -> Text.rect_height b == 600 ->
  Text.boundsAlignH (Text.style o) = lit "center" ->
  Text.boundsAlignV (Text.style o) = lit "bottom" ->
  Num.eq (Text.canvas_width o) (Num.Num 100) ->
  Num.eq (Text.canvas_height o) (Num.Num 40) ->
  Num.eq (Text.pivot_x (Text.updateTexture o)) (Num.Num (-350)) /\
  Num.eq (Text.pivot_y (Text.updateTexture o)) (Num.Num (-560)) /\
  Num.eq (Num.neg (Text.pivot_x (Text.updateTexture o))) (Num.Num 350) /\
  Num.eq (Num.neg (Text.pivot_y (Text.updateTexture o))) (Num.Num 560).
Proof.
  intros HB Hx Hy Hw Hh HA HV HCW HCH.
  unfold Text.updateTexture. rewrite HB, HA, HV. cbn.
  destruct (Text.canvas_width o) as [cw|]; [|contradiction].
  destruct (Text.canvas_height o) as [ch|]; [|contradiction].
  cbn in *. unfold Text.halfWidth.
  rewrite Hx, Hy, Hw, Hh, HCW, HCH.
  repeat split; reflexivity.
Qed.

Lemma C8_bounds_alignment_witness :
  Num.eq (Text.pivot_x (Text.updateTexture bounded_object)) (Num.Num (-350)) /\
  Num.eq (Text.pivot_y (Text.updateTexture bounded_object)) (Num.Num (-560)) /\
  Num.eq (Num.neg (Text.pivot_x (Text.updateTexture bounded_object))) (Num.Num 350) /\
  Num.eq (Num.neg (Text.pivot_y (Text.updateTexture bounded_object))) (Num.Num 560).
Proof.
  apply (@C8_bounds_alignment bounded_object (Text.Rectangle 0 0 800 600));
    reflexivity.
Defined.

(** ** Tab stops given as an array (C4, C5) *)
Section TabStops.
Import Num Layout.

Variable measureText : jstr -> Q.

Lemma loop_tab_step (stops : list Q) (c : nat) :
  (if (0 <? c)%nat then add (tab_offset stops (c - 1)) (index stops (c - 1))
   else tab_offset stops (c - 1)) = tab_offset stops c.
Proof.
  destruct c as [|c]; cbn [Nat.ltb Nat.leb]; [reflexivity|].
  replace (S c - 1)%nat with c by lia. reflexivity.
Qed.

Lemma array_tab_loop_last (stops : list Q) (line : list jstr) :
  forall c lineWidth, line <> [] ->
    array_tab_loop measureText stops c line (tab_offset stops (c - 1)) lineWidth =
    add (tab_offset stops (c + List.length line - 1))
        (section_width measureText (last line [])).
Proof.
  induction line as [|seg line IH]; intros c lw NE; [congruence|].
  cbn [array_tab_loop]. rewrite loop_tab_step.
  destruct line as [|seg' line'].
  - cbn [array_tab_loop last List.length].
    replace (c + 1 - 1)%nat with c by lia. reflexivity.
  - replace (tab_offset stops c) with (tab_offset stops (S c - 1))
      by (f_equal; lia).
    rewrite IH by discriminate.
    replace (S c + List.length (seg' :: line') - 1)%nat
      with (c + List.length (seg :: seg' :: line') - 1)%nat by (cbn; lia).
    reflexivity.
Qed.

Lemma render_array_loop_three (stops : list Q) (s1 s2 s3 : jstr) (x y : Q) (fill : bool) :
  render_array_loop stops 0 [s1; s2; s3] x y fill (Num 0) =
  [Draw fill s1 (add (Num x) (tab_offset stops 0)) y;
   Draw fill s2 (add (Num x) (tab_offset stops 1)) y;
   Draw fill s3 (add (Num x) (tab_offset stops 2)) y].
Proof. reflexivity. Qed.

Lemma split_three (s1 s2 s3 : jstr) :
  ~ In tabchar s1 -> ~ In tabchar s2 -> ~ In tabchar s3 ->
  split tabchar (s1 ++ tabchar :: s2 ++ tabchar :: s3) = [s1; s2; s3].
Proof.
  intros H1 H2 H3.
  rewrite split_app_sep by assumption.
  rewrite split_app_sep by assumption.
  rewrite split_free by assumption. reflexivity.
Qed.

End TabStops.

(** With the stops [[30, 80]] and the segments a, b and c the third
    segment is not drawn at offset 80, where stops that are positions
    would put it. *)
Lemma tab_stops_are_not_positions :
  ~ tab_stops_absolute (fun _ => 0) (lit "a") (lit "b") (lit "c") 0 0 true.
Proof.
  intros (d1 & d2 & d3 & E & _ & H3).
  vm_compute in E. injection E as _ _ E3. subst d3.
  vm_compute in H3. discriminate.
Qed.

(** C4. The documentation of the [tabs] property says that the array
    [100, 200] sets the first tab at 100 pixels and the second at 200:
    the entries are positions.  [renderTabLine] adds each entry to the
    offset reached so far instead: with the tab stops [30, 80] and a
    line of three tab-separated segments it draws the first segment at
    the start of the line, the second 30 from it and the third 110 from
    it, not 80. *)
Theorem C4_tab_stops_accumulate (measureText : jstr -> Q) (s1 s2 s3 : jstr)
        (x y : Q) (fill : bool) :
  ~ In tabchar s1 -> ~ In tabchar s2 -> ~ In tabchar s3 ->
  exists d1 d2 d3,
    Layout.renderTabLine measureText (Layout.TabStops [30; 80])
      (s1 ++ tabchar :: s2 ++ tabchar :: s3) x y fill = [d1; d2; d3] /\
    Layout.draw_text d1 = s1 /\ Layout.draw_text d2 = s2 /\ Layout.draw_text d3 = s3 /\
    Num.eq (Layout.draw_x d1) (Num.Num x) /\
    Num.eq (Layout.draw_x d2) (Num.Num (x + 30)) /\
    Num.eq (Layout.draw_x d3) (Num.Num (x + 110)).
Proof.
  intros H1 H2 H3. unfold Layout.renderTabLine.
  rewrite split_three by assumption.
  rewrite render_array_loop_three.
  eexists _, _, _. split; [reflexivity|].
  cbn. repeat split; ring.
Qed.

Lemma C4_tab_stops_accumulate_witness :
  exists d1 d2 d3,
    Layout.renderTabLine (fun _ => 0) (Layout.TabStops [30; 80])
      (lit "a" ++ tabchar :: lit "bb" ++ tabchar :: lit "ccc") 5 20 true = [d1; d2; d3] /\
    Layout.draw_text d1 = lit "a" /\ Layout.draw_text d2 = lit "bb" /\
    Layout.draw_text d3 = lit "ccc" /\
    Num.eq (Layout.draw_x d1) (Num.Num 5) /\
    Num.eq (Layout.draw_x d2) (Num.Num (5 + 30)) /\
    Num.eq (Layout.draw_x d3) (Num.Num (5 + 110)).
Proof.
  apply (@C4_tab_stops_accumulate (fun _ => 0) (lit "a") (lit "bb") (lit "ccc") 5 20 true);
    cbn; intuition discriminate.
Defined.

(** C5. For a line laid out with array-valued tab stops, the width that
    [updateText] records is the ceiling of: the tab offset reached at the
    last segment plus the (rounded-up) measured width of that segment.
    The right-hand side mentions neither the padding and stroke
    thickness [lineWidth] started from nor any earlier segment's text:
    every iteration assigns [lineWidth] afresh, and another padding or
    stroke thickness gives the same width. *)
Theorem C5_array_tabs_width_is_last_segment
        (measureText : jstr -> Q) (stops : list Q)
        (strokeThickness paddingX : Q) (l : jstr) :
  let segments := split tabchar l in
  Layout.reported_width measureText (Layout.TabStops stops) strokeThickness paddingX l =
  Num.ceil (Num.add (tab_offset stops (List.length segments - 1))
                    (Layout.section_width measureText (last segments []))) /\
  forall strokeThickness' paddingX',
    Layout.reported_width measureText (Layout.TabStops stops) strokeThickness' paddingX' l =
    Layout.reported_width measureText (Layout.TabStops stops) strokeThickness paddingX l.
Proof.
  intro segments.
  assert (W : forall st px,
             Layout.reported_width measureText (Layout.TabStops stops) st px l =
             Num.ceil (Num.add (tab_offset stops (List.length segments - 1))
                               (Layout.section_width measureText (last segments [])))).
  { intros st px. unfold Layout.reported_width, Layout.line_width.
    cbn [Layout.tabs_is_zero]. f_equal.
    change (Num.Num 0) with (tab_offset stops (0 - 1)).
    rewrite array_tab_loop_last by apply split_nonempty.
    reflexivity. }
  split; [apply W|].
  intros st' px'. rewrite !W. reflexivity.
Qed.

(** ** The dirty flag and the setters (C3, C9, C10) *)
Section Discipline.
Variable measureText : jstr -> jstr -> Q.
Variable determineFontProperties : jstr -> Text.font_properties.
Variable number_toString : Num.num -> jstr.
Variable object_toString : nat -> jstr.

Let run := step measureText determineFontProperties number_toString object_toString.

Lemma Ok_inj (A : Type) (a b : A) : Text.Ok a = Text.Ok b -> a = b.
Proof. intro E. injection E as E. exact E. Qed.

Lemma dirty_set_dirty (b : bool) (o : Text.text_obj) :
  Text.dirty (Text.set_dirty b o) = b.
Proof. reflexivity. Qed.

Lemma updateTexture_keeps (o : Text.text_obj) :
  Text.dirty (Text.updateTexture o) = Text.dirty o /\
  Text._text (Text.updateTexture o) = Text._text o /\
  Text.style (Text.updateTexture o) = Text.style o /\
  Text.colors (Text.updateTexture o) = Text.colors o /\
  Text.strokeColors (Text.updateTexture o) = Text.strokeColors o /\
  Text.fontStyles (Text.updateTexture o) = Text.fontStyles o /\
  Text.fontWeights (Text.updateTexture o) = Text.fontWeights o /\
  Text._res (Text.updateTexture o) = Text._res o /\
  Text.layout_passes (Text.updateTexture o) = Text.layout_passes o.
Proof. repeat split; reflexivity. Qed.

Lemma updateText_keeps (o : Text.text_obj) :
  let o' := Text.updateText measureText determineFontProperties o in
  Text.dirty o' = Text.dirty o /\
  Text._text o' = Text._text o /\
  Text.style o' = Text.style o /\
  Text.colors o' = Text.colors o /\
  Text.strokeColors o' = Text.strokeColors o /\
  Text.fontStyles o' = Text.fontStyles o /\
  Text.fontWeights o' = Text.fontWeights o /\
  Text._res o' = Text._res o /\
  Text.layout_passes o' = S (Text.layout_passes o).
Proof. repeat split; reflexivity. Qed.

(** Every render trigger: a layout pass exactly when the object was
    dirty, and a clean object afterwards. *)
Lemma flush_spec (o : Text.text_obj) :
  let o' := Text.flush measureText determineFontProperties o in
  Text.dirty o' = false /\
  ~ descriptor_changed o o' /\
  Text.layout_passes o' =
  if Text.dirty o then S (Text.layout_passes o) else Text.layout_passes o.
Proof.
  unfold Text.flush. destruct (Text.dirty o) eqn:D; cbn.
  - split; [reflexivity|]. split; [|reflexivity].
    unfold descriptor_changed. cbn. tauto.
  - split; [exact D|]. split; [|reflexivity].
    unfold descriptor_changed. tauto.
Qed.

Lemma updateFont_spec (c : Font.components) (o : Text.text_obj) :
  Text.dirty (Text.updateFont c o) = true \/ Text.updateFont c o = o.
Proof.
  unfold Text.updateFont.
  destruct (negb _); [left|right; reflexivity].
  unfold Text.updateTransform_if_parent.
  destruct (Text.parent _); reflexivity.
Qed.

Lemma set_text_spec (v : Text.value) (o o' : Text.text_obj) :
  Text.set_text number_toString object_toString v o = Text.Ok o' ->
  Text.dirty o' = true \/ o' = o.
Proof.
  unfold Text.set_text. destruct (Text.text_differs v o).
  - destruct (Text.toString number_toString object_toString v) as [s|e]; cbn;
      [|discriminate].
    intro E. injection E as <-. left.
    unfold Text.updateTransform_if_parent. destruct (Text.parent _); reflexivity.
  - intro E. injection E as <-. right. reflexivity.
Qed.

(** A comparing setter either marks the object dirty or returns it as it was. *)
Lemma assign_spec (c : setter_call) (o o' : Text.text_obj) :
  assign number_toString object_toString c o = Text.Ok o' ->
  Text.dirty o' = true \/ o' = o.
Proof.
  destruct c; cbn [assign]; try apply set_text_spec;
    intro E; injection E as <-;
    match goal with
    | |- context [Text.set_lineSpacing] =>
        unfold Text.set_lineSpacing, Text.updateTransform_if_parent;
        destruct (negb _); [left; destruct (Text.parent _); reflexivity
                           |right; reflexivity]
    | |- _ =>
        unfold Text.set_fill, Text.set_align, Text.set_resolution, Text.set_tabs,
          Text.set_boundsAlignH, Text.set_boundsAlignV, Text.set_stroke,
          Text.set_strokeThickness, Text.set_wordWrap, Text.set_wordWrapWidth,
          Text.set_shadowOffsetX, Text.set_shadowOffsetY, Text.set_shadowColor,
          Text.set_shadowBlur, Text.set_shadowStroke, Text.set_shadowFill;
        match goal with
        | |- context [if ?b then _ else _] =>
            destruct b; [left; reflexivity|right; reflexivity]
        end
    end.
Qed.

Lemma unchanged_not_changed (o : Text.text_obj) : ~ descriptor_changed o o.
Proof. unfold descriptor_changed. tauto. Qed.

Lemma font_setter_not_changed (c : Font.components) (o : Text.text_obj) :
  ~ descriptor_changed o (Text.set__fontComponents c o).
Proof. unfold descriptor_changed. cbn. tauto. Qed.

Ltac font_setter_case :=
  match goal with
  | |- context [Text.updateFont ?c ?o0] =>
      destruct (updateFont_spec c o0) as [D|D];
      [left; exact D
      |right; rewrite D; split; [apply font_setter_not_changed|reflexivity]]
  end.

(** What one call does to the dirty flag. *)
Lemma step_dirty (p : op) (o o' : Text.text_obj) :
  run p o = Text.Ok o' ->
  (always_marks p = true /\ Text.dirty o' = true) \/
  (is_bounds p = true /\ Text.dirty o' = Text.dirty o) \/
  (is_render p = true /\ Text.dirty o' = false /\ ~ descriptor_changed o o' /\
   Text.layout_passes o' =
   if Text.dirty o then S (Text.layout_passes o) else Text.layout_passes o) \/
  (always_marks p = false /\ is_bounds p = false /\ is_render p = false /\
   (Text.dirty o' = true \/
    (~ descriptor_changed o o' /\ Text.dirty o' = Text.dirty o))).
Proof.
  unfold run. destruct p; cbn [step always_marks is_bounds is_render]; intro E.
  - apply Ok_inj in E; subst o'. left. split; [reflexivity|].
    unfold Text.setShadow. apply dirty_set_dirty.
  - apply Ok_inj in E; subst o'. left. split; [reflexivity|].
    unfold Text.setStyle. apply dirty_set_dirty.
  - apply Ok_inj in E; subst o'. left. split; [reflexivity|]. apply dirty_set_dirty.
  - apply Ok_inj in E; subst o'. left. split; [reflexivity|]. apply dirty_set_dirty.
  - apply Ok_inj in E; subst o'. left. split; [reflexivity|]. apply dirty_set_dirty.
  - apply Ok_inj in E; subst o'. left. split; [reflexivity|]. apply dirty_set_dirty.
  - apply Ok_inj in E; subst o'. left. split; [reflexivity|]. apply dirty_set_dirty.
  - apply Ok_inj in E; subst o'. left. split; [reflexivity|]. apply dirty_set_dirty.
  - (* setText *)
    left. split; [reflexivity|]. unfold Text.setText in E.
    destruct (Text.toString number_toString object_toString text) as [s|e];
      cbn in E; [|discriminate].
    destruct (Text.set_text number_toString object_toString (Text.VString s) o);
      cbn in E; [|discriminate].
    apply Ok_inj in E; subst o'. reflexivity.
  - (* parseList *)
    destruct l as [v|items]; cbn in E.
    + apply Ok_inj in E; subst o'. right. right. right.
      repeat split; try reflexivity. right.
      split; [apply unchanged_not_changed|reflexivity].
    + left. split; [reflexivity|].
      destruct (Text.set_text number_toString object_toString _ o);
        cbn in E; [|discriminate].
      apply Ok_inj in E; subst o'. reflexivity.
  - (* setTextBounds *)
    apply Ok_inj in E; subst o'. right. left. split; [reflexivity|].
    unfold Text.setTextBounds.
    destruct a as [[[[x y] w] h]|]; [|reflexivity].
    destruct (Num.Qgtb _ _); reflexivity.
  - (* the comparing setters *)
    right. right. right. repeat split; try reflexivity.
    destruct (assign_spec _ _ E) as [D| ->]; [left; exact D|right].
    split; [apply unchanged_not_changed|reflexivity].
  - (* cssFont *)
    apply Ok_inj in E; subst o'. right. right. right. repeat split; try reflexivity.
    unfold Text.set_cssFont. font_setter_case.
  - (* font *)
    apply Ok_inj in E; subst o'. right. right. right. repeat split; try reflexivity.
    unfold Text.set_font. font_setter_case.
  - (* fontSize *)
    apply Ok_inj in E; subst o'. right. right. right. repeat split; try reflexivity.
    unfold Text.set_fontSize. font_setter_case.
  - (* fontWeight *)
    apply Ok_inj in E; subst o'. right. right. right. repeat split; try reflexivity.
    unfold Text.set_fontWeight. font_setter_case.
  - (* fontStyle *)
    apply Ok_inj in E; subst o'. right. right. right. repeat split; try reflexivity.
    unfold Text.set_fontStyle. font_setter_case.
  - (* fontVariant *)
    apply Ok_inj in E; subst o'. right. right. right. repeat split; try reflexivity.
    unfold Text.set_fontVariant. font_setter_case.
  - apply Ok_inj in E; subst o'. right. right. left. split; [reflexivity|]. apply flush_spec.
  - apply Ok_inj in E; subst o'. right. right. left. split; [reflexivity|]. apply flush_spec.
  - apply Ok_inj in E; subst o'. right. right. left. split; [reflexivity|]. apply flush_spec.
  - apply Ok_inj in E; subst o'. right. right. left. split; [reflexivity|]. apply flush_spec.
  - apply Ok_inj in E; subst o'. right. right. left. split; [reflexivity|]. apply flush_spec.
Qed.

End Discipline.

Lemma clean_hello_is_rendered :
  rendered_hello = Text.Ok clean_hello /\
  Text.dirty clean_hello = false /\ Text.layout_passes clean_hello = 2%nat.
Proof. vm_compute. repeat split; reflexivity. Qed.

(** C3, as stated, fails: [setTextBounds] on an object that has just been
    rendered leaves [dirty] false. *)
Lemma C3_counterexample :
  ~ leaves_dirty demo_measure demo_metrics demo_number demo_object
      (OSetTextBounds (Some (0, 0, 800, 600))) clean_hello.
Proof.
  intro H. specialize (H _ eq_refl). vm_compute in H. discriminate.
Qed.

(** [updateTexture] brings the texture and the pivot in line with the
    canvas, and runs no layout pass. *)
Lemma updateTexture_in_line (o : Text.text_obj) :
  Text.layout_passes (Text.updateTexture o) = Text.layout_passes o /\
  Text.canvas_width (Text.updateTexture o) = Text.canvas_width o /\
  Text.canvas_height (Text.updateTexture o) = Text.canvas_height o /\
  in_sync (Text.updateTexture o) /\
  pivot_in_line (Text.updateTexture o).
Proof.
  split; [reflexivity|]. split; [reflexivity|]. split; [reflexivity|].
  split; [repeat split|].
  unfold pivot_in_line, Text.updateTexture, anchor.
  cbn [Text.textBounds Text.pivot_x Text.pivot_y Text.style Text.canvas_width
       Text.canvas_height].
  destruct (Text.textBounds o) as [b|]; [|exact I].
  cbn [fst snd]. unfold Text.halfWidth, Text.halfHeight. split.
  - destruct (Js.eqb (Text.boundsAlignH (Text.style o)) (lit "right"));
      [|destruct (Js.eqb (Text.boundsAlignH (Text.style o)) (lit "center"))];
      destruct (Text.canvas_width o); cbn; try exact I; ring.
  - destruct (Js.eqb (Text.boundsAlignV (Text.style o)) (lit "bottom"));
      [|destruct (Js.eqb (Text.boundsAlignV (Text.style o)) (lit "middle"))];
      destruct (Text.canvas_height o); cbn; try exact I; ring.
Qed.

(** [setTextBounds] ends in [updateTexture], and no layout pass. *)
Lemma setTextBounds_in_line (a : option (Q * Q * Q * Q)) (o : Text.text_obj) :
  Text.layout_passes (Text.setTextBounds a o) = Text.layout_passes o /\
  Text.canvas_width (Text.setTextBounds a o) = Text.canvas_width o /\
  Text.canvas_height (Text.setTextBounds a o) = Text.canvas_height o /\
  in_sync (Text.setTextBounds a o) /\
  pivot_in_line (Text.setTextBounds a o).
Proof.
  unfold Text.setTextBounds.
  destruct a as [[[[x y] w] h]|].
  - destruct (Num.Qgtb _ _);
      match goal with
      | |- context [Text.updateTexture ?t] =>
          destruct (updateTexture_in_line t) as (A & B & C & D & E)
      end;
      (split; [exact A|split; [exact B|split; [exact C|split; [exact D|exact E]]]]).
  - destruct (updateTexture_in_line (Text.set_textBounds None o)) as (A & B & C & D & E).
    split; [exact A|split; [exact B|split; [exact C|split; [exact D|exact E]]]].
Qed.

(** C3 (amended). For every call of a public operation that returns:
    [setShadow], [setStyle], [setText], [parseList] of a list, the four
    add-operations and the two clear-operations leave the object dirty;
    any operation other than [setTextBounds] that changed the text, the
    style descriptor, a style-run map or the resolution leaves it dirty;
    [setTextBounds], when it leaves the style as it is, leaves the flag
    as it was and, without a layout pass and with the canvas as it
    was, brings the texture and the cached size to the size of the
    canvas and the pivot to the negated anchor of the canvas in the
    bounds; and a call that takes the flag from true to false is a
    render trigger that ran exactly one layout pass. *)
Theorem C3_dirty_discipline
        (measureText : jstr -> jstr -> Q)
        (determineFontProperties : jstr -> Text.font_properties)
        (number_toString : Num.num -> jstr) (object_toString : nat -> jstr)
        (p : op) (o o' : Text.text_obj) :
  step measureText determineFontProperties number_toString object_toString p o
  = Text.Ok o' ->
  (always_marks p = true -> Text.dirty o' = true) /\
  (is_bounds p = false -> descriptor_changed o o' -> Text.dirty o' = true) /\
  (is_bounds p = true -> Text.style o' = Text.style o ->
   Text.dirty o' = Text.dirty o /\
   Text.layout_passes o' = Text.layout_passes o /\
   Text.canvas_width o' = Text.canvas_width o /\
   Text.canvas_height o' = Text.canvas_height o /\
   in_sync o' /\ pivot_in_line o') /\
  (Text.dirty o = true -> Text.dirty o' = false ->
   is_render p = true /\ Text.layout_passes o' = S (Text.layout_passes o)).
Proof.
  intro E.
  assert (T : is_bounds p = true ->
              Text.layout_passes o' = Text.layout_passes o /\
              Text.canvas_width o' = Text.canvas_width o /\
              Text.canvas_height o' = Text.canvas_height o /\
              in_sync o' /\ pivot_in_line o').
  { intro B. destruct p; try discriminate B. cbn [step] in E.
    injection E as <-. apply setTextBounds_in_line. }
  destruct (step_dirty _ _ _ _ _ _ E)
    as [[A D]|[[B D]|[[R [D [NC L]]]|[A [B [R D]]]]]];
    (split; [|split; [|split]]).
  - intros _. exact D.
  - intros _ _. exact D.
  - intros B _. destruct p; cbn in A, B; discriminate.
  - intros _ F. congruence.
  - intro A. destruct p; cbn in A, B; discriminate.
  - intro F. congruence.
  - intros _ _. split; [exact D|exact (T B)].
  - intros T1 F. congruence.
  - intro A. destruct p; cbn in A, R; discriminate.
  - intros _ C. contradiction.
  - intros B _. destruct p; cbn in B, R; discriminate.
  - intros T1 _. split; [exact R|]. rewrite T1 in L. exact L.
  - intro F. congruence.
  - intros _ C. destruct D as [D|[NC _]]; [exact D|contradiction].
  - intros F _. congruence.
  - intros T1 F. destruct D as [D|[_ D]]; congruence.
Qed.

Lemma C3_dirty_discipline_witness :
  let marked := Text.addColor (lit "#ffff00") 7 clean_hello in
  let resized := Text.set_resolution 2 clean_hello in
  let bounded := Text.setTextBounds (Some (0, 0, 800, 600)) clean_hello in
  let rendered := Text._renderCanvas demo_measure demo_metrics marked in
  Text.dirty marked = true /\
  Text.dirty resized = true /\
  (Text.dirty bounded = Text.dirty clean_hello /\
   Text.layout_passes bounded = Text.layout_passes clean_hello /\
   Text.canvas_width bounded = Text.canvas_width clean_hello /\
   Text.canvas_height bounded = Text.canvas_height clean_hello /\
   in_sync bounded /\ pivot_in_line bounded) /\
  (is_render ORenderCanvas = true /\
   Text.layout_passes rendered = S (Text.layout_passes marked)).
Proof.
  intros marked resized bounded rendered.
  pose (C3 := @C3_dirty_discipline demo_measure demo_metrics demo_number demo_object).
  split; [|split; [|split]].
  - destruct (C3 (OAddColor (lit "#ffff00") 7) clean_hello marked eq_refl) as (A & _).
    apply A. reflexivity.
  - destruct (C3 (OAssign (SetResolution 2)) clean_hello resized eq_refl) as (_ & B & _).
    apply B; [reflexivity|].
    unfold descriptor_changed. do 6 right. vm_compute. discriminate.
  - destruct (C3 (OSetTextBounds (Some (0, 0, 800, 600))) clean_hello bounded eq_refl)
      as (_ & _ & B & _).
    apply B; [reflexivity|]. vm_compute. reflexivity.
  - destruct (C3 ORenderCanvas marked rendered eq_refl) as (_ & _ & _ & R).
    apply R; vm_compute; reflexivity.
Defined.

(** C9. [setText] documents its argument as optional, and the
    constructor accepts a text that is [undefined] or [null]; yet
    [setText(undefined)] and [setText(null)] raise a TypeError, as does
    assigning either to the [text] property. *)
Theorem C9_setText_undefined_throws
        (measureText : jstr -> jstr -> Q)
        (determineFontProperties : jstr -> Text.font_properties)
        (number_toString : Num.num -> jstr) (object_toString : nat -> jstr)
        (o : Text.text_obj) :
  Text.setText number_toString object_toString Text.VUndefined o
  = Text.Throw Text.TypeError /\
  Text.setText number_toString object_toString Text.VNull o
  = Text.Throw Text.TypeError /\
  Text.set_text number_toString object_toString Text.VUndefined o
  = Text.Throw Text.TypeError /\
  ~ returns measureText determineFontProperties number_toString object_toString
      (OSetText Text.VUndefined) o /\
  (forall res cw ch a, exists o',
      Text.construct measureText determineFontProperties number_toString
        object_toString res cw ch Text.VUndefined a = Text.Ok o').
Proof.
  repeat split; try reflexivity.
  - intros [o' E]. cbn in E. discriminate.
  - intros res cw ch a. eexists. reflexivity.
Qed.

(** C10. Assigning to a property with a comparing setter a value equal
    to its current value changes nothing: the object returned is the
    object given, field for field. *)
Theorem C10_equal_assignment_changes_nothing
        (number_toString : Num.num -> jstr) (object_toString : nat -> jstr)
        (c : setter_call) (o : Text.text_obj) :
  equals_current c o = true ->
  assign number_toString object_toString c o = Text.Ok o.
Proof.
  destruct c; cbn [assign equals_current]; intro H.
  - (* text *)
    unfold Text.set_text, Text.text_differs.
    destruct v; try discriminate. rewrite H. reflexivity.
  - unfold Text.set_fill. rewrite H. reflexivity.
  - unfold Text.set_align. rewrite H. reflexivity.
  - unfold Text.set_resolution. rewrite H. reflexivity.
  - unfold Text.set_tabs, Text.tabs_differ.
    destruct v, (Text.tabs (Text.style o)); try discriminate;
      rewrite H; reflexivity.
  - unfold Text.set_boundsAlignH. rewrite H. reflexivity.
  - unfold Text.set_boundsAlignV. rewrite H. reflexivity.
  - unfold Text.set_stroke. rewrite H. reflexivity.
  - unfold Text.set_strokeThickness. rewrite H. reflexivity.
  - unfold Text.set_wordWrap. rewrite H. reflexivity.
  - unfold Text.set_wordWrapWidth. rewrite H. reflexivity.
  - unfold Text.set_lineSpacing. rewrite H. reflexivity.
  - unfold Text.set_shadowOffsetX. rewrite H. reflexivity.
  - unfold Text.set_shadowOffsetY. rewrite H. reflexivity.
  - unfold Text.set_shadowColor. rewrite H. reflexivity.
  - unfold Text.set_shadowBlur. rewrite H. reflexivity.
  - unfold Text.set_shadowStroke, Text.bool_differ.
    destruct (Text.shadowStroke (Text.style o)); try discriminate.
    rewrite H. reflexivity.
  - unfold Text.set_shadowFill, Text.bool_differ.
    destruct (Text.shadowFill (Text.style o)); try discriminate.
    rewrite H. reflexivity.
Qed.

Lemma C10_equal_assignment_changes_nothing_witness :
  assign demo_number demo_object (SetStrokeThickness 0) clean_hello
  = Text.Ok clean_hello.
Proof.
  apply (@C10_equal_assignment_changes_nothing demo_number demo_object
           (SetStrokeThickness 0) clean_hello).
  vm_compute. reflexivity.
Defined.

(** ** Word wrap (C2, C6) *)
Section SplitMore.

Lemma split_app (c : N) (a b : jstr) :
  split c (a ++ c :: b) = split c a ++ split c b.
Proof.
  induction a as [|x a IH]; cbn.
  - rewrite N.eqb_refl. reflexivity.
  - destruct (N.eqb x c); [rewrite IH; reflexivity|].
    rewrite IH. pose proof (split_nonempty c a) as NE.
    destruct (split c a); [congruence|reflexivity].
Qed.

Lemma split_by_nonempty (p : N -> bool) (s : jstr) : split_by p s <> [].
Proof.
  destruct s as [|x s]; cbn; [discriminate|].
  destruct (p x); [discriminate|].
  destruct (split_by p s); discriminate.
Qed.

Lemma split_by_app (p : N -> bool) (c : N) (a b : jstr) :
  p c = true -> split_by p (a ++ c :: b) = split_by p a ++ split_by p b.
Proof.
  intro Hc. induction a as [|x a IH]; cbn.
  - rewrite Hc. reflexivity.
  - destruct (p x); [rewrite IH; reflexivity|].
    rewrite IH. pose proof (split_by_nonempty p a) as NE.
    destruct (split_by p a); [congruence|reflexivity].
Qed.

Lemma split_by_free (p : N -> bool) (s : jstr) :
  forallb (fun x => negb (p x)) s = true -> split_by p s = [s].
Proof.
  induction s as [|x s IH]; cbn; [reflexivity|].
  intro H. apply andb_true_iff in H. destruct H as [Hx Hs].
  apply negb_true_iff in Hx. rewrite Hx, (IH Hs). reflexivity.
Qed.

Lemma tokens_app (c : N) (a b : jstr) :
  is_sep c = true -> tokens (a ++ c :: b) = tokens a ++ tokens b.
Proof.
  intro Hc. unfold tokens. rewrite split_by_app by exact Hc.
  apply filter_app.
Qed.

Lemma tokens_nil : tokens [] = [].
Proof. reflexivity. Qed.

Lemma tokens_sep_first (c : N) (b : jstr) :
  is_sep c = true -> tokens (c :: b) = tokens b.
Proof. intro Hc. change (c :: b) with ([] ++ c :: b). rewrite tokens_app by exact Hc. reflexivity. Qed.

Lemma tokens_word (w : jstr) :
  forallb (fun x => negb (is_sep x)) w = true -> tokens w = word_of w.
Proof.
  intro H. unfold tokens. rewrite split_by_free by exact H.
  destruct w; reflexivity.
Qed.

Lemma split_part_chars (c : N) (s : jstr) :
  forall w x, In w (split c s) -> In x w -> In x s.
Proof.
  induction s as [|y s IH]; cbn; intros w x Hw Hx.
  - destruct Hw as [<-|[]]. exact Hx.
  - destruct (N.eqb y c).
    + destruct Hw as [<-|Hw]; [destruct Hx|]. right. exact (IH _ _ Hw Hx).
    + destruct (split c s) as [|w0 ws] eqn:S.
      * destruct Hw as [<-|[]]. destruct Hx as [<-|[]]. left. reflexivity.
      * destruct Hw as [<-|Hw].
        -- destruct Hx as [<-|Hx]; [left; reflexivity|right].
           apply (IH w0); [left; reflexivity|exact Hx].
        -- right. apply (IH w); [right; exact Hw|exact Hx].
Qed.

Lemma not_in_forallb (c : N) (w : jstr) (p : N -> bool) :
  (forall x, p x = true -> In x w -> False) ->
  forallb (fun x => negb (p x)) w = true.
Proof.
  intro H. apply forallb_forall. intros x Hx.
  destruct (p x) eqn:E; [exfalso; exact (H x E Hx)|reflexivity].
Qed.

Lemma is_sep_cases (x : N) : is_sep x = true -> x = space \/ x = newline.
Proof.
  unfold is_sep. intro H. apply orb_true_iff in H.
  destruct H as [H|H]; apply N.eqb_eq in H; [left|right]; exact H.
Qed.

Lemma sep_free (w : jstr) :
  ~ In space w -> ~ In newline w -> forallb (fun x => negb (is_sep x)) w = true.
Proof.
  intros Hs Hn. apply (not_in_forallb space). intros x Hx Hi.
  destruct (is_sep_cases _ Hx) as [-> | ->]; [exact (Hs Hi)|exact (Hn Hi)].
Qed.

End SplitMore.

Lemma join_cons2 (sep a b : jstr) (l : list jstr) :
  join sep (a :: b :: l) = a ++ sep ++ join sep (b :: l).
Proof. reflexivity. Qed.

Lemma flat_map_cons1 (A B : Type) (f : A -> list B) (a : A) (l : list A) :
  flat_map f (a :: l) = f a ++ flat_map f l.
Proof. reflexivity. Qed.

Section WrapFacts.
Variable measureText : jstr -> Q.
Variable wordWrapWidth : Q.

Let decisions := wrap_decisions measureText wordWrapWidth.
Let out := line_out measureText wordWrapWidth.

(** The loop over [words] appends one piece per word. *)
Lemma wrap_words_eq (ws : list jstr) :
  forall j sl res,
    WordWrap.wrap_words measureText wordWrapWidth j ws sl res =
    (res ++ flat_map piece (decisions j ws sl),
     wrap_space_left measureText wordWrapWidth j ws sl).
Proof.
  unfold decisions.
  induction ws as [|w ws IH]; intros j sl res;
    cbn [WordWrap.wrap_words wrap_decisions wrap_space_left flat_map].
  - rewrite app_nil_r. reflexivity.
  - destruct (Num.Qgtb _ _); rewrite IH; cbn [flat_map]; f_equal.
    + unfold piece. cbn [fst snd]. destruct j; cbn [Nat.ltb Nat.leb app];
        repeat rewrite <- app_assoc; cbn [app]; reflexivity.
    + unfold piece. cbn [fst snd app]. repeat rewrite <- app_assoc.
      cbn [app]. reflexivity.
Qed.

Lemma decisions_words (ws : list jstr) :
  forall j sl, List.map snd (decisions j ws sl) = ws.
Proof.
  unfold decisions.
  induction ws as [|w ws IH]; intros j sl; cbn; [reflexivity|].
  destruct (Num.Qgtb _ _); cbn; rewrite IH; reflexivity.
Qed.

(** The loop over [lines] joins what each line yields with line breaks. *)
Lemma wrap_lines_eq (ls : list jstr) :
  forall i n res, n = (i + List.length ls)%nat ->
    WordWrap.wrap_lines measureText wordWrapWidth i n ls res =
    res ++ join [newline] (List.map out ls).
Proof.
  induction ls as [|l ls IH]; intros i n res Hn.
  - cbn. rewrite app_nil_r. reflexivity.
  - cbn [WordWrap.wrap_lines]. rewrite wrap_words_eq. cbn [fst].
    fold (out l).
    destruct ls as [|l' ls'].
    + cbn in Hn. assert (E : (i <? n - 1)%nat = false)
        by (apply Nat.ltb_ge; lia).
      rewrite E. cbn. reflexivity.
    + assert (E : (i <? n - 1)%nat = true)
        by (apply Nat.ltb_lt; cbn in Hn; lia).
      rewrite E. rewrite IH by (cbn in *; lia).
      cbn [List.map join]. repeat rewrite <- app_assoc. reflexivity.
Qed.

Lemma runWordWrap_eq (text : jstr) :
  WordWrap.runWordWrap measureText wordWrapWidth text =
  join [newline] (List.map out (split newline text)).
Proof.
  unfold WordWrap.runWordWrap. rewrite wrap_lines_eq by reflexivity.
  reflexivity.
Qed.

(** *** Spaces are kept *)

Lemma strip_free (w : jstr) : ~ In newline w -> strip_breaks w = w.
Proof.
  unfold strip_breaks.
  induction w as [|x w IH]; intro H; cbn [filter]; [reflexivity|].
  destruct (N.eqb_spec x newline) as [E|E].
  - exfalso. apply H. left. exact E.
  - cbn [negb]. rewrite IH; [reflexivity|]. intro I. apply H. right. exact I.
Qed.

Lemma strip_app (a b : jstr) : strip_breaks (a ++ b) = strip_breaks a ++ strip_breaks b.
Proof. apply filter_app. Qed.

Lemma strip_pieces (ds : list (bool * jstr)) :
  (forall d, In d ds -> ~ In newline (snd d)) ->
  strip_breaks (flat_map piece ds) = flat_map (fun w => w ++ [space]) (List.map snd ds).
Proof.
  induction ds as [|d ds IH]; intro H; cbn; [reflexivity|].
  rewrite strip_app, IH by (intros d' Hd'; apply H; right; exact Hd').
  f_equal. unfold piece. rewrite !strip_app.
  rewrite (@strip_free (snd d)) by (apply H; left; reflexivity).
  destruct (fst d); reflexivity.
Qed.

Lemma spaced_join (ws : list jstr) :
  ws <> [] -> flat_map (fun w => w ++ [space]) ws = join [space] ws ++ [space].
Proof.
  induction ws as [|w ws IH]; intro NE; [congruence|].
  destruct ws as [|w' ws'].
  - cbn. rewrite app_nil_r. reflexivity.
  - rewrite flat_map_cons1. rewrite IH by discriminate.
    rewrite join_cons2. repeat rewrite <- app_assoc. reflexivity.
Qed.

Lemma word_nl_free (l w : jstr) :
  ~ In newline l -> In w (split space l) -> ~ In newline w.
Proof.
  intros Hl Hw Hi. apply Hl. exact (split_part_chars _ _ _ _ Hw Hi).
Qed.

Lemma strip_out (l : jstr) :
  ~ In newline l -> strip_breaks (out l) = l ++ [space].
Proof.
  intro Hl. unfold out, line_out.
  rewrite strip_pieces.
  - fold decisions. rewrite decisions_words.
    rewrite spaced_join by apply split_nonempty.
    rewrite join_split. reflexivity.
  - intros d Hd. eapply word_nl_free; [exact Hl|].
    fold decisions in Hd.
    rewrite <- (decisions_words (split space l) 0 wordWrapWidth).
    apply in_map. exact Hd.
Qed.

Lemma strip_join (outs : list jstr) :
  strip_breaks (join [newline] outs) = flat_map strip_breaks outs.
Proof.
  induction outs as [|o outs IH]; [reflexivity|].
  destruct outs as [|o' outs'].
  - cbn. rewrite app_nil_r. reflexivity.
  - rewrite join_cons2, flat_map_cons1. rewrite !strip_app. rewrite IH. reflexivity.
Qed.

(** *** The words are kept *)

Lemma tokens_join_nl (ls : list jstr) :
  tokens (join [newline] ls) = flat_map tokens ls.
Proof.
  induction ls as [|l ls IH]; [reflexivity|].
  destruct ls as [|l' ls'].
  - cbn. rewrite app_nil_r. reflexivity.
  - rewrite join_cons2, flat_map_cons1. cbn [app].
    rewrite tokens_app by reflexivity. rewrite IH. reflexivity.
Qed.

Lemma tokens_join_space (ws : list jstr) :
  (forall w, In w ws -> ~ In space w /\ ~ In newline w) ->
  tokens (join [space] ws) = flat_map word_of ws.
Proof.
  induction ws as [|w ws IH]; intro H; [reflexivity|].
  destruct (H w (or_introl eq_refl)) as [Hs Hn].
  destruct ws as [|w' ws'].
  - cbn. rewrite app_nil_r. apply tokens_word. apply sep_free; assumption.
  - rewrite join_cons2, flat_map_cons1. cbn [app].
    rewrite tokens_app by reflexivity.
    rewrite IH by (intros x Hx; apply H; right; exact Hx).
    rewrite tokens_word by (apply sep_free; assumption). reflexivity.
Qed.

Lemma tokens_pieces (ds : list (bool * jstr)) :
  (forall d, In d ds -> ~ In space (snd d) /\ ~ In newline (snd d)) ->
  tokens (flat_map piece ds) = flat_map word_of (List.map snd ds).
Proof.
  induction ds as [|d ds IH]; intro H; [reflexivity|].
  destruct (H d (or_introl eq_refl)) as [Hs Hn].
  cbn [flat_map List.map]. unfold piece at 1.
  assert (E : tokens ((snd d ++ [space]) ++ flat_map piece ds) =
              word_of (snd d) ++ flat_map word_of (List.map snd ds)).
  { rewrite <- app_assoc. cbn [app]. rewrite tokens_app by reflexivity.
    rewrite IH by (intros x Hx; apply H; right; exact Hx).
    rewrite tokens_word by (apply sep_free; assumption). reflexivity. }
  destruct (fst d).
  - cbn [app]. rewrite tokens_sep_first by reflexivity. exact E.
  - cbn [app]. exact E.
Qed.

Lemma words_sep_free (l : jstr) :
  ~ In newline l ->
  forall w, In w (split space l) -> ~ In space w /\ ~ In newline w.
Proof.
  intros Hl w Hw. split.
  - exact (split_parts_free space l w Hw).
  - eapply word_nl_free; eassumption.
Qed.

Lemma tokens_line (l : jstr) :
  ~ In newline l -> tokens l = flat_map word_of (split space l).
Proof.
  intro Hl. rewrite <- (join_split space l) at 1.
  apply tokens_join_space. apply words_sep_free. exact Hl.
Qed.

Lemma tokens_out (l : jstr) :
  ~ In newline l -> tokens (out l) = flat_map word_of (split space l).
Proof.
  intro Hl. unfold out, line_out. fold decisions.
  rewrite tokens_pieces.
  - rewrite decisions_words. reflexivity.
  - intros d Hd. eapply words_sep_free; [exact Hl|].
    rewrite <- (decisions_words (split space l) 0 wordWrapWidth).
    apply in_map. exact Hd.
Qed.

Lemma runWordWrap_keeps_words (text : jstr) :
  tokens (WordWrap.runWordWrap measureText wordWrapWidth text) = tokens text.
Proof.
  rewrite runWordWrap_eq, tokens_join_nl.
  rewrite <- (join_split newline text) at 2. rewrite tokens_join_nl.
  pose proof (split_parts_free newline text) as F.
  induction (split newline text) as [|l ls IH]; [reflexivity|].
  cbn. rewrite tokens_out, tokens_line by (apply F; left; reflexivity).
  rewrite IH by (intros w Hw; apply F; right; exact Hw).
  reflexivity.
Qed.

End WrapFacts.

(** *** The lines of the output *)

Lemma lines_of_spec (ds : list (bool * jstr)) :
  forall cur, ~ In newline cur ->
    (forall d, In d ds -> ~ In newline (snd d)) ->
    split newline (cur ++ flat_map piece ds) = lines_of ds cur.
Proof.
  induction ds as [|d ds IH]; intros cur Hc Hd.
  - cbn. rewrite app_nil_r. apply split_free. exact Hc.
  - assert (Hw : ~ In newline (snd d)) by (apply Hd; left; reflexivity).
    assert (Hw' : ~ In newline (snd d ++ [space])).
    { intro I. apply in_app_or in I. destruct I as [I|[I|[]]];
        [exact (Hw I)|discriminate I]. }
    rewrite flat_map_cons1. cbn [lines_of]. unfold piece at 1.
    destruct (fst d).
    + cbn [app]. rewrite split_app_sep by exact Hc.
      f_equal. apply IH; [exact Hw'|].
      intros d' I. apply Hd. right. exact I.
    + cbn [app]. rewrite app_assoc.
      apply IH.
      * intro I. apply in_app_or in I. destruct I as [I|I];
          [exact (Hc I)|exact (Hw' I)].
      * intros d' I. apply Hd. right. exact I.
Qed.

Lemma split_join_nl (outs : list jstr) :
  outs <> [] -> split newline (join [newline] outs) = flat_map (split newline) outs.
Proof.
  induction outs as [|o outs IH]; intro NE; [congruence|].
  destruct outs as [|o' outs'].
  - cbn. rewrite app_nil_r. reflexivity.
  - rewrite join_cons2, flat_map_cons1. cbn [app].
    rewrite split_app. rewrite IH by discriminate. reflexivity.
Qed.

Section WrapBudget.
Variable measureText : jstr -> Q.
Variable wordWrapWidth : Q.
Hypothesis additive : forall a b, measureText (a ++ b) == measureText a + measureText b.
Hypothesis space_width : 0 <= measureText [space].

Lemma finished_line_fits (j : nat) (cur : jstr) (sl : Q) :
  line_in_progress measureText wordWrapWidth (S j) cur sl ->
  body_fits measureText wordWrapWidth cur.
Proof.
  intros (body & E & A & C). exists body. split; [exact E|].
  destruct C as [C|C]; [left; lra|right; exact C].
Qed.

Lemma first_word_in_progress (k : nat) (w : jstr) :
  ~ In space w ->
  line_in_progress measureText wordWrapWidth (S k) (w ++ [space])
    (wordWrapWidth - measureText w).
Proof.
  intro Hs. exists w. split; [reflexivity|]. split; [lra|].
  destruct (Qlt_le_dec wordWrapWidth (measureText w)) as [L|L].
  - right. split; assumption.
  - left. lra.
Qed.

(** Every line the decisions lay out fits, once the space that ends it
    is set aside. *)
Lemma lines_fit (ws : list jstr) :
  forall j sl cur,
    (forall w, In w ws -> ~ In space w) ->
    line_in_progress measureText wordWrapWidth j cur sl ->
    (j = O -> ws <> []) ->
    forall l, In l (lines_of (wrap_decisions measureText wordWrapWidth j ws sl) cur) ->
              body_fits measureText wordWrapWidth l.
Proof.
  induction ws as [|w ws IH]; intros j sl cur Hws Inv NE l Hl.
  - cbn in Hl. destruct Hl as [<-|[]].
    destruct j as [|j]; [exfalso; apply NE; reflexivity|].
    exact (finished_line_fits Inv).
  - assert (Hw : ~ In space w) by (apply Hws; left; reflexivity).
    assert (Hws' : forall x, In x ws -> ~ In space x)
      by (intros x Hx; apply Hws; right; exact Hx).
    cbn [wrap_decisions] in Hl.
    destruct (Num.Qgtb (measureText w + measureText [space]) sl) eqn:G.
    + (* the word does not fit in what is left *)
      destruct j as [|j]; cbn [Nat.ltb Nat.leb lines_of fst snd] in Hl.
      * destruct Inv as [-> _]. cbn [app] in Hl.
        apply (IH 1%nat _ _ Hws' (first_word_in_progress O w Hw)); [discriminate|exact Hl].
      * destruct Hl as [<-|Hl]; [exact (finished_line_fits Inv)|].
        apply (IH _ _ _ Hws' (first_word_in_progress (S j) w Hw)); [discriminate|exact Hl].
    + (* the word fits *)
      apply Qgtb_false in G. cbn [lines_of fst snd] in Hl.
      refine (IH (S j) _ _ Hws' _ _ l Hl); [|discriminate].
      destruct j as [|j].
      * destruct Inv as [-> Hsl]. exists w. split; [reflexivity|].
        split; [lra|left; lra].
      * destruct Inv as (body & -> & A & _).
        exists (body ++ [space] ++ w). split.
        { repeat rewrite <- app_assoc. reflexivity. }
        pose proof (additive body ([space] ++ w)) as E1.
        pose proof (additive [space] w) as E2.
        split; [lra|left; lra].
Qed.

End WrapBudget.

Lemma demo_measure_additive (a b : jstr) :
  demo_measure [] (a ++ b) == demo_measure [] a + demo_measure [] b.
Proof.
  unfold demo_measure. rewrite length_app, Nat2Z.inj_add, inject_Z_plus. ring.
Qed.

(** C2, as stated, fails: with ten pixels a character and a budget of 40
    the word aaaa, which fits, is emitted with a space after it, 50
    pixels wide. *)
Lemma C2_counterexample :
  ~ wraps_within (demo_measure []) 40 (lit "aaaa").
Proof.
  intros [H _]. specialize (H (lit "aaaa ")).
  destruct H as [H|(w & E & H)].
  - vm_compute. left. reflexivity.
  - revert H. apply Qlt_not_le. reflexivity.
  - vm_compute in E. injection E as <-. vm_compute in H. discriminate.
Qed.

(** C2 (amended). When widths add up over concatenation and a space is
    not negative in width, every line [runWordWrap] emits ends in a space
    and, without that space, is at most the budget wide or is a single
    word wider than the budget; and the words of the output are the
    words of the input, in order. *)
Theorem C2_wrapped_lines_fit (measureText : jstr -> Q) (budget : Q) (text : jstr) :
  (forall a b, measureText (a ++ b) == measureText a + measureText b) ->
  0 <= measureText [space] ->
  (forall l, In l (split newline (WordWrap.runWordWrap measureText budget text)) ->
             body_fits measureText budget l) /\
  tokens (WordWrap.runWordWrap measureText budget text) = tokens text.
Proof.
  intros additive space_width. split; [|apply runWordWrap_keeps_words].
  intros l Hl. rewrite runWordWrap_eq in Hl.
  rewrite split_join_nl in Hl.
  2:{ pose proof (split_nonempty newline text).
      destruct (split newline text); [congruence|discriminate]. }
  apply in_flat_map in Hl. destruct Hl as (o & Ho & Hl).
  apply in_map_iff in Ho. destruct Ho as (src & <- & Hsrc).
  pose proof (split_parts_free newline text src Hsrc) as Hnl.
  unfold line_out in Hl.
  change (flat_map piece ?ds) with ([] ++ flat_map piece ds) in Hl.
  rewrite lines_of_spec in Hl.
  - refine (@lines_fit measureText budget additive space_width
              (split space src) O budget [] _ _ _ l Hl).
    + intros w Hw. exact (split_parts_free space src w Hw).
    + split; [reflexivity|apply Qle_refl].
    + intros _. apply split_nonempty.
  - intros [].
  - intros d Hd. eapply word_nl_free; [exact Hnl|].
    rewrite <- (decisions_words measureText budget (split space src) 0 budget).
    apply in_map. exact Hd.
Qed.

Lemma C2_wrapped_lines_fit_witness :
  (forall l, In l (split newline
                     (WordWrap.runWordWrap (demo_measure []) 40 (lit "aaaa bb c"))) ->
             body_fits (demo_measure []) 40 l) /\
  tokens (WordWrap.runWordWrap (demo_measure []) 40 (lit "aaaa bb c"))
  = tokens (lit "aaaa bb c").
Proof.
  apply (@C2_wrapped_lines_fit (demo_measure []) 40 (lit "aaaa bb c")).
  - exact demo_measure_additive.
  - vm_compute. discriminate.
Defined.

(** C6, as stated, fails: the two spaces between a and b are both in the
    output. *)
Lemma C6_counterexample :
  ~ collapses_spaces (demo_measure []) 1000 (lit "a  b").
Proof.
  intro H. apply (H (lit "a") (lit "b ")). vm_compute. reflexivity.
Qed.

(** C6 (amended). [runWordWrap] keeps every space of the input: with the
    line breaks taken out, its output is the lines of the input, each
    followed by one more space.  A run of spaces comes out as long as it
    went in. *)
Theorem C6_spaces_are_kept (measureText : jstr -> Q) (budget : Q) (text : jstr) :
  strip_breaks (WordWrap.runWordWrap measureText budget text) =
  flat_map (fun l => l ++ [space]) (split newline text).
Proof.
  rewrite runWordWrap_eq, strip_join.
  pose proof (split_parts_free newline text) as F.
  induction (split newline text) as [|l ls IH]; [reflexivity|].
  cbn [List.map flat_map].
  rewrite strip_out by (apply F; left; reflexivity).
  rewrite IH by (intros w Hw; apply F; right; exact Hw).
  reflexivity.
Qed.

(** ** Font strings (C1) *)

(** C1. The comment above the pattern of [fontToComponents] gives the
    size of a font as a keyword or a number followed by a unit; the
    pattern, though, lets the number be empty and the unit be any two
    to five lower-case letters, so that it takes a bare word for a
    size.  The font medium serif is parsed into the size medium and the
    family serif and written as serif, the size medium being left out;
    and serif is read back as a font of size serif with an empty
    family.  What is written does not denote the font it was written
    from. *)
Theorem C1_bare_word_is_read_as_size :
  accepted (lit "medium serif") /\
  Font.fontSize (Font.fontToComponents (lit "medium serif")) = Some (lit "medium") /\
  Font.fontFamily (Font.fontToComponents (lit "medium serif")) = Some (lit "serif") /\
  Font.componentsToFont (Font.fontToComponents (lit "medium serif")) = lit "serif" /\
  accepted (lit "serif") /\
  Font.fontSize (Font.fontToComponents (lit "serif")) = Some (lit "serif") /\
  Font.fontFamily (Font.fontToComponents (lit "serif")) = Some [] /\
  ~ round_trips (lit "medium serif").
Proof.
  assert (A : accepted (lit "medium serif")) by (vm_compute; discriminate).
  split; [exact A|].
  split; [vm_compute; reflexivity|]. split; [vm_compute; reflexivity|].
  split; [vm_compute; reflexivity|]. split; [vm_compute; discriminate|].
  split; [vm_compute; reflexivity|]. split; [vm_compute; reflexivity|].
  intro H. destruct (H A) as (_ & _ & _ & S & _).
  vm_compute in S. discriminate.
Qed.

Section FirstMatch.
Import Regex.

Lemma hd_error_app_l (A : Type) (l1 l2 : list A) (x : A) :
  hd_error l1 = Some x -> hd_error (l1 ++ l2) = Some x.
Proof. destruct l1; cbn; [discriminate|trivial]. Qed.

Lemma hd_error_map (A B : Type) (f : A -> B) (l : list A) (x : A) :
  hd_error l = Some x -> hd_error (List.map f l) = Some (f x).
Proof. destruct l; cbn; [discriminate|]. intro E. injection E as ->. reflexivity. Qed.

Lemma hd_error_flat_map (A B : Type) (f : A -> list B) (l : list A) (x : A) (y : B) :
  hd_error l = Some x -> hd_error (f x) = Some y ->
  hd_error (flat_map f l) = Some y.
Proof.
  destruct l as [|a l]; cbn; [discriminate|].
  intros E F. injection E as ->. apply hd_error_app_l. exact F.
Qed.

Lemma first_seq (r1 r2 : regex) (st s1 s2 : mstate) (c1 c2 : jstr) :
  first_match r1 st = Some (c1, s1) ->
  first_match r2 s1 = Some (c2, s2) ->
  first_match (Seq r1 r2) st = Some (c1 ++ c2, s2).
Proof.
  unfold first_match. intros H1 H2. cbn [ms].
  eapply hd_error_flat_map; [exact H1|]. cbn [fst snd].
  apply (hd_error_map (app_run c1)) in H2. exact H2.
Qed.

Lemma first_grp (i : nat) (r : regex) (st s1 : mstate) (c : jstr) :
  first_match r st = Some (c, s1) ->
  first_match (Grp i r) st = Some (c, set_cap i c s1).
Proof.
  unfold first_match. intro H. cbn [ms].
  apply (hd_error_map (cap_run i)) in H. exact H.
Qed.

Lemma last_of_cons (x : N) (xs : jstr) (pv : option N) :
  last_of (x :: xs) pv = last_of xs (Some x).
Proof.
  unfold last_of. cbn [rev]. destruct (rev xs); reflexivity.
Qed.

(** A greedy run of a class takes every character of the class first. *)
Lemma star_runs_first (p : N -> bool) (xs : jstr) :
  forall pv r,
    forallb p xs = true ->
    match r with [] => true | a :: _ => negb (p a) end = true ->
    hd_error (star_runs p pv (xs ++ r)) = Some (xs, (last_of xs pv, r)).
Proof.
  induction xs as [|x xs IH]; intros pv r Hxs Hr; cbn [app].
  - destruct r as [|a r]; [reflexivity|].
    cbn [star_runs]. apply negb_true_iff in Hr. rewrite Hr. reflexivity.
  - cbn [forallb] in Hxs. apply andb_true_iff in Hxs. destruct Hxs as [Hx Hxs].
    cbn [star_runs]. rewrite Hx. apply hd_error_app_l.
    rewrite last_of_cons.
    apply (hd_error_map (cons_run x)) with (x := (xs, (last_of xs (Some x), r))).
    apply IH; assumption.
Qed.

Lemma first_star (p : N -> bool) (xs r : jstr) (pv : option N) (cs : list (nat * jstr)) :
  forallb p xs = true ->
  match r with [] => true | a :: _ => negb (p a) end = true ->
  first_match (StarCls p) (MState pv (xs ++ r) cs) =
  Some (xs, MState (last_of xs pv) r cs).
Proof.
  intros Hxs Hr. unfold first_match. cbn [ms prev rest caps].
  apply (hd_error_map (of_run (MState pv (xs ++ r) cs)))
    with (x := (xs, (last_of xs pv, r))).
  apply star_runs_first; assumption.
Qed.

End FirstMatch.

Section Fields.
Import Regex Font.

Lemma one_of_cases (l : list string) (x : jstr) :
  one_of l x = true -> exists k, In k l /\ Js.eqb x (lit k) = true.
Proof.
  unfold one_of. intro H. apply existsb_exists in H. exact H.
Qed.

Lemma eqb_eq (a b : jstr) : Js.eqb a b = true -> a = b.
Proof.
  revert b. induction a as [|x a IH]; intros [|y b] H; cbn in H;
    try discriminate; [reflexivity|].
  apply andb_true_iff in H. destruct H as [H1 H2].
  apply N.eqb_eq in H1. subst y. f_equal. apply IH. exact H2.
Qed.

Lemma eqb_refl (a : jstr) : Js.eqb a a = true.
Proof.
  induction a as [|x a IH]; cbn; [reflexivity|].
  rewrite N.eqb_refl. exact IH.
Qed.

Lemma mem_in (a : N) (l : list N) : existsb (N.eqb a) l = true -> In a l.
Proof.
  intro H. apply existsb_exists in H. destruct H as (x & I & E).
  apply N.eqb_eq in E. subst x. exact I.
Qed.

Lemma digit_cases (a : N) :
  is_digit a = true -> In a [48; 49; 50; 51; 52; 53; 54; 55; 56; 57]%N.
Proof.
  unfold is_digit. intro H. apply andb_true_iff in H. destruct H as [L U].
  apply N.leb_le in L. apply N.leb_le in U.
  assert (C : (a = 48 \/ a = 49 \/ a = 50 \/ a = 51 \/ a = 52 \/ a = 53 \/
               a = 54 \/ a = 55 \/ a = 56 \/ a = 57)%N) by lia.
  repeat (destruct C as [C|C]; [subst a; apply mem_in; reflexivity|]).
  subst a. apply mem_in. reflexivity.
Qed.

Lemma in_longer (a : N) (l1 l2 : list N) :
  In a l1 -> forallb (fun x => existsb (N.eqb x) l2) l1 = true -> In a l2.
Proof.
  intros I F. apply mem_in.
  exact (proj1 (forallb_forall _ l1) F a I).
Qed.

Lemma starts_weight_or_size_cases (r : jstr) :
  starts_weight_or_size r = true ->
  exists a r', r = a :: r' /\
    In a [48; 49; 50; 51; 52; 53; 54; 55; 56; 57; 98; 108]%N.
Proof.
  destruct r as [|a r']; cbn [starts_weight_or_size]; [discriminate|]. intro H.
  exists a, r'. split; [reflexivity|].
  apply orb_true_iff in H. destruct H as [H|H].
  - apply orb_true_iff in H. destruct H as [H|H].
    + apply digit_cases in H. eapply in_longer; [exact H|reflexivity].
    + apply N.eqb_eq in H. subst a. apply mem_in. reflexivity.
  - apply N.eqb_eq in H. subst a. apply mem_in. reflexivity.
Qed.

Lemma starts_later_cases (r : jstr) :
  starts_later r = true ->
  exists a r', r = a :: r' /\
    In a [48; 49; 50; 51; 52; 53; 54; 55; 56; 57; 98; 108; 115; 120]%N.
Proof.
  destruct r as [|a r']; cbn [starts_later]; [discriminate|]. intro H.
  exists a, r'. split; [reflexivity|].
  apply orb_true_iff in H. destruct H as [H|H].
  - apply orb_true_iff in H. destruct H as [H|H].
    + assert (S : starts_weight_or_size (a :: r') = true) by exact H.
      apply starts_weight_or_size_cases in S.
      destruct S as (a' & r'' & E & I). injection E as <- <-.
      eapply in_longer; [exact I|reflexivity].
    + apply N.eqb_eq in H. subst a. apply mem_in. reflexivity.
  - apply N.eqb_eq in H. subst a. apply mem_in. reflexivity.
Qed.

(** *** A field that is written is read back *)

Lemma style_present (k : string) (r : jstr) (cs : list (nat * jstr)) :
  In k ["italic"; "oblique"; "inherit"]%string ->
  first_match (field 1 style_re) (MState None (lit k ++ space :: r) cs) =
  Some (lit k, MState (last_of (lit k) None) (space :: r) ((1%nat, lit k) :: cs)).
Proof.
  intro H. cbn in H.
  repeat (destruct H as [<-|H]; [vm_compute; reflexivity|]).
  destruct H.
Qed.

Lemma variant_present (pv : option N) (r : jstr) (cs : list (nat * jstr)) :
  at_start pv ->
  first_match (field 2 variant_re) (MState pv (lit "small-caps" ++ space :: r) cs) =
  Some (lit "small-caps",
        MState (last_of (lit "small-caps") None) (space :: r)
               ((2%nat, lit "small-caps") :: cs)).
Proof.
  intros [-> | ->]; vm_compute; reflexivity.
Qed.

Lemma weight_present (k : string) (pv : option N) (r : jstr) (cs : list (nat * jstr)) :
  In k ["bold"; "bolder"; "lighter"; "100"; "200"; "300"; "400"; "500";
        "600"; "700"; "800"; "900"]%string ->
  at_start pv ->
  first_match (field 3 weight_re) (MState pv (lit k ++ space :: r) cs) =
  Some (lit k, MState (last_of (lit k) None) (space :: r) ((3%nat, lit k) :: cs)).
Proof.
  intros H P. cbn in H.
  repeat (destruct H as [<-|H];
          [destruct P as [-> | ->]; vm_compute; reflexivity|]).
  destruct H.
Qed.

(** *** A field that is not written is skipped *)

Lemma style_absent (r : jstr) (cs : list (nat * jstr)) :
  starts_later r = true ->
  first_match (field 1 style_re) (MState None r cs) = Some ([], MState None r cs).
Proof.
  intro H. apply starts_later_cases in H.
  destruct H as (a & r' & -> & I). cbn in I.
  repeat (destruct I as [<-|I]; [vm_compute; reflexivity|]).
  destruct I.
Qed.

Lemma variant_absent (r : jstr) :
  starts_weight_or_size r = true -> variant_skips r.
Proof.
  intros H pv cs P. apply starts_weight_or_size_cases in H.
  destruct H as (a & r' & -> & I). cbn in I.
  repeat (destruct I as [<-|I];
          [destruct P as [-> | ->]; vm_compute; reflexivity|]).
  destruct I.
Qed.

(** *** White space between fields *)

Lemma ws_one_space (pv : option N) (r : jstr) (cs : list (nat * jstr)) :
  match r with [] => true | a :: _ => negb (is_space a) end = true ->
  first_match ws (MState pv (space :: r) cs) = Some ([space], MState (Some space) r cs).
Proof.
  intro H. apply (@first_star is_space [space] r pv cs); [reflexivity|exact H].
Qed.

Lemma ws_none (pv : option N) (r : jstr) (cs : list (nat * jstr)) :
  match r with [] => true | a :: _ => negb (is_space a) end = true ->
  first_match ws (MState pv r cs) = Some ([], MState pv r cs).
Proof.
  intro H. apply (@first_star is_space [] r pv cs); [reflexivity|exact H].
Qed.

End Fields.

Section Engine.
Import Regex Font.

Lemma flat_map_nil (A B : Type) (f : A -> list B) (l : list A) :
  (forall x, In x l -> f x = []) -> flat_map f l = [].
Proof.
  induction l as [|a l IH]; intro H; cbn; [reflexivity|].
  rewrite (H a (or_introl eq_refl)), IH; [reflexivity|].
  intros x I. apply H. right. exact I.
Qed.

Lemma hd_flat_map_skip (A B : Type) (f : A -> list B) (l1 l2 : list A) (y : B) :
  (forall x, In x l1 -> f x = []) ->
  hd_error (flat_map f l2) = Some y ->
  hd_error (flat_map f (l1 ++ l2)) = Some y.
Proof.
  intros H1 H2. rewrite flat_map_app, (flat_map_nil f l1 H1). exact H2.
Qed.

Lemma ms_alts_split (ks : list string) (final : regex) (st : mstate) :
  ms (alts ks final) st =
  flat_map (fun k => ms (Lit (lit k)) st) ks ++ ms final st.
Proof.
  induction ks as [|k ks IH]; [reflexivity|].
  cbn [alts flat_map]. rewrite <- app_assoc, <- IH. reflexivity.
Qed.

Lemma ms_alt (r1 r2 : regex) (st : mstate) :
  ms (Alt r1 r2) st = ms r1 st ++ ms r2 st.
Proof. reflexivity. Qed.

Lemma first_wordb (st : mstate) :
  word_boundary st = true -> first_match WordB st = Some ([], st).
Proof. unfold first_match. cbn [ms]. intros ->. reflexivity. Qed.

Lemma word_boundary_set_cap (i : nat) (c : jstr) (st : mstate) :
  word_boundary (set_cap i c st) = word_boundary st.
Proof. reflexivity. Qed.

(** What follows an optional group when none of the ways the group
    matches ends at a word boundary: the group is skipped. *)
Lemma field_skip (i : nat) (re : regex) (st : mstate) :
  word_boundary st = true ->
  (forall x, In x (ms re st) -> word_boundary (snd x) = false) ->
  ms (field i re) st = [([], st)].
Proof.
  intros Hb Hre. unfold field. cbn [ms]. rewrite Hb.
  cbn [flat_map fst snd]. rewrite app_nil_r.
  rewrite flat_map_app. rewrite flat_map_nil.
  - cbn [flat_map fst snd app]. rewrite Hb. reflexivity.
  - intros x Hx. apply filter_In in Hx. destruct Hx as [Hx _].
    apply in_map_iff in Hx. destruct Hx as (x0 & <- & Hx0).
    unfold cap_run. cbn [fst snd]. rewrite word_boundary_set_cap.
    rewrite (Hre x0 Hx0). reflexivity.
Qed.

Lemma digit_is_word (c : N) : is_digit c = true -> is_word c = true.
Proof. unfold is_word. intros ->. reflexivity. Qed.

Lemma lower_is_word (c : N) : is_lower c = true -> is_word c = true.
Proof. unfold is_word. intros ->. rewrite orb_true_r. reflexivity. Qed.

Lemma digit_not_lower (c : N) : is_digit c = true -> is_lower c = true -> False.
Proof.
  unfold is_digit, is_lower. intros D L.
  apply andb_true_iff in D. apply andb_true_iff in L.
  destruct D as [_ D]. destruct L as [L _].
  apply N.leb_le in D. apply N.leb_le in L. lia.
Qed.

Lemma last_of_in (w : jstr) (pv : option N) :
  w <> [] -> exists c, last_of w pv = Some c /\ In c w.
Proof.
  intro NE. unfold last_of. destruct (rev w) as [|c r] eqn:E.
  - exfalso. apply NE. rewrite <- (rev_involutive w), E. reflexivity.
  - exists c. split; [reflexivity|]. apply in_rev. rewrite E. left. reflexivity.
Qed.

Lemma last_of_word (p : N -> bool) (w : jstr) (pv : option N) :
  (forall c, p c = true -> is_word c = true) ->
  w <> [] -> forallb p w = true -> is_word_opt (last_of w pv) = true.
Proof.
  intros Hp NE F. destruct (last_of_in pv NE) as (c & -> & I).
  cbn. apply Hp. exact (proj1 (forallb_forall p w) F c I).
Qed.

Section NumberToken.
Variables ds u tail : jstr.
Hypothesis digits : forallb is_digit ds = true.
Hypothesis some_digit : ds <> [].
Hypothesis letters : forallb is_lower u = true.
Hypothesis unit_length : (2 <= List.length u <= 5)%nat.
Hypothesis then_space :
  match tail with [] => true | a :: _ => N.eqb a space end = true.

Lemma tail_not_word : is_word_opt (hd_error tail) = false.
Proof.
  destruct tail as [|a t]; [reflexivity|].
  apply N.eqb_eq in then_space. subst a. reflexivity.
Qed.

Lemma tail_not_lower : match tail with [] => true | a :: _ => negb (is_lower a) end = true.
Proof.
  destruct tail as [|a t]; [reflexivity|].
  apply N.eqb_eq in then_space. subst a. reflexivity.
Qed.

Lemma unit_head : exists a u', u = a :: u' /\ is_lower a = true.
Proof.
  destruct u as [|a u']; [cbn in unit_length; lia|].
  exists a, u'. split; [reflexivity|].
  cbn in letters. apply andb_true_iff in letters. tauto.
Qed.

(** A run of digits matched at the front of the number ends between
    two word characters. *)
Lemma digits_inside (w : jstr) :
  forall ds', forallb is_digit ds' = true ->
    forallb is_digit w = true ->
    prefixb w (ds' ++ u ++ tail) = true ->
    is_word_opt (hd_error (skipn (List.length w) (ds' ++ u ++ tail))) = true.
Proof.
  destruct unit_head as (a & u' & Eu & La).
  induction w as [|x w IH]; intros ds' Hd Hw P.
  - cbn [List.length skipn]. destruct ds' as [|d ds'].
    + rewrite Eu. cbn. apply lower_is_word. exact La.
    + cbn in Hd |- *. apply andb_true_iff in Hd.
      apply digit_is_word. tauto.
  - cbn in Hw. apply andb_true_iff in Hw. destruct Hw as [Hx Hw].
    destruct ds' as [|d ds'].
    + rewrite Eu in P. cbn in P. apply andb_true_iff in P. destruct P as [P _].
      apply N.eqb_eq in P. subst x. exfalso. exact (digit_not_lower _ Hx La).
    + cbn in Hd. apply andb_true_iff in Hd. destruct Hd as [_ Hd].
      cbn in P. apply andb_true_iff in P. destruct P as [_ P].
      cbn [List.length skipn app]. apply IH; assumption.
Qed.

(** No literal alternative of that kind ends at a word boundary when
    tried at the front of the number. *)
Lemma literal_misses (w : jstr) (pv : option N) (cs : list (nat * jstr)) :
  misses_number w = true ->
  forall x, In x (ms (Lit w) (MState pv (ds ++ u ++ tail) cs)) ->
            word_boundary (snd x) = false.
Proof.
  intros M x Hx. cbn [ms rest] in Hx.
  destruct (prefixb w (ds ++ u ++ tail)) eqn:P; [|destruct Hx].
  destruct Hx as [<-|[]]. cbn [snd].
  destruct w as [|k w']; [discriminate|].
  unfold misses_number in M. apply orb_true_iff in M. destruct M as [M|M].
  - unfold word_boundary, advance. cbn [prev rest].
    rewrite (@last_of_word is_digit (k :: w') pv digit_is_word)
      by (discriminate || exact M).
    rewrite (digits_inside (k :: w') ds digits M P). reflexivity.
  - exfalso. destruct ds as [|d ds']; [apply some_digit; reflexivity|].
    cbn in P, digits. apply andb_true_iff in P. destruct P as [P _].
    apply N.eqb_eq in P. subst d.
    apply andb_true_iff in digits. destruct digits as [D _].
    rewrite D in M. discriminate.
Qed.

Lemma literals_miss (ks : list string) (pv : option N) (cs : list (nat * jstr)) :
  forallb (fun k => misses_number (lit k)) ks = true ->
  forall x, In x (flat_map (fun k => ms (Lit (lit k)) (MState pv (ds ++ u ++ tail) cs)) ks) ->
            word_boundary (snd x) = false.
Proof.
  intros F x Hx. apply in_flat_map in Hx. destruct Hx as (k & Ik & Hx).
  apply (literal_misses (lit k) pv cs); [|exact Hx].
  exact (proj1 (forallb_forall _ ks) F k Ik).
Qed.

Lemma number_starts_word (pv : option N) (cs : list (nat * jstr)) :
  is_word_opt pv = false ->
  word_boundary (MState pv (ds ++ u ++ tail) cs) = true.
Proof.
  intro H. unfold word_boundary. cbn [prev rest]. rewrite H.
  destruct ds as [|d ds']; [exfalso; apply some_digit; reflexivity|].
  cbn in digits |- *. apply andb_true_iff in digits.
  apply digit_is_word. tauto.
Qed.

Lemma not_word_at_start (pv : option N) : at_start pv -> is_word_opt pv = false.
Proof. intros [-> | ->]; reflexivity. Qed.

(** The weight field is skipped in front of a number with a unit. *)
Lemma weight_absent : weight_skips (ds ++ u ++ tail).
Proof.
  intros pv cs P. pose proof (not_word_at_start P) as H. unfold first_match. rewrite field_skip; [reflexivity| |].
  - apply number_starts_word. exact H.
  - change weight_re
      with (alts ["normal"; "bold"; "bolder"; "lighter"; "100"; "200"; "300";
                  "400"; "500"; "600"; "700"; "800"; "900"]%string
                 (Lit (lit "inherit"))).
    rewrite ms_alts_split. intros x Hx. apply in_app_or in Hx.
    destruct Hx as [Hx|Hx].
    + revert x Hx. apply literals_miss. reflexivity.
    + revert x Hx. apply literal_misses. reflexivity.
Qed.


(** *** The size field on a number with a unit *)

Lemma rep_runs_first (p : N -> bool) (xs : jstr) :
  forall lo extra pv r,
    forallb p xs = true ->
    (lo <= List.length xs <= lo + extra)%nat ->
    match r with [] => true | a :: _ => negb (p a) end = true ->
    hd_error (rep_runs p lo extra pv (xs ++ r)) = Some (xs, (last_of xs pv, r)).
Proof.
  induction xs as [|x xs IH]; intros lo extra pv r Hxs Hlen Hr.
  - cbn in Hlen. assert (lo = O) by lia. subst lo. cbn [app].
    destruct extra as [|e]; [destruct r; reflexivity|].
    destruct r as [|a r]; [reflexivity|].
    cbn [rep_runs]. apply negb_true_iff in Hr. rewrite Hr. reflexivity.
  - cbn [forallb] in Hxs. apply andb_true_iff in Hxs. destruct Hxs as [Hx Hxs].
    cbn [List.length] in Hlen. cbn [app]. rewrite last_of_cons.
    destruct lo as [|lo].
    + destruct extra as [|e]; [lia|].
      cbn [rep_runs]. rewrite Hx. apply hd_error_app_l.
      apply (hd_error_map (cons_run x)) with (x := (xs, (last_of xs (Some x), r))).
      apply IH; [assumption|lia|assumption].
    + cbn [rep_runs]. rewrite Hx.
      apply (hd_error_map (cons_run x)) with (x := (xs, (last_of xs (Some x), r))).
      apply IH; [assumption|lia|assumption].
Qed.

Lemma first_rep (p : N -> bool) (lo extra : nat) (xs r : jstr) (pv : option N)
      (cs : list (nat * jstr)) :
  forallb p xs = true ->
  (lo <= List.length xs <= lo + extra)%nat ->
  match r with [] => true | a :: _ => negb (p a) end = true ->
  first_match (RepCls p lo extra) (MState pv (xs ++ r) cs) =
  Some (xs, MState (last_of xs pv) r cs).
Proof.
  intros Hxs Hlen Hr. unfold first_match. cbn [ms prev rest caps].
  apply (hd_error_map (of_run (MState pv (xs ++ r) cs)))
    with (x := (xs, (last_of xs pv, r))).
  apply rep_runs_first; assumption.
Qed.

Lemma unit_not_digit :
  match u ++ tail with [] => true | a :: _ => negb (is_digit a) end = true.
Proof.
  destruct unit_head as (a & u' & -> & La). cbn.
  destruct (is_digit a) eqn:D; [|reflexivity].
  exfalso. exact (digit_not_lower _ D La).
Qed.

(** The numeric alternative of the size takes the digits and the unit. *)
Lemma number_first (pv : option N) (cs : list (nat * jstr)) :
  first_match number_re (MState pv (ds ++ u ++ tail) cs) =
  Some (ds ++ u, MState (last_of u (last_of ds pv)) tail cs).
Proof.
  unfold number_re.
  apply first_seq with (s1 := MState (last_of ds pv) (u ++ tail) cs).
  { apply first_star; [exact digits|exact unit_not_digit]. }
  apply (@first_seq _ _ (MState (last_of ds pv) (u ++ tail) cs)
                    (MState (last_of ds pv) (u ++ tail) cs) _ [] u).
  - (* no fraction *)
    unfold first_match. cbn [ms].
    destruct unit_head as (a & u' & Eu & La). rewrite Eu. cbn [app rest].
    assert (E : N.eqb 46 a = false).
    { apply N.eqb_neq. intros <-. discriminate La. }
    rewrite E. reflexivity.
  - (* the unit *)
    unfold first_match. rewrite ms_alt.
    assert (E : ms (Cls (N.eqb 37)) (MState (last_of ds pv) (u ++ tail) cs) = []).
    { destruct unit_head as (a & u' & Eu & La). rewrite Eu. cbn [ms app rest].
      assert (E : N.eqb 37 a = false).
      { apply N.eqb_neq. intros <-. discriminate La. }
      rewrite E. reflexivity. }
    rewrite E. cbn [app].
    apply first_rep; [exact letters|lia|exact tail_not_lower].
Qed.

Lemma size_field (pv : option N) (cs : list (nat * jstr)) :
  at_start pv ->
  first_match (field 4 size_re) (MState pv (ds ++ u ++ tail) cs) =
  Some (ds ++ u,
        MState (last_of u (last_of ds pv)) tail ((4%nat, ds ++ u) :: cs)).
Proof.
  intro P. pose proof (not_word_at_start P) as H. set (st := MState pv (ds ++ u ++ tail) cs).
  set (s2 := MState (last_of u (last_of ds pv)) tail cs).
  unfold field.
  apply (@first_seq WordB _ st st _ [] (ds ++ u)).
  { apply first_wordb. apply number_starts_word. exact H. }
  unfold first_match. cbn [ms].
  unfold size_re. rewrite ms_alts_split.
  rewrite map_app, filter_app, <- app_assoc.
  apply hd_flat_map_skip.
  - intros x Hx. apply filter_In in Hx. destruct Hx as [Hx _].
    apply in_map_iff in Hx. destruct Hx as (x0 & <- & Hx0).
    unfold cap_run. cbn [fst snd]. rewrite word_boundary_set_cap.
    assert (Bf : word_boundary (snd x0) = false).
    { unfold st in Hx0. revert x0 Hx0. apply literals_miss. reflexivity. }
    rewrite Bf. reflexivity.
  - pose proof (number_first pv cs) as N1. unfold first_match in N1. fold st in N1.
    destruct (ms number_re st) as [|x0 l0]; [discriminate|].
    cbn in N1. injection N1 as ->. fold s2.
    assert (NE : nonempty (cap_run 4 (ds ++ u, s2)) = true).
    { unfold nonempty, cap_run. cbn [fst].
      destruct ds; [exfalso; apply some_digit; reflexivity|reflexivity]. }
    cbn [List.map filter]. rewrite NE. cbn [app flat_map].
    assert (B : word_boundary (snd (cap_run 4 (ds ++ u, s2))) = true).
    { unfold cap_run. cbn [fst snd]. rewrite word_boundary_set_cap.
      unfold word_boundary, s2. cbn [prev rest].
      rewrite tail_not_word.
      rewrite (@last_of_word is_lower u (last_of ds pv) lower_is_word);
        [reflexivity| |exact letters].
      intros ->. cbn in unit_length. lia. }
    rewrite B. cbn [List.map app hd_error]. unfold app_run, cap_run.
    cbn [fst snd]. rewrite app_nil_r. reflexivity.
Qed.

Lemma number_not_medium : Js.eqb (ds ++ u) medium = false.
Proof.
  destruct ds as [|d ds']; [exfalso; apply some_digit; reflexivity|].
  cbn in digits. apply andb_true_iff in digits. destruct digits as [D _].
  cbn. destruct (N.eqb_spec d 109) as [->|]; [discriminate D|reflexivity].
Qed.

Lemma number_starts : starts_weight_or_size (ds ++ u ++ tail) = true.
Proof.
  destruct ds as [|d ds']; [exfalso; apply some_digit; reflexivity|].
  cbn in digits |- *. apply andb_true_iff in digits.
  destruct digits as [-> _]. reflexivity.
Qed.

Lemma starts_weight_or_size_later (r : jstr) :
  starts_weight_or_size r = true -> starts_later r = true.
Proof.
  destruct r as [|a r]; cbn; [trivial|]. intros ->. reflexivity.
Qed.

(** A number with a unit can follow the fields before it. *)
Lemma number_readable : readable_size (ds ++ u) tail.
Proof.
  unfold readable_size. rewrite <- app_assoc.
  split; [destruct ds; [exfalso; apply some_digit; reflexivity|discriminate]|].
  split; [exact number_not_medium|].
  split; [apply starts_weight_or_size_later; exact number_starts|].
  split; [apply variant_absent; exact number_starts|].
  split; [exact weight_absent|].
  intros pv cs P. eexists. rewrite <- app_assoc. apply size_field. exact P.
Qed.

End NumberToken.

(** *** The family and the end of the string *)

Lemma family_read (fam : jstr) (pv : option N) (cs : list (nat * jstr)) :
  plain_family fam = true ->
  exists c pv',
    first_match (seqs [ws; Grp 5 (StarCls is_dot); ws; Eol])
      (MState pv (written_family fam) cs) =
    Some (c, MState pv' [] ((5%nat, fam) :: cs)).
Proof.
  unfold plain_family. intro H. apply andb_true_iff in H. destruct H as [Hd Hs].
  cbn [seqs].
  destruct fam as [|a f].
  - eexists _, _. cbn [written_family].
    eapply first_seq; [apply ws_none; reflexivity|].
    eapply first_seq.
    { apply first_grp. apply (@first_star is_dot [] [] pv cs); reflexivity. }
    eapply first_seq; [apply ws_none; reflexivity|].
    reflexivity.
  - eexists _, _. cbn [written_family].
    eapply first_seq; [apply ws_one_space; exact Hs|].
    eapply first_seq.
    { apply first_grp.
      rewrite <- (app_nil_r (a :: f)) at 1.
      apply first_star; [exact Hd|reflexivity]. }
    eapply first_seq; [apply ws_none; reflexivity|].
    reflexivity.
Qed.

End Engine.

Section ReadBack.
Import Regex Font.

Lemma span_spec (p : N -> bool) (x : jstr) :
  x = fst (span p x) ++ snd (span p x) /\
  forallb p (fst (span p x)) = true /\
  match snd (span p x) with [] => true | a :: _ => negb (p a) end = true.
Proof.
  induction x as [|a x IH]; cbn [span]; [repeat split|].
  destruct (p a) eqn:E; cbn [fst snd app forallb].
  - destruct IH as (I1 & I2 & I3). rewrite E. repeat split; try assumption.
    f_equal. exact I1.
  - rewrite E. repeat split.
Qed.

Lemma number_with_unit_spec (sz : jstr) :
  number_with_unit sz = true ->
  exists ds u, sz = ds ++ u /\ forallb is_digit ds = true /\ ds <> [] /\
               forallb is_lower u = true /\ (2 <= List.length u <= 5)%nat.
Proof.
  unfold number_with_unit. intro H.
  destruct (span_spec is_digit sz) as (E & D & _).
  exists (fst (span is_digit sz)), (snd (span is_digit sz)).
  apply andb_true_iff in H. destruct H as [H L].
  apply andb_true_iff in H. destruct H as [H U5].
  apply andb_true_iff in H. destruct H as [NE U2].
  split; [exact E|]. split; [exact D|]. split.
  - intro Z. rewrite Z in NE. discriminate.
  - split; [exact L|]. apply Nat.leb_le in U2. apply Nat.leb_le in U5. lia.
Qed.

Lemma written_family_space (fam : jstr) :
  match written_family fam with [] => true | a :: _ => N.eqb a space end = true.
Proof. destruct fam; reflexivity. Qed.

Lemma starts_later_nonspace (r : jstr) :
  starts_later r = true ->
  match r with [] => true | a :: _ => negb (is_space a) end = true.
Proof.
  intro H. apply starts_later_cases in H. destruct H as (a & r' & -> & I).
  cbn in I. repeat (destruct I as [<-|I]; [reflexivity|]). destruct I.
Qed.

Lemma after_field_at_start (x : jstr) (pv : option N) :
  at_start pv -> at_start (after_field x pv).
Proof.
  unfold after_field, at_start. destruct (Js.eqb x normal); [trivial|right; reflexivity].
Qed.

(** *** A size keyword can follow the fields before it *)
Lemma keyword_readable (sz fam : jstr) :
  one_of size_words sz = true -> readable_size sz (written_family fam).
Proof.
  intro H. apply one_of_cases in H. destruct H as (k & I & E).
  apply eqb_eq in E. subst sz. cbn in I.
  repeat (destruct I as [<-|I];
          [unfold readable_size;
           split; [discriminate|]; split; [reflexivity|];
           split; [destruct fam; reflexivity|];
           split; [intros pv cs [-> | ->]; destruct fam; vm_compute; reflexivity|];
           split; [intros pv cs [-> | ->]; destruct fam; vm_compute; reflexivity|];
           intros pv cs [-> | ->]; destruct fam; eexists; vm_compute; reflexivity
          |]).
  destruct I.
Qed.

(** *** Each written field, with the white space after it *)

Lemma style_read (st r : jstr) (cs : list (nat * jstr)) :
  one_of styles st = true -> starts_later r = true ->
  exists c1 s1 c2,
    first_match (field 1 style_re) (MState None (written st r) cs) = Some (c1, s1) /\
    first_match ws s1 = Some (c2, MState (after_field st None) r (captured 1 st cs)).
Proof.
  intros H R. pose proof (starts_later_nonspace r R) as NS.
  apply one_of_cases in H. destruct H as (k & I & E).
  apply eqb_eq in E. subst st. cbn in I.
  destruct I as [<-|I].
  - exists [], (MState None r cs), []. split.
    + apply style_absent. exact R.
    + apply ws_none. exact NS.
  - assert (W : Js.eqb (lit k) normal = false).
    { cbn in I. repeat (destruct I as [<-|I]; [reflexivity|]). destruct I. }
    unfold written, captured, after_field. rewrite W.
    eexists _, _, _. split.
    + apply (@style_present k r cs). exact I.
    + apply ws_one_space. exact NS.
Qed.

Lemma variant_read (va r : jstr) (pv : option N) (cs : list (nat * jstr)) :
  one_of variants va = true -> variant_skips r -> starts_later r = true ->
  at_start pv ->
  exists c1 s1 c2,
    first_match (field 2 variant_re) (MState pv (written va r) cs) = Some (c1, s1) /\
    first_match ws s1 = Some (c2, MState (after_field va pv) r (captured 2 va cs)).
Proof.
  intros H V R P. pose proof (starts_later_nonspace r R) as NS.
  apply one_of_cases in H. destruct H as (k & I & E).
  apply eqb_eq in E. subst va. cbn in I.
  destruct I as [<-|[<-|[]]].
  - exists [], (MState pv r cs), []. split.
    + apply V. exact P.
    + apply ws_none. exact NS.
  - eexists _, _, _. split.
    + apply (@variant_present pv r cs). exact P.
    + apply ws_one_space. exact NS.
Qed.

Lemma weight_read (we r : jstr) (pv : option N) (cs : list (nat * jstr)) :
  one_of weights we = true -> weight_skips r -> starts_later r = true ->
  at_start pv ->
  exists c1 s1 c2,
    first_match (field 3 weight_re) (MState pv (written we r) cs) = Some (c1, s1) /\
    first_match ws s1 = Some (c2, MState (after_field we pv) r (captured 3 we cs)).
Proof.
  intros H V R P. pose proof (starts_later_nonspace r R) as NS.
  apply one_of_cases in H. destruct H as (k & I & E).
  apply eqb_eq in E. subst we. cbn [weights In] in I.
  destruct I as [<-|I].
  - exists [], (MState pv r cs), []. split.
    + apply V. exact P.
    + apply ws_none. exact NS.
  - assert (W : Js.eqb (lit k) normal = false).
    { cbn in I. repeat (destruct I as [<-|I]; [reflexivity|]). destruct I. }
    unfold written, captured, after_field. rewrite W.
    eexists _, _, _. split.
    + apply (@weight_present k pv r cs); [exact I|exact P].
    + apply ws_one_space. exact NS.
Qed.

(** *** What a written weight or variant begins with *)

Lemma written_weight_starts (we r : jstr) :
  one_of weights we = true ->
  we = normal \/ starts_weight_or_size (written we r) = true.
Proof.
  intro H. apply one_of_cases in H. destruct H as (k & I & E).
  apply eqb_eq in E. subst we. cbn in I.
  destruct I as [<-|I]; [left; reflexivity|right].
  repeat (destruct I as [<-|I]; [reflexivity|]). destruct I.
Qed.

Lemma written_normal (r : jstr) : written normal r = r.
Proof. reflexivity. Qed.

Lemma written_weight_later (we r : jstr) :
  one_of weights we = true -> starts_later r = true ->
  starts_later (written we r) = true.
Proof.
  intros H R. destruct (@written_weight_starts we r H) as [-> | S].
  - rewrite written_normal. exact R.
  - apply starts_weight_or_size_later. exact S.
Qed.

Lemma written_weight_variant_skips (we r : jstr) :
  one_of weights we = true -> variant_skips r -> variant_skips (written we r).
Proof.
  intros H V. destruct (@written_weight_starts we r H) as [-> | S].
  - rewrite written_normal. exact V.
  - apply variant_absent. exact S.
Qed.

Lemma written_variant_later (va r : jstr) :
  one_of variants va = true -> starts_later r = true ->
  starts_later (written va r) = true.
Proof.
  intros H R. apply one_of_cases in H. destruct H as (k & I & E).
  apply eqb_eq in E. subst va. cbn in I.
  destruct I as [<-|[<-|[]]]; [exact R|reflexivity].
Qed.

Lemma written_nonspace (st r : jstr) :
  one_of styles st = true -> starts_later r = true ->
  match written st r with [] => true | a :: _ => negb (is_space a) end = true.
Proof.
  intros H R. apply one_of_cases in H. destruct H as (k & I & E).
  apply eqb_eq in E. subst st. cbn in I.
  destruct I as [<-|I].
  - apply starts_later_nonspace. exact R.
  - repeat (destruct I as [<-|I]; [reflexivity|]). destruct I.
Qed.

Lemma field_then (f more : regex) (st s1 s2 s3 : mstate) (c1 c2 c3 : jstr) :
  first_match f st = Some (c1, s1) ->
  first_match ws s1 = Some (c2, s2) ->
  first_match more s2 = Some (c3, s3) ->
  first_match (Seq f (Seq ws more)) st = Some (c1 ++ c2 ++ c3, s3).
Proof.
  intros H1 H2 H3. eapply first_seq; [exact H1|].
  eapply first_seq; [exact H2|exact H3].
Qed.

(** *** The whole written font *)
Lemma font_read_back (st va we sz fam : jstr) :
  one_of styles st = true -> one_of variants va = true -> one_of weights we = true ->
  readable_size sz (written_family fam) ->
  plain_family fam = true ->
  exists c pv,
    first_match font_re
      (MState None
         (written st (written va (written we (sz ++ written_family fam)))) [])
    = Some (c, MState pv []
                 ((5%nat, fam) :: (4%nat, sz) ::
                  captured 3 we (captured 2 va (captured 1 st [])))).
Proof.
  intros Hst Hva Hwe (_ & _ & S4 & V4 & W4 & Z4) F.
  set (r4 := sz ++ written_family fam) in *.
  set (r3 := written we r4). set (r2 := written va r3).
  assert (S3 : starts_later r3 = true) by (apply written_weight_later; assumption).
  assert (V3 : variant_skips r3) by (apply written_weight_variant_skips; assumption).
  assert (S2 : starts_later r2 = true) by (apply written_variant_later; assumption).
  destruct (@style_read st r2 [] Hst S2) as (a1 & s1 & b1 & A1 & B1).
  assert (P1 : at_start (after_field st None))
    by (apply after_field_at_start; left; reflexivity).
  destruct (@variant_read va r3 (after_field st None) (captured 1 st []) Hva V3 S3 P1)
    as (a2 & s2 & b2 & A2 & B2).
  pose proof (@after_field_at_start va _ P1) as P2.
  destruct (@weight_read we r4 (after_field va (after_field st None))
              (captured 2 va (captured 1 st [])) Hwe W4 S4 P2)
    as (a3 & s3 & b3 & A3 & B3).
  pose proof (@after_field_at_start we _ P2) as P3.
  destruct (Z4 (after_field we (after_field va (after_field st None)))
               (captured 3 we (captured 2 va (captured 1 st []))) P3)
    as (pv4 & A4).
  destruct (@family_read fam pv4
              ((4%nat, sz) :: captured 3 we (captured 2 va (captured 1 st []))) F)
    as (c5 & pv5 & A5).
  eexists _, pv5. unfold font_re. cbn [seqs].
  eapply first_seq; [reflexivity|].
  eapply first_seq; [apply ws_none; apply written_nonspace; assumption|].
  eapply field_then; [exact A1|exact B1|].
  eapply field_then; [exact A2|exact B2|].
  eapply field_then; [exact A3|exact B3|].
  eapply first_seq; [exact A4|exact A5].
Qed.

End ReadBack.

Section RoundTrip.
Import Regex Font.

Lemma exec_first (r : regex) (s c : jstr) (m : mstate) :
  first_match r (MState None s []) = Some (c, m) -> exec r s = Some m.
Proof.
  unfold first_match, exec. intro H.
  destruct s as [|a s]; cbn [exec_from];
    destruct (ms r _) as [|x l]; try discriminate;
    cbn in H; injection H as ->; reflexivity.
Qed.

Lemma one_of_nonempty (l : list string) (x : jstr) :
  forallb (fun k => negb (Js.eqb (lit k) [])) l = true ->
  one_of l x = true -> x <> [].
Proof.
  intros A H. apply one_of_cases in H. destruct H as (k & I & E).
  apply eqb_eq in E. subst x.
  pose proof (proj1 (forallb_forall _ l) A k I) as B. cbn beta in B.
  intro Z. rewrite Z in B. discriminate.
Qed.

Lemma or_else_captured (i : nat) (x : jstr) (cs : list (nat * jstr)) :
  x <> [] -> get_cap i cs = None ->
  or_else (get_cap i (captured i x cs)) normal = x.
Proof.
  intros NE G. unfold captured. destruct (Js.eqb x normal) eqn:E.
  - rewrite G. cbn. symmetry. apply eqb_eq. exact E.
  - cbn [get_cap]. rewrite Nat.eqb_refl. destruct x; [congruence|reflexivity].
Qed.

Lemma get_cap_captured_other (i j : nat) (x : jstr) (cs : list (nat * jstr)) :
  Nat.eqb i j = false -> get_cap i (captured j x cs) = get_cap i cs.
Proof.
  intro N. unfold captured. destruct (Js.eqb x normal); [reflexivity|].
  cbn [get_cap]. rewrite N. reflexivity.
Qed.

(** [componentsToFont] writes the fields in order, each non-neutral one
    followed by a space, and the family last. *)
Lemma components_written (f st va we sz fam : jstr) :
  st <> [] -> va <> [] -> we <> [] -> sz <> [] -> Js.eqb sz medium = false ->
  componentsToFont (Components f (Some st) (Some va) (Some we) (Some sz) (Some fam)) =
  written st (written va (written we (sz ++ written_family fam))).
Proof.
  intros Nst Nva Nwe Nsz M.
  unfold componentsToFont, push_unless, push_if, written, written_family.
  cbn [fontStyle fontVariant fontWeight fontSize fontFamily font truthy].
  rewrite M.
  destruct st as [|s0 st]; [congruence|].
  destruct va as [|v0 va]; [congruence|].
  destruct we as [|w0 we]; [congruence|].
  destruct sz as [|z0 sz]; [congruence|].
  destruct (Js.eqb (s0 :: st) normal), (Js.eqb (v0 :: va) normal),
    (Js.eqb (w0 :: we) normal), fam as [|a fam];
    cbn [negb andb app join]; repeat rewrite <- app_assoc;
    cbn [app]; try rewrite app_nil_r; reflexivity.
Qed.

(** Reading back what was written gives the components written. *)
Lemma read_back_components (st va we sz fam : jstr) :
  one_of styles st = true -> one_of variants va = true -> one_of weights we = true ->
  readable_size sz (written_family fam) ->
  plain_family fam = true ->
  let s := written st (written va (written we (sz ++ written_family fam))) in
  fontToComponents s =
  Components s (Some st) (Some va) (Some we) (Some sz) (Some fam).
Proof.
  intros Hst Hva Hwe Hsz F s.
  destruct (@font_read_back st va we sz fam Hst Hva Hwe Hsz F) as (c & pv & R).
  fold s in R. apply exec_first in R.
  unfold fontToComponents. rewrite R. cbn [caps].
  cbn [get_cap Nat.eqb].
  rewrite (@get_cap_captured_other 1 3), (@get_cap_captured_other 1 2) by reflexivity.
  rewrite (@get_cap_captured_other 2 3) by reflexivity.
  assert (Nst : st <> []) by exact (@one_of_nonempty styles st eq_refl Hst).
  assert (Nva : va <> []) by exact (@one_of_nonempty variants va eq_refl Hva).
  assert (Nwe : we <> []) by exact (@one_of_nonempty weights we eq_refl Hwe).
  rewrite !or_else_captured
    by (assumption || (rewrite ?get_cap_captured_other by reflexivity; reflexivity)).
  destruct Hsz as (Nsz & _).
  f_equal. f_equal. destruct sz; [congruence|reflexivity].
Qed.

Lemma explicit_size_readable (sz fam : jstr) :
  (number_with_unit sz || one_of size_words sz)%bool = true ->
  readable_size sz (written_family fam).
Proof.
  intro H. apply orb_true_iff in H. destruct H as [H|H].
  - destruct (@number_with_unit_spec sz H) as (ds & u & -> & D & NE & L & UL).
    apply number_readable; try assumption. apply written_family_space.
  - apply keyword_readable. exact H.
Qed.

End RoundTrip.

(** ** What [fontToComponents] reports, and what [componentsToFont] reads *)

Section Captures.
Import Regex.

Lemma in_ms_seq (r1 r2 : regex) (st : mstate) (x : jstr * mstate) :
  In x (ms (Seq r1 r2) st) ->
  exists y z, In y (ms r1 st) /\ In z (ms r2 (snd y)) /\ snd x = snd z.
Proof.
  cbn [ms]. intro H. apply in_flat_map in H. destruct H as (y & Hy & H).
  apply in_map_iff in H. destruct H as (z & <- & Hz).
  exists y, z. repeat split; assumption.
Qed.

Variable P : nat -> jstr -> Prop.

Let all_ok (cs : list (nat * jstr)) : Prop :=
  forall i c, In (i, c) cs -> P i c.

(** Matching adds to the captures only what the groups allow. *)
Lemma ms_caps (r : regex) :
  groups_ok P r ->
  forall st x, all_ok (caps st) -> In x (ms r st) -> all_ok (caps (snd x)).
Proof.
  induction r as [|w|p|r1 IH1 r2 IH2|r1 IH1 r2 IH2|r IH|p|p lo extra|i r IH| | |];
    intros G st x A H; cbn [ms] in H.
  - destruct H as [<-|[]]. exact A.
  - destruct (prefixb w (rest st)); [|destruct H].
    destruct H as [<-|[]]. exact A.
  - destruct (rest st) as [|a s']; [destruct H|].
    destruct (p a); [|destruct H]. destruct H as [<-|[]]. exact A.
  - destruct G as [G1 G2].
    apply in_flat_map in H. destruct H as (y & Hy & H).
    apply in_map_iff in H. destruct H as (z & <- & Hz).
    cbn [app_run snd]. apply (IH2 G2 (snd y) z); [|exact Hz].
    apply (IH1 G1 st y A Hy).
  - destruct G as [G1 G2]. apply in_app_or in H. destruct H as [H|H].
    + apply (IH1 G1 st x A H).
    + apply (IH2 G2 st x A H).
  - apply in_app_or in H. destruct H as [H|[<-|[]]]; [|exact A].
    apply filter_In in H. destruct H as [H _]. apply (IH G st x A H).
  - apply in_map_iff in H. destruct H as (y & <- & _). exact A.
  - apply in_map_iff in H. destruct H as (y & <- & _). exact A.
  - destruct G as [G1 G2].
    apply in_map_iff in H. destruct H as (y & <- & Hy).
    cbn [cap_run snd set_cap caps]. intros j c [E|I].
    + injection E as <- <-. apply (G1 st y Hy).
    + apply (IH G2 st y A Hy j c I).
  - destruct (word_boundary st); [|destruct H]. destruct H as [<-|[]]. exact A.
  - destruct (prev st); [destruct H|]. destruct H as [<-|[]]. exact A.
  - destruct (rest st); [|destruct H]. destruct H as [<-|[]]. exact A.
Qed.

Lemma exec_from_caps (r : regex) (s : jstr) :
  groups_ok P r ->
  forall pv m, exec_from r pv s = Some m -> all_ok (caps m).
Proof.
  intro G. induction s as [|a s IH]; intros pv m H; cbn [exec_from] in H.
  - destruct (ms r (MState pv [] [])) as [|x l] eqn:E; [discriminate|].
    injection H as <-. apply (ms_caps r G (MState pv [] []) x).
    + intros i c [].
    + rewrite E. left. reflexivity.
  - destruct (ms r (MState pv (a :: s) [])) as [|x l] eqn:E.
    + apply (IH _ _ H).
    + injection H as <-. apply (ms_caps r G (MState pv (a :: s) []) x).
      * intros i c [].
      * rewrite E. left. reflexivity.
Qed.

Lemma get_cap_in (i : nat) (cs : list (nat * jstr)) (c : jstr) :
  get_cap i cs = Some c -> In (i, c) cs.
Proof.
  induction cs as [|[j d] cs IH]; cbn [get_cap]; [discriminate|].
  destruct (Nat.eqb i j) eqn:E.
  - intro H. injection H as ->. apply Nat.eqb_eq in E. subst j. left. reflexivity.
  - intro H. right. apply IH. exact H.
Qed.

End Captures.

Section Keywords.
Import Regex Font.

(** An alternation of literal words consumes one of them. *)
Lemma ms_alts_words (ws : list string) (l : string) (st : mstate) (x : jstr * mstate) :
  In x (ms (alts ws (Lit (lit l))) st) -> one_of (ws ++ [l]) (fst x) = true.
Proof.
  induction ws as [|w ws IH]; cbn [alts ms app].
  - destruct (prefixb (lit l) (rest st)); [|intros []].
    intros [<-|[]]. cbn [fst one_of existsb]. rewrite eqb_refl. reflexivity.
  - intro H. apply in_app_or in H. destruct H as [H|H].
    + destruct (prefixb (lit w) (rest st)); [|destruct H].
      destruct H as [<-|[]]. cbn [fst one_of existsb]. rewrite eqb_refl. reflexivity.
    + unfold one_of in *. cbn [existsb]. rewrite (IH H). apply orb_true_r.
Qed.

Lemma star_runs_class (p : N -> bool) (s : jstr) :
  forall pv x, In x (star_runs p pv s) -> forallb p (fst x) = true.
Proof.
  induction s as [|a s IH]; intros pv x H; cbn [star_runs] in H.
  - destruct H as [<-|[]]. reflexivity.
  - destruct (p a) eqn:E.
    + apply in_app_or in H. destruct H as [H|[<-|[]]]; [|reflexivity].
      apply in_map_iff in H. destruct H as (y & <- & Hy).
      cbn [cons_run fst forallb]. rewrite E. apply (IH _ _ Hy).
    + destruct H as [<-|[]]. reflexivity.
Qed.

Lemma font_re_groups : groups_ok cap_ok font_re.
Proof.
  unfold font_re, field. cbn [seqs groups_ok].
  repeat split.
  - intros st x H. exact (ms_alts_words _ _ _ _ H).
  - intros st x H. exact (ms_alts_words _ _ _ _ H).
  - intros st x H. exact (ms_alts_words _ _ _ _ H).
  - intros st x H. cbn [ms] in H. apply in_map_iff in H.
    destruct H as (y & <- & Hy). cbn [of_run fst cap_ok].
    apply (star_runs_class _ _ _ _ Hy).
Qed.

Lemma or_else_ok (i : nat) (cs : list (nat * jstr)) (d : jstr) :
  (forall j c, In (j, c) cs -> cap_ok j c) -> cap_ok i d ->
  cap_ok i (or_else (get_cap i cs) d).
Proof.
  intros A D. destruct (get_cap i cs) as [[|a c]|] eqn:E; cbn [or_else]; try exact D.
  apply (A i (a :: c)). apply get_cap_in. exact E.
Qed.

End Keywords.

(** X1. Whatever string is parsed, the style, the variant and the weight
    that [fontToComponents] reports are alternatives of the pattern
    (style: normal, italic, oblique, inherit; variant: normal,
    small-caps, inherit; weight: normal, bold, bolder, lighter, 100 to
    900, inherit), and the family holds no line terminator. *)
Theorem X1_parse_reports_keywords (s : jstr) :
  let c := Font.fontToComponents s in
  field_is (fun x => one_of styles x = true) (Font.fontStyle c) /\
  field_is (fun x => one_of variant_keywords x = true) (Font.fontVariant c) /\
  field_is (fun x => one_of weight_keywords x = true) (Font.fontWeight c) /\
  field_is (fun x => forallb Regex.is_dot x = true) (Font.fontFamily c).
Proof.
  unfold Font.fontToComponents.
  destruct (Regex.exec Font.font_re s) as [m|] eqn:E; cbn; [|repeat split].
  pose proof (@exec_from_caps cap_ok Font.font_re s font_re_groups None m E) as A.
  split; [exact (or_else_ok 1 (Regex.caps m) Font.normal A eq_refl)|].
  split; [exact (or_else_ok 2 (Regex.caps m) Font.normal A eq_refl)|].
  split; [exact (or_else_ok 3 (Regex.caps m) Font.normal A eq_refl)|].
  destruct (Regex.get_cap 5 (Regex.caps m)) as [c|] eqn:G; [|exact I].
  exact (A 5%nat c (get_cap_in _ _ G)).
Qed.

Section NoWordAtStart.
Import Regex Font.

Lemma no_boundary_runs (s : jstr) :
  forall pv x,
    is_word_opt pv = false -> starts_without_word s = true ->
    In x (star_runs is_space pv s) ->
    is_word_opt (fst (snd x)) = false /\ is_word_opt (hd_error (snd (snd x))) = false.
Proof.
  induction s as [|c s IH]; intros pv x P H I; cbn [star_runs] in I.
  - destruct I as [<-|[]]. split; [exact P|reflexivity].
  - cbn [starts_without_word] in H. apply andb_true_iff in H. destruct H as [W H].
    apply negb_true_iff in W.
    destruct (is_space c).
    + apply in_app_or in I. destruct I as [I|[<-|[]]].
      * apply in_map_iff in I. destruct I as (y & <- & Iy).
        cbn [cons_run snd]. apply (IH (Some c) y); [exact W|exact H|exact Iy].
      * split; [exact P|exact W].
    + destruct I as [<-|[]]. split; [exact P|exact W].
Qed.

Lemma field_needs_boundary (i : nat) (r : regex) (st : mstate) :
  word_boundary st = false -> ms (field i r) st = [].
Proof. intro H. unfold field. cbn [ms]. rewrite H. reflexivity. Qed.

Lemma flat_map_all_nil (A B : Type) (f : A -> list B) (l : list A) :
  (forall x, In x l -> f x = []) -> flat_map f l = [].
Proof.
  induction l as [|a l IH]; intro H; [reflexivity|].
  cbn [flat_map]. rewrite (H a (or_introl eq_refl)). apply IH.
  intros x I. apply H. right. exact I.
Qed.

Lemma font_re_needs_word (s : jstr) :
  starts_without_word s = true -> forall pv, exec_from font_re pv s = None.
Proof.
  assert (A : forall t pv, starts_without_word t = true -> is_word_opt pv = false ->
              ms font_re (MState pv t []) = []).
  { intros t pv H P. unfold font_re. cbn [seqs].
    change (ms (Seq Bol ?r) ?st)
      with (flat_map (fun x => List.map (app_run (fst x)) (ms r (snd x))) (ms Bol st)).
    cbn [ms prev]. destruct pv; [reflexivity|].
    cbn [flat_map snd fst]. rewrite app_nil_r.
    match goal with
    | |- List.map _ ?l = [] => assert (Z : l = []); [|rewrite Z; reflexivity]
    end.
    change (ms (Seq ws ?r) ?st)
      with (flat_map (fun x => List.map (app_run (fst x)) (ms r (snd x))) (ms ws st)).
    apply flat_map_all_nil. intros x I.
    match goal with
    | |- List.map _ ?l = [] => assert (Z : l = []); [|rewrite Z; reflexivity]
    end.
    unfold ws in I. cbn [ms prev rest] in I. apply in_map_iff in I.
    destruct I as (y & <- & Iy).
    destruct (@no_boundary_runs t None y eq_refl H Iy) as [B1 B2].
    cbn [of_run snd].
    change (ms (Seq (field 1 style_re) ?r) ?st)
      with (flat_map (fun x => List.map (app_run (fst x)) (ms r (snd x)))
              (ms (field 1 style_re) st)).
    rewrite field_needs_boundary; [reflexivity|].
    unfold word_boundary. cbn [prev rest]. rewrite B1, B2. reflexivity. }
  intro H.
  assert (B : forall t pv, pv <> None -> exec_from font_re pv t = None).
  { induction t as [|c t IH]; intros pv P; cbn [exec_from].
    - destruct pv; [reflexivity|congruence].
    - assert (Z : ms font_re (MState pv (c :: t) []) = []).
      { unfold font_re. cbn [seqs].
        change (ms (Seq Bol ?r) ?st)
          with (flat_map (fun x => List.map (app_run (fst x)) (ms r (snd x))) (ms Bol st)).
        cbn [ms prev]. destruct pv; [reflexivity|congruence]. }
      rewrite Z. apply IH. discriminate. }
  intro pv. destruct s as [|c s]; cbn [exec_from].
  - destruct pv as [a|].
    + apply (B [] (Some a)). discriminate.
    + rewrite (A [] None H eq_refl). reflexivity.
  - destruct pv as [a|].
    + apply (B (c :: s) (Some a)). discriminate.
    + rewrite (A (c :: s) None H eq_refl). apply B. discriminate.
Qed.

End NoWordAtStart.

(** X2. A font string that, after its leading white space, is at its
    end or begins with a character that is no word character -- a
    quoted family by itself, for one -- is not parsed: the pattern of
    [fontToComponents] asks for a word boundary there.  The result has
    nothing but [font], and [componentsToFont] of it gives the string
    back as it is. *)
Theorem X2_unparsable_font_is_kept (s : jstr) :
  starts_without_word s = true ->
  ~ accepted s /\
  only_font (Font.fontToComponents s) /\
  Font.componentsToFont (Font.fontToComponents s) = s.
Proof.
  intro H. pose proof (@font_re_needs_word s H None) as E.
  unfold accepted, Font.fontToComponents, Regex.exec. rewrite E.
  split; [intro N; apply N; reflexivity|].
  split; [repeat split|reflexivity].
Qed.

Lemma X2_unparsable_font_is_kept_witness :
  ~ accepted (lit "'Comic Sans MS'") /\
  only_font (Font.fontToComponents (lit "'Comic Sans MS'")) /\
  Font.componentsToFont (Font.fontToComponents (lit "'Comic Sans MS'"))
  = lit "'Comic Sans MS'".
Proof.
  apply (@X2_unparsable_font_is_kept (lit "'Comic Sans MS'")).
  reflexivity.
Defined.

(** X3. Writing explicit components and reading them back gives the
    components again: for a style that is normal, italic, oblique or
    inherit, a variant that is normal or small-caps, a weight that is
    normal, bold, bolder, lighter or one of 100 to 900, a size that is
    a keyword other than medium or a whole number with a unit of two to
    five lower-case letters, and a family on one line without leading
    white space, [fontToComponents (componentsToFont c)] has the five
    fields of [c]. *)
Theorem X3_written_components_read_back (c : Font.components) :
  explicit c = true ->
  same_font (Font.fontToComponents (Font.componentsToFont c)) c.
Proof.
  intro H.
  destruct c as [f [st|] [va|] [we|] [sz|] [fam|]]; cbn in H; try discriminate.
  apply andb_true_iff in H. destruct H as [H Hfam].
  apply andb_true_iff in H. destruct H as [H Hsz].
  apply andb_true_iff in H. destruct H as [H Hwe].
  apply andb_true_iff in H. destruct H as [Hst Hva].
  pose proof (@explicit_size_readable sz fam Hsz) as R.
  pose proof R as (Nsz & M & _).
  rewrite components_written.
  - rewrite (@read_back_components st va we sz fam Hst Hva Hwe R Hfam).
    unfold same_font. cbn. repeat split.
  - exact (@one_of_nonempty styles st eq_refl Hst).
  - exact (@one_of_nonempty variants va eq_refl Hva).
  - exact (@one_of_nonempty weights we eq_refl Hwe).
  - exact Nsz.
  - exact M.
Qed.

Lemma X3_written_components_read_back_witness :
  let c := Font.Components [] (Some (lit "italic")) (Some (lit "normal"))
             (Some (lit "700")) (Some (lit "x-large")) (Some (lit "'Comic Sans MS', cursive")) in
  same_font (Font.fontToComponents (Font.componentsToFont c)) c.
Proof.
  apply X3_written_components_read_back. vm_compute. reflexivity.
Defined.

(** ** Text that fits is left alone *)

Section WrapFits.
Variable measureText : jstr -> Q.
Variable wordWrapWidth : Q.
Hypothesis additive : forall a b, measureText (a ++ b) == measureText a + measureText b.
Hypothesis positive : forall s, 0 <= measureText s.

Lemma no_break_decisions (ws : list jstr) :
  forall j sl,
    measureText (flat_map (fun w => w ++ [space]) ws) <= sl ->
    wrap_decisions measureText wordWrapWidth j ws sl = List.map (pair false) ws.
Proof.
  induction ws as [|w ws IH]; intros j sl H; [reflexivity|].
  rewrite flat_map_cons1 in H.
  pose proof (additive (w ++ [space]) (flat_map (fun w => w ++ [space]) ws)) as E1.
  pose proof (additive w [space]) as E2.
  pose proof (positive (flat_map (fun w => w ++ [space]) ws)) as P1.
  cbn [wrap_decisions List.map].
  assert (G : Num.Qgtb (measureText w + measureText [space]) sl = false)
    by (apply Qgtb_false; lra).
  rewrite G. f_equal. apply IH. lra.
Qed.

Lemma pieces_unbroken (ws : list jstr) :
  flat_map piece (List.map (pair false) ws) = flat_map (fun w => w ++ [space]) ws.
Proof.
  induction ws as [|w ws IH]; [reflexivity|].
  cbn [List.map]. rewrite !flat_map_cons1, IH. reflexivity.
Qed.

Lemma line_out_unbroken (l : jstr) :
  measureText (l ++ [space]) <= wordWrapWidth ->
  line_out measureText wordWrapWidth l = l ++ [space].
Proof.
  intro H. unfold line_out.
  assert (E : flat_map (fun w => w ++ [space]) (split space l) = l ++ [space]).
  { rewrite spaced_join by apply split_nonempty. rewrite join_split. reflexivity. }
  rewrite no_break_decisions by (rewrite E; exact H).
  rewrite pieces_unbroken. exact E.
Qed.

End WrapFits.

(** X4. Text that fits is not broken: when widths add up over
    concatenation and are never negative, and every line of the text,
    with the space that is put after its last word, is within the
    budget, [runWordWrap] returns the lines of the text, each followed
    by a space, with the line breaks where they were. *)
Theorem X4_text_that_fits_is_not_broken
        (measureText : jstr -> Q) (budget : Q) (text : jstr) :
  (forall a b, measureText (a ++ b) == measureText a + measureText b) ->
  (forall s, 0 <= measureText s) ->
  (forall l, In l (split newline text) -> measureText (l ++ [space]) <= budget) ->
  WordWrap.runWordWrap measureText budget text =
  join [newline] (List.map (fun l => l ++ [space]) (split newline text)).
Proof.
  intros additive positive fits.
  rewrite runWordWrap_eq. f_equal.
  apply map_ext_in. intros l Hl.
  apply line_out_unbroken; try assumption. apply fits. exact Hl.
Qed.

Lemma demo_measure_positive (s : jstr) : 0 <= demo_measure [] s.
Proof.
  unfold demo_measure. apply Qmult_le_0_compat; [discriminate|].
  change 0 with (inject_Z 0). rewrite <- Zle_Qle. lia.
Qed.

Lemma X4_text_that_fits_is_not_broken_witness :
  WordWrap.runWordWrap (demo_measure []) 70 (lit "aa bb" ++ [newline] ++ lit "cc") =
  join [newline]
    (List.map (fun l => l ++ [space]) (split newline (lit "aa bb" ++ [newline] ++ lit "cc"))).
Proof.
  apply (@X4_text_that_fits_is_not_broken (demo_measure []) 70
           (lit "aa bb" ++ [newline] ++ lit "cc")).
  - exact demo_measure_additive.
  - exact demo_measure_positive.
  - intros l [<-|[<-|[]]]; vm_compute; discriminate.
Defined.

(** ** Tab stops given as an array, for any array and any line *)

Section TabStopsGeneral.
Import Num Layout.

Lemma add_nan_r (a : num) : add a NaN = NaN.
Proof. destruct a; reflexivity. Qed.

Lemma tab_offset_sum (stops : list Q) (k : nat) :
  (k <= List.length stops)%nat -> tab_offset stops k = Num (stops_sum stops k).
Proof.
  unfold stops_sum. induction k as [|k IH]; intro H; [reflexivity|].
  cbn [tab_offset]. rewrite IH by lia.
  destruct (nth_error stops k) as [q|] eqn:E.
  - unfold index. rewrite E. cbn [add].
    assert (F : firstn (S k) stops = firstn k stops ++ [q]).
    { clear IH H. revert stops E. induction k as [|k IH]; intros [|a stops] E;
        cbn in E; try discriminate.
      - injection E as ->. reflexivity.
      - cbn [firstn app]. f_equal. apply IH. exact E. }
    rewrite F, fold_left_app. reflexivity.
  - apply nth_error_None in E. lia.
Qed.

Lemma tab_offset_nan (stops : list Q) (k : nat) :
  (List.length stops < k)%nat -> tab_offset stops k = NaN.
Proof.
  induction k as [|k IH]; intro H; [lia|].
  cbn [tab_offset]. unfold index.
  assert (E : nth_error stops k = None) by (apply nth_error_None; lia).
  rewrite E. apply add_nan_r.
Qed.

Lemma tab_offset_cases (stops : list Q) (k : nat) :
  tab_offset stops k =
  if (k <=? List.length stops)%nat then Num (stops_sum stops k) else NaN.
Proof.
  destruct (k <=? List.length stops)%nat eqn:E.
  - apply Nat.leb_le in E. apply tab_offset_sum. exact E.
  - apply Nat.leb_gt in E. apply tab_offset_nan. exact E.
Qed.

Lemma render_array_loop_nth (stops : list Q) (x y : Q) (fill : bool) (text : list jstr) :
  forall c k seg,
    nth_error text k = Some seg ->
    nth_error (render_array_loop stops c text x y fill (tab_offset stops (c - 1))) k =
    Some (Draw fill seg (add (Num x) (tab_offset stops (c + k))) y).
Proof.
  induction text as [|s text IH]; intros c k seg H; [destruct k; discriminate|].
  cbn [render_array_loop]. rewrite loop_tab_step.
  destruct k as [|k]; cbn [nth_error] in *.
  - injection H as ->. rewrite Nat.add_0_r. reflexivity.
  - replace (tab_offset stops c) with (tab_offset stops (S c - 1)) by (f_equal; lia).
    rewrite (IH (S c) k seg H).
    replace (S c + k)%nat with (c + S k)%nat by lia. reflexivity.
Qed.

Lemma render_array_loop_length (stops : list Q) (x y : Q) (fill : bool) (text : list jstr) :
  forall c tab,
    List.length (render_array_loop stops c text x y fill tab) = List.length text.
Proof.
  induction text as [|s text IH]; intros c tab; [reflexivity|].
  cbn [render_array_loop List.length]. rewrite IH. reflexivity.
Qed.

Lemma max_nan_absorbs (A : Type) (f : A -> num) (l : list A) :
  fold_left (fun m x => max m (f x)) l NaN = NaN.
Proof. induction l as [|a l IH]; [reflexivity|exact IH]. Qed.

Lemma max_nan_line (A : Type) (f : A -> num) (l : list A) (x : A) :
  In x l -> f x = NaN -> forall a, fold_left (fun m x => max m (f x)) l a = NaN.
Proof.
  induction l as [|b l IH]; intros I E a; [destruct I|].
  cbn [fold_left]. destruct I as [->|I].
  - rewrite E. replace (max a NaN) with NaN by (destruct a; reflexivity).
    apply max_nan_absorbs.
  - apply IH; assumption.
Qed.

Lemma Qmax_ge_l (a b : Q) : a <= Qmax a b.
Proof.
  unfold Qmax. destruct (Qle_bool a b) eqn:E.
  - apply Qle_bool_iff. exact E.
  - apply Qle_refl.
Qed.

Lemma Qmax_ge_r (a b : Q) : b <= Qmax a b.
Proof.
  unfold Qmax. destruct (Qle_bool a b) eqn:E.
  - apply Qle_refl.
  - apply Qlt_le_weak. apply Qnot_le_lt. intro L.
    apply Qle_bool_iff in L. congruence.
Qed.

Lemma max_bounds (A : Type) (f : A -> num) (l : list A) :
  forall a w,
    fold_left (fun m x => max m (f x)) l (Num a) = Num w ->
    a <= w /\ forall x, In x l -> exists wx, f x = Num wx /\ wx <= w.
Proof.
  induction l as [|b l IH]; intros a w H; cbn [fold_left] in H.
  - injection H as ->. split; [apply Qle_refl|intros x []].
  - destruct (f b) as [q|] eqn:E; cbn [max] in H.
    + destruct (IH _ _ H) as [L R]. split.
      * eapply Qle_trans; [apply Qmax_ge_l|exact L].
      * intros x [<-|I].
        -- exists q. split; [exact E|].
           eapply Qle_trans; [apply Qmax_ge_r|exact L].
        -- apply R. exact I.
    + rewrite max_nan_absorbs in H. discriminate.
Qed.

End TabStopsGeneral.

(** X5. With tab stops given as an array, [renderTabLine] issues one
    drawing call per tab-separated segment of the line, in order; the
    segment at index k is drawn at the start of the line plus the sum
    of the first k entries of the array, and at NaN when the array has
    fewer than k entries. *)
Theorem X5_array_tab_positions
        (measureText : jstr -> Q) (stops : list Q) (line : jstr)
        (x y : Q) (fill : bool) (k : nat) (seg : jstr) :
  nth_error (split tabchar line) k = Some seg ->
  List.length (Layout.renderTabLine measureText (Layout.TabStops stops) line x y fill)
  = List.length (split tabchar line) /\
  nth_error (Layout.renderTabLine measureText (Layout.TabStops stops) line x y fill) k =
  Some (Layout.Draw fill seg
          (if (k <=? List.length stops)%nat
           then Num.Num (x + stops_sum stops k) else Num.NaN) y).
Proof.
  intro H. unfold Layout.renderTabLine. split.
  - apply render_array_loop_length.
  - change (Num.Num 0) with (tab_offset stops (0 - 1)).
    rewrite (@render_array_loop_nth stops x y fill _ 0%nat k seg H).
    cbn [Nat.add]. rewrite tab_offset_cases.
    destruct (k <=? List.length stops)%nat; reflexivity.
Qed.

Lemma X5_array_tab_positions_witness :
  List.length (Layout.renderTabLine (demo_measure []) (Layout.TabStops [30; 80])
                 (lit "a" ++ tabchar :: lit "b" ++ tabchar :: lit "c" ++ tabchar :: lit "d")
                 5 20 true)
  = List.length (split tabchar
                   (lit "a" ++ tabchar :: lit "b" ++ tabchar :: lit "c" ++ tabchar :: lit "d")) /\
  nth_error (Layout.renderTabLine (demo_measure []) (Layout.TabStops [30; 80])
               (lit "a" ++ tabchar :: lit "b" ++ tabchar :: lit "c" ++ tabchar :: lit "d")
               5 20 true) 3 =
  Some (Layout.Draw true (lit "d")
          (if (3 <=? List.length [30; 80])%nat
           then Num.Num (5 + stops_sum [30; 80] 3) else Num.NaN) 20).
Proof.
  apply (@X5_array_tab_positions (demo_measure []) [30; 80]
           (lit "a" ++ tabchar :: lit "b" ++ tabchar :: lit "c" ++ tabchar :: lit "d")
           5 20 true 3 (lit "d")).
  reflexivity.
Defined.

(** X6. A line with more tabs than the array of tab stops has entries
    is measured as NaN, and one such line makes [maxLineWidth] NaN
    whatever the other lines are. *)
Theorem X6_more_tabs_than_stops
        (measureText : jstr -> Q) (stops : list Q) (strokeThickness paddingX : Q)
        (l : jstr) (lines : list jstr) :
  (List.length stops < List.length (split tabchar l) - 1)%nat ->
  Layout.reported_width measureText (Layout.TabStops stops) strokeThickness paddingX l
  = Num.NaN /\
  (In l lines ->
   Layout.max_line_width measureText (Layout.TabStops stops) strokeThickness paddingX lines
   = Num.NaN).
Proof.
  intro H.
  assert (E : Layout.reported_width measureText (Layout.TabStops stops)
                strokeThickness paddingX l = Num.NaN).
  { unfold Layout.reported_width, Layout.line_width. cbn [Layout.tabs_is_zero].
    change (Num.Num 0) with (tab_offset stops (0 - 1)).
    rewrite array_tab_loop_last by apply split_nonempty.
    cbn [Nat.add]. rewrite tab_offset_nan by exact H. reflexivity. }
  split; [exact E|].
  intro I. unfold Layout.max_line_width.
  apply (@max_nan_line jstr _ lines l I E).
Qed.

Lemma X6_more_tabs_than_stops_witness :
  Layout.reported_width (demo_measure []) (Layout.TabStops [30]) 0 0
    (lit "a" ++ tabchar :: lit "b" ++ tabchar :: lit "c") = Num.NaN /\
  (In (lit "a" ++ tabchar :: lit "b" ++ tabchar :: lit "c")
      [lit "x"; lit "a" ++ tabchar :: lit "b" ++ tabchar :: lit "c"] ->
   Layout.max_line_width (demo_measure []) (Layout.TabStops [30]) 0 0
     [lit "x"; lit "a" ++ tabchar :: lit "b" ++ tabchar :: lit "c"] = Num.NaN).
Proof.
  apply (@X6_more_tabs_than_stops (demo_measure []) [30] 0 0
           (lit "a" ++ tabchar :: lit "b" ++ tabchar :: lit "c")
           [lit "x"; lit "a" ++ tabchar :: lit "b" ++ tabchar :: lit "c"]).
  vm_compute. lia.
Defined.

(** X7. When [maxLineWidth] is a number, it is not negative, every line
    has a numeric width, and no line is wider than [maxLineWidth]. *)
Theorem X7_max_line_width_bounds
        (measureText : jstr -> Q) (tabs : Layout.tabs_t) (strokeThickness paddingX : Q)
        (lines : list jstr) (w : Q) :
  Layout.max_line_width measureText tabs strokeThickness paddingX lines = Num.Num w ->
  0 <= w /\
  forall l, In l lines ->
    exists wl,
      Layout.reported_width measureText tabs strokeThickness paddingX l = Num.Num wl /\
      wl <= w.
Proof.
  unfold Layout.max_line_width. intro H.
  exact (@max_bounds jstr _ lines 0 w H).
Qed.

Lemma X7_max_line_width_bounds_witness :
  0 <= 30 /\
  forall l, In l [lit "ab"; lit "abc"] ->
    exists wl,
      Layout.reported_width (demo_measure []) (Layout.TabSize 0) 0 0 l = Num.Num wl /\
      wl <= 30.
Proof.
  apply (@X7_max_line_width_bounds (demo_measure []) (Layout.TabSize 0) 0 0
           [lit "ab"; lit "abc"] 30).
  vm_compute. reflexivity.
Defined.

(** ** The height of the canvas *)

Section Height.
Import Num Layout.






End Height.



(** ** A scalar tab size *)

Section ScalarTabs.
Import Num Layout.
Variable measureText : jstr -> Q.
Variable g : Q.
Hypothesis g_pos : 0 < g.

Lemma g_nonzero : Qeq_bool g 0 = false.
Proof.
  destruct (Qeq_bool g 0) eqn:E; [|reflexivity].
  apply Qeq_bool_iff in E. lra.
Qed.

Lemma snapToCeil_ge (v : Q) : v <= snapToCeil v g.
Proof.
  unfold snapToCeil. rewrite g_nonzero.
  pose proof (Qle_ceiling (v / g)) as C.
  assert (E : g * (v / g) == v) by (apply Qmult_div_r; lra).
  rewrite <- E at 1. apply Qmult_le_l; assumption.
Qed.

Lemma snapToCeil_multiple (v : Q) : multiple_of g (snapToCeil v g).
Proof.
  unfold snapToCeil. rewrite g_nonzero. eexists. reflexivity.
Qed.

Lemma render_scalar_loop_length (text : list jstr) :
  forall x y fill,
    List.length (render_scalar_loop measureText g text x y fill) = List.length text.
Proof.
  induction text as [|s text IH]; intros x y fill; [reflexivity|].
  cbn [render_scalar_loop List.length]. rewrite IH. reflexivity.
Qed.

Lemma render_scalar_loop_nth (text : list jstr) :
  forall x y fill k d,
    nth_error (render_scalar_loop measureText g text x y fill) k = Some d ->
    exists q, draw_x d = Num q /\ multiple_of g q /\
              nth_error text k = Some (draw_text d) /\
              (k = 0%nat -> x <= q).
Proof.
  induction text as [|s text IH]; intros x y fill k d H;
    [destruct k; discriminate|].
  cbn [render_scalar_loop] in H. destruct k as [|k]; cbn [nth_error] in *.
  - injection H as <-. cbn [draw_x draw_text].
    exists (snapToCeil x g). repeat split.
    + apply snapToCeil_multiple.
    + intros _. apply snapToCeil_ge.
  - destruct (IH _ _ _ _ _ H) as (q & E & M & T & _).
    exists q. repeat split; try assumption. discriminate.
Qed.

Lemma render_scalar_loop_next (text : list jstr) :
  forall x y fill k d d',
    nth_error (render_scalar_loop measureText g text x y fill) k = Some d ->
    nth_error (render_scalar_loop measureText g text x y fill) (S k) = Some d' ->
    exists q q', draw_x d = Num q /\ draw_x d' = Num q' /\
                 q + inject_Z (Qceiling (measureText (draw_text d))) <= q'.
Proof.
  induction text as [|s text IH]; intros x y fill k d d' H H';
    [destruct k; discriminate|].
  cbn [render_scalar_loop] in H, H'. destruct k as [|k].
  - cbn [nth_error] in H, H'. injection H as <-. cbn [draw_x draw_text].
    destruct (render_scalar_loop_nth _ _ _ _ 0%nat H') as (q' & E' & _ & _ & L).
    exists (snapToCeil x g), q'. repeat split; [exact E'|].
    apply L. reflexivity.
  - cbn [nth_error] in H, H'. exact (IH _ _ _ _ _ _ H H').
Qed.

End ScalarTabs.

(** X9. With a positive scalar tab size, [renderTabLine] issues one
    drawing call per tab-separated segment, each at a whole multiple of
    the tab size; the first is at or after the start of the line, and
    each of the others is at or after the place where the segment
    before it ends (its position plus its width rounded up). *)
Theorem X9_scalar_tab_positions
        (measureText : jstr -> Q) (g : Q) (line : jstr) (x y : Q) (fill : bool) :
  0 < g ->
  let draws := Layout.renderTabLine measureText (Layout.TabSize g) line x y fill in
  List.length draws = List.length (split tabchar line) /\
  (forall k d, nth_error draws k = Some d ->
     exists q, Layout.draw_x d = Num.Num q /\ multiple_of g q /\
               nth_error (split tabchar line) k = Some (Layout.draw_text d) /\
               (k = 0%nat -> x <= q)) /\
  (forall k d d', nth_error draws k = Some d -> nth_error draws (S k) = Some d' ->
     exists q q', Layout.draw_x d = Num.Num q /\ Layout.draw_x d' = Num.Num q' /\
                  q + inject_Z (Qceiling (measureText (Layout.draw_text d))) <= q').
Proof.
  intros G draws. subst draws. unfold Layout.renderTabLine.
  split; [apply render_scalar_loop_length; exact G|]. split.
  - intros k d H. exact (@render_scalar_loop_nth measureText g G _ _ _ _ _ _ H).
  - intros k d d' H H'. exact (@render_scalar_loop_next measureText g G _ _ _ _ _ _ _ H H').
Qed.

Lemma X9_scalar_tab_positions_witness :
  let draws := Layout.renderTabLine (demo_measure []) (Layout.TabSize 100)
                 (lit "ab" ++ tabchar :: lit "c") 5 20 true in
  List.length draws = List.length (split tabchar (lit "ab" ++ tabchar :: lit "c")) /\
  (forall k d, nth_error draws k = Some d ->
     exists q, Layout.draw_x d = Num.Num q /\ multiple_of 100 q /\
               nth_error (split tabchar (lit "ab" ++ tabchar :: lit "c")) k
               = Some (Layout.draw_text d) /\
               (k = 0%nat -> 5 <= q)) /\
  (forall k d d', nth_error draws k = Some d -> nth_error draws (S k) = Some d' ->
     exists q q', Layout.draw_x d = Num.Num q /\ Layout.draw_x d' = Num.Num q' /\
                  q + inject_Z (Qceiling (demo_measure [] (Layout.draw_text d))) <= q').
Proof.
  apply (@X9_scalar_tab_positions (demo_measure []) 100
           (lit "ab" ++ tabchar :: lit "c") 5 20 true).
  reflexivity.
Defined.

(** ** Alignment in the text bounds, for any bounds *)

(** X10. With text bounds set and a canvas of numeric size,
    [updateTexture] places the pivot so that, for [boundsAlignH] right,
    the right edge of the canvas lies on the right edge of the bounds,
    and for left on the left edge; for [boundsAlignV] bottom the lower
    edges coincide, and for top the upper edges. *)
Theorem X10_bounds_edges (o : Text.text_obj) (b : Text.rectangle) (w h : Q) :
  Text.textBounds o = Some b ->
  Text.canvas_width o = Num.Num w -> Text.canvas_height o = Num.Num h ->
  (Text.boundsAlignH (Text.style o) = lit "right" ->
   exists px, Text.pivot_x (Text.updateTexture o) = Num.Num px /\
              - px + w == Text.rect_x b + Text.rect_width b) /\
  (Text.boundsAlignH (Text.style o) = lit "left" ->
   exists px, Text.pivot_x (Text.updateTexture o) = Num.Num px /\
              - px == Text.rect_x b) /\
  (Text.boundsAlignV (Text.style o) = lit "bottom" ->
   exists py, Text.pivot_y (Text.updateTexture o) = Num.Num py /\
              - py + h == Text.rect_y b + Text.rect_height b) /\
  (Text.boundsAlignV (Text.style o) = lit "top" ->
   exists py, Text.pivot_y (Text.updateTexture o) = Num.Num py /\
              - py == Text.rect_y b).
Proof.
  intros B W H.
  unfold Text.updateTexture. cbn [Text.pivot_x Text.pivot_y]. rewrite B, W, H.
  split; [|split; [|split]]; intro A; rewrite A; cbn; eexists;
    (split; [reflexivity|ring]).
Qed.

Lemma X10_bounds_edges_witness :
  let o := Text.with_style (Text.style_set_boundsAlignH (lit "right")) bounded_object in
  (Text.boundsAlignH (Text.style o) = lit "right" ->
   exists px, Text.pivot_x (Text.updateTexture o) = Num.Num px /\
              - px + 100 == Text.rect_x (Text.Rectangle 0 0 800 600)
                             + Text.rect_width (Text.Rectangle 0 0 800 600)) /\
  (Text.boundsAlignH (Text.style o) = lit "left" ->
   exists px, Text.pivot_x (Text.updateTexture o) = Num.Num px /\
              - px == Text.rect_x (Text.Rectangle 0 0 800 600)) /\
  (Text.boundsAlignV (Text.style o) = lit "bottom" ->
   exists py, Text.pivot_y (Text.updateTexture o) = Num.Num py /\
              - py + 40 == Text.rect_y (Text.Rectangle 0 0 800 600)
                            + Text.rect_height (Text.Rectangle 0 0 800 600)) /\
  (Text.boundsAlignV (Text.style o) = lit "top" ->
   exists py, Text.pivot_y (Text.updateTexture o) = Num.Num py /\
              - py == Text.rect_y (Text.Rectangle 0 0 800 600)).
Proof.
  apply (@X10_bounds_edges
           (Text.with_style (Text.style_set_boundsAlignH (lit "right")) bounded_object)
           (Text.Rectangle 0 0 800 600) 100 40); reflexivity.
Defined.

(** ** Invariants of the object *)

Section Invariants.
Variable measureText : jstr -> jstr -> Q.
Variable determineFontProperties : jstr -> Text.font_properties.
Variable number_toString : Num.num -> jstr.
Variable object_toString : nat -> jstr.

Let run := step measureText determineFontProperties number_toString object_toString.
Let layout := Text.updateText measureText determineFontProperties.

Lemma updateFont_canonical (c : Font.components) (o : Text.text_obj) :
  Text._fontComponents o = c -> canonical_font (Text.updateFont c o).
Proof.
  unfold canonical_font, Text.updateFont. intro E.
  destruct (Js.eqb (Text.style_font (Text.style o)) (Font.componentsToFont c)) eqn:F;
    cbn [negb].
  - apply eqb_eq in F. rewrite F, E. reflexivity.
  - unfold Text.updateTransform_if_parent.
    destruct (Text.parent _); cbn; rewrite E; reflexivity.
Qed.

Lemma set_text_fields (v : Text.value) (o o' : Text.text_obj) :
  Text.set_text number_toString object_toString v o = Text.Ok o' ->
  Text.style o' = Text.style o /\ Text._fontComponents o' = Text._fontComponents o /\
  Text.canvas_width o' = Text.canvas_width o /\
  Text.canvas_height o' = Text.canvas_height o /\
  Text.texture_width o' = Text.texture_width o /\
  Text.texture_height o' = Text.texture_height o /\
  Text._width o' = Text._width o /\ Text._height o' = Text._height o.
Proof.
  unfold Text.set_text. destruct (Text.text_differs v o).
  - destruct (Text.toString number_toString object_toString v) as [s|e]; cbn;
      [|discriminate].
    intro E. apply Ok_inj in E. subst o'.
    unfold Text.updateTransform_if_parent. destruct (Text.parent _); repeat split.
  - intro E. apply Ok_inj in E. subst o'. repeat split.
Qed.

Lemma assign_fields (c : setter_call) (o o' : Text.text_obj) :
  assign number_toString object_toString c o = Text.Ok o' ->
  Text.style_font (Text.style o') = Text.style_font (Text.style o) /\
  Text._fontComponents o' = Text._fontComponents o /\
  Text.canvas_width o' = Text.canvas_width o /\
  Text.canvas_height o' = Text.canvas_height o /\
  Text.texture_width o' = Text.texture_width o /\
  Text.texture_height o' = Text.texture_height o /\
  Text._width o' = Text._width o /\ Text._height o' = Text._height o.
Proof.
  destruct c; cbn [assign].
  1: { intro E. destruct (set_text_fields _ _ E) as (S & R). rewrite S. exact (conj eq_refl R). }
  all: intro E; apply Ok_inj in E; subst o'.
  all: unfold Text.set_fill, Text.set_align, Text.set_resolution, Text.set_tabs,
         Text.set_boundsAlignH, Text.set_boundsAlignV, Text.set_stroke,
         Text.set_strokeThickness, Text.set_wordWrap, Text.set_wordWrapWidth,
         Text.set_lineSpacing, Text.set_shadowOffsetX, Text.set_shadowOffsetY,
         Text.set_shadowColor, Text.set_shadowBlur, Text.set_shadowStroke,
         Text.set_shadowFill, Text.updateTransform_if_parent.
  all: match goal with
       | |- context [if ?b then _ else _] => destruct b
       end; cbn; try (destruct (Text.parent o)); repeat split.
Qed.

Lemma updateFont_fields (c : Font.components) (o : Text.text_obj) :
  let o' := Text.updateFont c o in
  Text.canvas_width o' = Text.canvas_width o /\
  Text.canvas_height o' = Text.canvas_height o /\
  Text.texture_width o' = Text.texture_width o /\
  Text.texture_height o' = Text.texture_height o /\
  Text._width o' = Text._width o /\ Text._height o' = Text._height o.
Proof.
  unfold Text.updateFont. destruct (negb _); [|repeat split].
  unfold Text.updateTransform_if_parent. destruct (Text.parent _); repeat split.
Qed.

Lemma construct_canonical (res : Q) (cw ch : Num.num) (text : Text.value)
      (a : option Text.style_arg) (o : Text.text_obj) :
  Text.construct measureText determineFontProperties number_toString object_toString
    res cw ch text a = Text.Ok o ->
  canonical_font o.
Proof.
  unfold Text.construct.
  destruct (match text with
            | Text.VUndefined => Text.Ok []
            | Text.VNull => Text.Ok []
            | _ => Text.toString number_toString object_toString text
            end) as [s|e]; cbn [Text.bind]; [|discriminate].
  intro E. apply Ok_inj in E. subst o. destruct s; reflexivity.
Qed.

Lemma step_canonical (p : op) (o o' : Text.text_obj) :
  run p o = Text.Ok o' -> canonical_font o -> canonical_font o'.
Proof.
  unfold run. destruct p; cbn [step]; intros E C.
  - apply Ok_inj in E; subst o'. exact C.
  - apply Ok_inj in E; subst o'. reflexivity.
  - apply Ok_inj in E; subst o'. exact C.
  - apply Ok_inj in E; subst o'. exact C.
  - apply Ok_inj in E; subst o'. exact C.
  - apply Ok_inj in E; subst o'. exact C.
  - apply Ok_inj in E; subst o'. exact C.
  - apply Ok_inj in E; subst o'. exact C.
  - unfold Text.setText in E.
    destruct (Text.toString number_toString object_toString text) as [s|e];
      cbn in E; [|discriminate].
    destruct (Text.set_text number_toString object_toString (Text.VString s) o)
      as [o1|e] eqn:S; cbn in E; [|discriminate].
    apply Ok_inj in E. subst o'.
    destruct (set_text_fields _ _ S) as (A & B & _).
    unfold canonical_font in *. cbn. rewrite A, B. exact C.
  - destruct l as [v|items]; cbn in E.
    + apply Ok_inj in E. subst o'. exact C.
    + destruct (Text.set_text number_toString object_toString _ o)
        as [o1|e] eqn:S; cbn in E; [|discriminate].
      apply Ok_inj in E. subst o'.
      destruct (set_text_fields _ _ S) as (A & B & _).
      unfold canonical_font in *. cbn. rewrite A, B. exact C.
  - apply Ok_inj in E; subst o'.
    unfold Text.setTextBounds. destruct a as [[[[x y] w] h]|]; [|exact C].
    destruct (Num.Qgtb _ _); exact C.
  - destruct (assign_fields _ _ E) as (A & B & _).
    unfold canonical_font in *. rewrite A, B. exact C.
  - apply Ok_inj in E; subst o'. unfold Text.set_cssFont.
    apply updateFont_canonical. reflexivity.
  - apply Ok_inj in E; subst o'. unfold Text.set_font.
    apply updateFont_canonical. reflexivity.
  - apply Ok_inj in E; subst o'. unfold Text.set_fontSize.
    apply updateFont_canonical. reflexivity.
  - apply Ok_inj in E; subst o'. unfold Text.set_fontWeight.
    apply updateFont_canonical. reflexivity.
  - apply Ok_inj in E; subst o'. unfold Text.set_fontStyle.
    apply updateFont_canonical. reflexivity.
  - apply Ok_inj in E; subst o'. unfold Text.set_fontVariant.
    apply updateFont_canonical. reflexivity.
  - apply Ok_inj in E; subst o'.
    unfold Text._renderWebGL, Text.flush. destruct (Text.dirty o); exact C.
  - apply Ok_inj in E; subst o'.
    unfold Text._renderCanvas, Text.flush. destruct (Text.dirty o); exact C.
  - apply Ok_inj in E; subst o'.
    unfold Text.getBounds, Text.flush. destruct (Text.dirty o); exact C.
  - apply Ok_inj in E; subst o'.
    unfold Text.get_width, Text.flush. destruct (Text.dirty o); exact C.
  - apply Ok_inj in E; subst o'.
    unfold Text.get_height, Text.flush. destruct (Text.dirty o); exact C.
Qed.

Lemma layout_size_inputs (o o' : Text.text_obj) :
  layout_inputs o' = layout_inputs o ->
  layout_size measureText determineFontProperties o' =
  layout_size measureText determineFontProperties o.
Proof.
  unfold layout_inputs. intro E. injection E as E1 E2 E3 E4 E5 E6.
  unfold layout_size, Text.updateText.
  cbn [Text.canvas_width Text.canvas_height Text.updateTexture].
  rewrite E1, E2, E3, E4, E5, E6. reflexivity.
Qed.

Lemma laid_out_same (o o' : Text.text_obj) :
  layout_inputs o' = layout_inputs o ->
  Text.canvas_width o' = Text.canvas_width o ->
  Text.canvas_height o' = Text.canvas_height o ->
  Text.texture_resolution o' = Text.texture_resolution o ->
  Text.dirty o' = Text.dirty o ->
  up_to_date measureText determineFontProperties o ->
  up_to_date measureText determineFontProperties o'.
Proof.
  intros I W H R D U C. rewrite D in C. destruct (U C) as [L1 L2].
  unfold laid_out. rewrite (layout_size_inputs I), W, H, R.
  split; [exact L1|].
  unfold layout_inputs in I. injection I as _ _ _ _ I5 _. rewrite I5. exact L2.
Qed.

Lemma flush_up_to_date (o : Text.text_obj) :
  up_to_date measureText determineFontProperties o ->
  up_to_date measureText determineFontProperties
    (Text.flush measureText determineFontProperties o).
Proof.
  intro U. unfold Text.flush. destruct (Text.dirty o) eqn:D; [|exact U].
  intros _. split; [|reflexivity].
  rewrite (@layout_size_inputs o
             (Text.set_dirty false (Text.updateText measureText determineFontProperties o)))
    by reflexivity.
  reflexivity.
Qed.

Lemma font_setter_up_to_date (c : Font.components) (o : Text.text_obj) :
  up_to_date measureText determineFontProperties o ->
  up_to_date measureText determineFontProperties
    (Text.updateFont c (Text.set__fontComponents c o)).
Proof.
  intro U.
  destruct (updateFont_spec c (Text.set__fontComponents c o)) as [D|E].
  - intro C. rewrite D in C. discriminate.
  - rewrite E. apply (@laid_out_same o); try reflexivity. exact U.
Qed.

Lemma marks_dirty (p : op) (o o' : Text.text_obj) :
  run p o = Text.Ok o' -> always_marks p = true -> Text.dirty o' = true.
Proof.
  intros E A.
  destruct (@step_dirty measureText determineFontProperties number_toString
              object_toString p o o' E) as [[_ D]|[[B _]|[[R _]|(N & _)]]].
  - exact D.
  - destruct p; discriminate.
  - destruct p; discriminate.
  - congruence.
Qed.

Lemma step_up_to_date (p : op) (o o' : Text.text_obj) :
  run p o = Text.Ok o' ->
  (is_bounds p = true -> Text.style o' = Text.style o) ->
  up_to_date measureText determineFontProperties o ->
  up_to_date measureText determineFontProperties o'.
Proof.
  intros E B U.
  destruct (always_marks p) eqn:A.
  { intro C. rewrite (marks_dirty _ _ E A) in C. discriminate. }
  unfold run in E. destruct p; try discriminate A; cbn [step] in E.
  - (* parseList of something that is no array *)
    destruct l as [v|items]; [|discriminate A]. cbn in E.
    apply Ok_inj in E. subst o'. exact U.
  - (* setTextBounds *)
    apply Ok_inj in E. subst o'. specialize (B eq_refl).
    apply (@laid_out_same o); try exact U.
    + unfold layout_inputs. rewrite B.
      unfold Text.setTextBounds. destruct a as [[[[x y] w] h]|]; [|reflexivity].
      destruct (Num.Qgtb _ _); reflexivity.
    + unfold Text.setTextBounds. destruct a as [[[[x y] w] h]|]; [|reflexivity].
      destruct (Num.Qgtb _ _); reflexivity.
    + unfold Text.setTextBounds. destruct a as [[[[x y] w] h]|]; [|reflexivity].
      destruct (Num.Qgtb _ _); reflexivity.
    + unfold Text.setTextBounds. destruct a as [[[[x y] w] h]|]; [|reflexivity].
      destruct (Num.Qgtb _ _); reflexivity.
    + unfold Text.setTextBounds. destruct a as [[[[x y] w] h]|]; [|reflexivity].
      destruct (Num.Qgtb _ _); reflexivity.
  - (* the comparing setters *)
    destruct (assign_spec _ _ _ _ E) as [D| ->]; [|exact U].
    intro C. rewrite D in C. discriminate.
  - apply Ok_inj in E. subst o'. apply font_setter_up_to_date. exact U.
  - apply Ok_inj in E. subst o'. apply font_setter_up_to_date. exact U.
  - apply Ok_inj in E. subst o'. apply font_setter_up_to_date. exact U.
  - apply Ok_inj in E. subst o'. apply font_setter_up_to_date. exact U.
  - apply Ok_inj in E. subst o'. apply font_setter_up_to_date. exact U.
  - apply Ok_inj in E. subst o'. apply font_setter_up_to_date. exact U.
  - apply Ok_inj in E. subst o'. apply flush_up_to_date. exact U.
  - apply Ok_inj in E. subst o'. apply flush_up_to_date. exact U.
  - apply Ok_inj in E. subst o'. apply flush_up_to_date. exact U.
  - apply Ok_inj in E. subst o'. apply flush_up_to_date. exact U.
  - apply Ok_inj in E. subst o'. apply flush_up_to_date. exact U.
Qed.

Lemma construct_dirty (res : Q) (cw ch : Num.num) (text : Text.value)
      (a : option Text.style_arg) (o : Text.text_obj) :
  Text.construct measureText determineFontProperties number_toString object_toString
    res cw ch text a = Text.Ok o ->
  Text.dirty o = true /\
  Text.layout_passes o = match Text._text o with [] => 0%nat | _ :: _ => 1%nat end.
Proof.
  unfold Text.construct.
  destruct (match text with
            | Text.VUndefined => Text.Ok []
            | Text.VNull => Text.Ok []
            | _ => Text.toString number_toString object_toString text
            end) as [s|e]; cbn [Text.bind]; [|discriminate].
  intro E. apply Ok_inj in E. subst o. destruct s; split; reflexivity.
Qed.

Lemma flush_in_sync (o : Text.text_obj) :
  (in_sync o -> in_sync (Text.flush measureText determineFontProperties o)) /\
  (Text.dirty o = true -> in_sync (Text.flush measureText determineFontProperties o)).
Proof.
  unfold Text.flush. destruct (Text.dirty o); split; intro H;
    try exact H; try discriminate H; repeat split.
Qed.

Lemma font_setter_in_sync (c : Font.components) (o : Text.text_obj) :
  in_sync o -> in_sync (Text.updateFont c (Text.set__fontComponents c o)).
Proof.
  unfold in_sync.
  destruct (updateFont_fields c (Text.set__fontComponents c o))
    as (A1 & A2 & A3 & A4 & A5 & A6).
  rewrite A1, A2, A3, A4, A5, A6. cbn. tauto.
Qed.

Ltac keeps_sync := split; [exact (fun H => H)|split; discriminate].
Ltac font_sync :=
  split; [apply font_setter_in_sync|split; discriminate].
Ltac flush_sync o :=
  destruct (flush_in_sync o) as [A B]; split; [exact A|];
  split; [discriminate|]; intros _; exact B.

Lemma step_in_sync (p : op) (o o' : Text.text_obj) :
  run p o = Text.Ok o' ->
  (in_sync o -> in_sync o') /\
  (is_bounds p = true -> in_sync o') /\
  (is_render p = true -> Text.dirty o = true -> in_sync o').
Proof.
  unfold run. destruct p; cbn [step is_bounds is_render]; intro E.
  - apply Ok_inj in E; subst o'. keeps_sync.
  - apply Ok_inj in E; subst o'. keeps_sync.
  - apply Ok_inj in E; subst o'. keeps_sync.
  - apply Ok_inj in E; subst o'. keeps_sync.
  - apply Ok_inj in E; subst o'. keeps_sync.
  - apply Ok_inj in E; subst o'. keeps_sync.
  - apply Ok_inj in E; subst o'. keeps_sync.
  - apply Ok_inj in E; subst o'. keeps_sync.
  - unfold Text.setText in E.
    destruct (Text.toString number_toString object_toString text) as [s|e];
      cbn in E; [|discriminate].
    destruct (Text.set_text number_toString object_toString (Text.VString s) o)
      as [o1|e] eqn:S; cbn in E; [|discriminate].
    apply Ok_inj in E. subst o'.
    destruct (set_text_fields _ _ S) as (_ & _ & A1 & A2 & A3 & A4 & A5 & A6).
    unfold in_sync. cbn. rewrite A1, A2, A3, A4, A5, A6.
    split; [tauto|]. split; discriminate.
  - destruct l as [v|items]; cbn in E.
    + apply Ok_inj in E. subst o'. keeps_sync.
    + destruct (Text.set_text number_toString object_toString _ o)
        as [o1|e] eqn:S; cbn in E; [|discriminate].
      apply Ok_inj in E. subst o'.
      destruct (set_text_fields _ _ S) as (_ & _ & A1 & A2 & A3 & A4 & A5 & A6).
      unfold in_sync. cbn. rewrite A1, A2, A3, A4, A5, A6.
      split; [tauto|]. split; discriminate.
  - (* setTextBounds *)
    apply Ok_inj in E; subst o'.
    assert (S : in_sync (Text.setTextBounds a o)).
    { unfold Text.setTextBounds. destruct a as [[[[x y] w] h]|]; [|repeat split].
      destruct (Num.Qgtb _ _); repeat split. }
    split; [intros _; exact S|]. split; [intros _; exact S|discriminate].
  - destruct (assign_fields _ _ E) as (_ & _ & A1 & A2 & A3 & A4 & A5 & A6).
    unfold in_sync. rewrite A1, A2, A3, A4, A5, A6.
    split; [tauto|]. split; discriminate.
  - apply Ok_inj in E; subst o'. unfold Text.set_cssFont. font_sync.
  - apply Ok_inj in E; subst o'. unfold Text.set_font. font_sync.
  - apply Ok_inj in E; subst o'. unfold Text.set_fontSize. font_sync.
  - apply Ok_inj in E; subst o'. unfold Text.set_fontWeight. font_sync.
  - apply Ok_inj in E; subst o'. unfold Text.set_fontStyle. font_sync.
  - apply Ok_inj in E; subst o'. unfold Text.set_fontVariant. font_sync.
  - apply Ok_inj in E; subst o'. flush_sync o.
  - apply Ok_inj in E; subst o'. flush_sync o.
  - apply Ok_inj in E; subst o'. flush_sync o.
  - apply Ok_inj in E; subst o'. flush_sync o.
  - apply Ok_inj in E; subst o'. flush_sync o.
Qed.

End Invariants.

(** X11. In every state a program can bring a Text object to, by
    constructing it and calling its operations, [style.font] is the
    string that [componentsToFont] writes for the font components the
    object holds. *)
Theorem X11_style_font_is_canonical
        (measureText : jstr -> jstr -> Q)
        (determineFontProperties : jstr -> Text.font_properties)
        (number_toString : Num.num -> jstr) (object_toString : nat -> jstr)
        (o : Text.text_obj) :
  reachable measureText determineFontProperties number_toString object_toString o ->
  canonical_font o.
Proof.
  intro R. induction R as [res cw ch text a o E|p o o' R IH E].
  - exact (construct_canonical _ _ _ _ _ _ _ _ _ E).
  - exact (step_canonical _ _ _ _ _ E IH).
Qed.

Lemma X11_style_font_is_canonical_witness :
  canonical_font
    (Text.set_fontWeight (Some (lit "lighter"))
       (Text.set_cssFont (Some (lit "italic 12px serif")) clean_hello)).
Proof.
  apply (@X11_style_font_is_canonical demo_measure demo_metrics demo_number demo_object).
  apply (@reach_step _ _ _ _ (OSetFontWeight (Some (lit "lighter")))
           (Text.set_cssFont (Some (lit "italic 12px serif")) clean_hello)); [|reflexivity].
  apply (@reach_step _ _ _ _ (OSetCssFont (Some (lit "italic 12px serif"))) clean_hello);
    [|reflexivity].
  eapply (@reach_step _ _ _ _ ORenderCanvas).
  - eapply (@reach_new _ _ _ _ 1 (Num.Num 300) (Num.Num 150)
              (Text.VString (lit "hello")) None).
    vm_compute. reflexivity.
  - vm_compute. reflexivity.
Defined.

(** X12. A clean object is laid out, and stays so: if, before a call,
    the object being clean implies that its canvas has the size a
    layout pass would give it now and its texture the resolution of the
    object, the same holds after the call -- for every operation,
    [setTextBounds] included as long as it leaves the style as it is. *)
Theorem X12_clean_object_is_laid_out
        (measureText : jstr -> jstr -> Q)
        (determineFontProperties : jstr -> Text.font_properties)
        (number_toString : Num.num -> jstr) (object_toString : nat -> jstr)
        (p : op) (o o' : Text.text_obj) :
  step measureText determineFontProperties number_toString object_toString p o
  = Text.Ok o' ->
  (is_bounds p = true -> Text.style o' = Text.style o) ->
  up_to_date measureText determineFontProperties o ->
  up_to_date measureText determineFontProperties o'.
Proof.
  intros E B U.
  exact (@step_up_to_date measureText determineFontProperties number_toString
           object_toString p o o' E B U).
Qed.

Lemma X12_clean_object_is_laid_out_witness :
  laid_out demo_measure demo_metrics
    (Text.setTextBounds (Some (0, 0, 800, 600)) clean_hello).
Proof.
  apply (@X12_clean_object_is_laid_out demo_measure demo_metrics demo_number demo_object
           (OSetTextBounds (Some (0, 0, 800, 600))) clean_hello).
  - reflexivity.
  - intros _. vm_compute. reflexivity.
  - intros _. split; vm_compute; reflexivity.
  - vm_compute. reflexivity.
Defined.

(** X13. The texture and the cached width and height of the object
    carry the size of the canvas: [setTextBounds] and a render trigger
    on a dirty object make it so, and no operation undoes it. *)
Theorem X13_texture_follows_canvas
        (measureText : jstr -> jstr -> Q)
        (determineFontProperties : jstr -> Text.font_properties)
        (number_toString : Num.num -> jstr) (object_toString : nat -> jstr)
        (p : op) (o o' : Text.text_obj) :
  step measureText determineFontProperties number_toString object_toString p o
  = Text.Ok o' ->
  (in_sync o -> in_sync o') /\
  (is_bounds p = true -> in_sync o') /\
  (is_render p = true -> Text.dirty o = true -> in_sync o').
Proof.
  intro E.
  exact (@step_in_sync measureText determineFontProperties number_toString
           object_toString p o o' E).
Qed.

Lemma X13_texture_follows_canvas_witness :
  let o := Text.set_wordWrap true clean_hello in
  let o' := Text.get_width demo_measure demo_metrics o in
  (in_sync o -> in_sync o') /\
  (is_bounds OGetWidth = true -> in_sync o') /\
  (is_render OGetWidth = true -> Text.dirty o = true -> in_sync o').
Proof.
  apply (@X13_texture_follows_canvas demo_measure demo_metrics demo_number demo_object
           OGetWidth (Text.set_wordWrap true clean_hello)).
  reflexivity.
Defined.

(** X14. A render trigger leaves the object clean, after at most one
    layout pass, and a render trigger that follows another one changes
    nothing. *)
Theorem X14_render_settles
        (measureText : jstr -> jstr -> Q)
        (determineFontProperties : jstr -> Text.font_properties)
        (number_toString : Num.num -> jstr) (object_toString : nat -> jstr)
        (p q : op) (o o1 o2 : Text.text_obj) :
  is_render p = true -> is_render q = true ->
  step measureText determineFontProperties number_toString object_toString p o
  = Text.Ok o1 ->
  step measureText determineFontProperties number_toString object_toString q o1
  = Text.Ok o2 ->
  Text.dirty o1 = false /\
  (Text.layout_passes o1 <= S (Text.layout_passes o))%nat /\
  o2 = o1.
Proof.
  intros P Q E1 E2.
  assert (F1 : o1 = Text.flush measureText determineFontProperties o).
  { destruct p; try discriminate P; cbn [step] in E1; apply Ok_inj in E1;
      symmetry; exact E1. }
  assert (F2 : o2 = Text.flush measureText determineFontProperties o1).
  { destruct q; try discriminate Q; cbn [step] in E2; apply Ok_inj in E2;
      symmetry; exact E2. }
  destruct (@flush_spec measureText determineFontProperties o) as (D & _ & L).
  rewrite <- F1 in D, L.
  split; [exact D|]. split.
  - rewrite L. destruct (Text.dirty o); lia.
  - rewrite F2. unfold Text.flush. rewrite D. reflexivity.
Qed.

Lemma X14_render_settles_witness :
  let o := Text.set_fill (lit "red") clean_hello in
  Text.dirty (Text._renderWebGL demo_measure demo_metrics o) = false /\
  (Text.layout_passes (Text._renderWebGL demo_measure demo_metrics o)
   <= S (Text.layout_passes o))%nat /\
  Text.getBounds demo_measure demo_metrics (Text._renderWebGL demo_measure demo_metrics o)
  = Text._renderWebGL demo_measure demo_metrics o.
Proof.
  apply (@X14_render_settles demo_measure demo_metrics demo_number demo_object
           ORenderWebGL OGetBounds (Text.set_fill (lit "red") clean_hello));
    reflexivity.
Defined.

(** X15. A new Text object is dirty, whether or not its constructor
    laid it out (it does so exactly when the text is not empty), so the
    first render trigger runs a layout pass of its own. *)
Theorem X15_new_object_is_dirty
        (measureText : jstr -> jstr -> Q)
        (determineFontProperties : jstr -> Text.font_properties)
        (number_toString : Num.num -> jstr) (object_toString : nat -> jstr)
        (res : Q) (cw ch : Num.num) (text : Text.value) (a : option Text.style_arg)
        (o : Text.text_obj) :
  Text.construct measureText determineFontProperties number_toString object_toString
    res cw ch text a = Text.Ok o ->
  Text.dirty o = true /\
  Text.layout_passes o = match Text._text o with [] => 0%nat | _ :: _ => 1%nat end /\
  Text.layout_passes (Text._renderCanvas measureText determineFontProperties o)
  = S (Text.layout_passes o).
Proof.
  intro E.
  destruct (@construct_dirty measureText determineFontProperties number_toString
              object_toString res cw ch text a o E) as [D L].
  split; [exact D|]. split; [exact L|].
  unfold Text._renderCanvas, Text.flush. rewrite D. reflexivity.
Qed.

Lemma X15_new_object_is_dirty_witness :
  exists o,
    Text.construct demo_measure demo_metrics demo_number demo_object
      1 (Num.Num 300) (Num.Num 150) (Text.VString (lit "hello")) None = Text.Ok o /\
    Text.dirty o = true /\
    Text.layout_passes o = match Text._text o with [] => 0%nat | _ :: _ => 1%nat end /\
    Text.layout_passes (Text._renderCanvas demo_measure demo_metrics o)
    = S (Text.layout_passes o).
Proof.
  eexists. split; [vm_compute; reflexivity|].
  eapply (@X15_new_object_is_dirty demo_measure demo_metrics demo_number demo_object
            1 (Num.Num 300) (Num.Num 150) (Text.VString (lit "hello")) None).
  vm_compute. reflexivity.
Defined.

(** ** [parseList] and the splitting of the layout *)

Section ParseList.
Import Text Layout.
Variable number_toString : Num.num -> jstr.
Variable object_toString : nat -> jstr.

Lemma split_join (c : N) (ws : list jstr) :
  ws <> [] -> (forall w, In w ws -> ~ In c w) ->
  split c (join [c] ws) = ws.
Proof.
  induction ws as [|w ws IH]; intros NE F; [congruence|].
  destruct ws as [|w' ws'].
  - cbn [join]. apply split_free. apply F. left. reflexivity.
  - rewrite join_cons2. cbn [app].
    rewrite split_app_sep by (apply F; left; reflexivity).
    f_equal. apply IH; [discriminate|].
    intros x I. apply F. right. exact I.
Qed.

Lemma split_lines_free (s : jstr) :
  ~ In newline s -> ~ In 13%N s -> split_lines s = [s].
Proof.
  induction s as [|x s IH]; intros H1 H2; [reflexivity|].
  cbn [split_lines].
  destruct (N.eqb_spec x 13) as [E|E]; [exfalso; apply H2; left; exact E|].
  destruct (N.eqb_spec x 10) as [E'|E']; [exfalso; apply H1; left; exact E'|].
  rewrite IH; [reflexivity| |]; intro I; [apply H1|apply H2]; right; exact I.
Qed.

Lemma split_lines_app (a b : jstr) :
  ~ In newline a -> ~ In 13%N a ->
  split_lines (a ++ newline :: b) = a :: split_lines b.
Proof.
  induction a as [|x a IH]; intros H1 H2.
  - reflexivity.
  - cbn [app split_lines].
    destruct (N.eqb_spec x 13) as [E|E]; [exfalso; apply H2; left; exact E|].
    destruct (N.eqb_spec x 10) as [E'|E']; [exfalso; apply H1; left; exact E'|].
    rewrite IH; [reflexivity| |]; intro I; [apply H1|apply H2]; right; exact I.
Qed.

Lemma split_lines_join (ls : list jstr) :
  ls <> [] -> (forall l, In l ls -> ~ In newline l /\ ~ In 13%N l) ->
  split_lines (join [newline] ls) = ls.
Proof.
  induction ls as [|l ls IH]; intros NE F; [congruence|].
  destruct (F l (or_introl eq_refl)) as [F1 F2].
  destruct ls as [|l' ls'].
  - cbn [join]. apply split_lines_free; assumption.
  - rewrite join_cons2. cbn [app]. rewrite split_lines_app by assumption.
    f_equal. apply IH; [discriminate|].
    intros x I. apply F. right. exact I.
Qed.

Lemma join_chars (c : N) (ws : list jstr) (x : N) :
  In x (join [c] ws) -> x = c \/ exists w, In w ws /\ In x w.
Proof.
  induction ws as [|w ws IH]; [intros []|].
  destruct ws as [|w' ws'].
  - cbn [join]. intro I. right. exists w. split; [left; reflexivity|exact I].
  - rewrite join_cons2. intro I. apply in_app_or in I. destruct I as [I|I].
    + right. exists w. split; [left; reflexivity|exact I].
    + cbn [app] in I. destruct I as [<-|I]; [left; reflexivity|].
      destruct (IH I) as [->|(v & Iv & Ix)]; [left; reflexivity|].
      right. exists v. split; [right; exact Iv|exact Ix].
Qed.

(** The string [parseList] builds for rows of strings. *)
Lemma parse_items_rows (rows : list (list jstr)) :
  forall i n s, n = (i + List.length rows)%nat ->
    parse_items number_toString object_toString i n
      (List.map (fun r => Row (List.map VString r)) rows) s =
    s ++ join [newline] (List.map (join [tabchar]) rows).
Proof.
  induction rows as [|r rows IH]; intros i n s Hn.
  - cbn. rewrite app_nil_r. reflexivity.
  - cbn [List.map parse_items].
    assert (M : List.map (to_string_join number_toString object_toString)
                  (List.map VString r) = r).
    { rewrite map_map. cbn [to_string_join to_string_concat]. apply map_id. }
    rewrite M.
    destruct rows as [|r' rows'].
    + cbn in Hn. assert (E : (i <? n - 1)%nat = false) by (apply Nat.ltb_ge; lia).
      rewrite E. reflexivity.
    + assert (E : (i <? n - 1)%nat = true) by (apply Nat.ltb_lt; cbn in Hn; lia).
      rewrite E. rewrite IH by (cbn in *; lia).
      cbn [List.map]. rewrite join_cons2. repeat rewrite <- app_assoc. reflexivity.
Qed.

Lemma set_text_string (s : jstr) (o : text_obj) :
  exists o', set_text number_toString object_toString (VString s) o = Ok o' /\
             _text o' = s.
Proof.
  unfold set_text, text_differs.
  destruct (Js.eqb s (_text o)) eqn:E; cbn [negb bind toString].
  - exists o. split; [reflexivity|]. symmetry. apply eqb_eq. exact E.
  - eexists. split; [reflexivity|].
    unfold updateTransform_if_parent. destruct (parent _); reflexivity.
Qed.

End ParseList.

(** X16. [parseList] and the layout agree on a table of strings: for a
    table that is not empty, whose rows are not empty and whose cells
    hold no tab, line feed or carriage return, [parseList] returns,
    the object is dirty, and splitting the text it stored into lines,
    as [updateText] does, and each line at its tabs, as [renderTabLine]
    does, gives the rows and cells of the table back. *)
Theorem X16_parseList_round_trip
        (number_toString : Num.num -> jstr) (object_toString : nat -> jstr)
        (rows : list (list jstr)) (o : Text.text_obj) :
  rows <> [] ->
  (forall r, In r rows -> r <> [] /\ forall c, In c r -> plain_cell c) ->
  exists o',
    Text.parseList number_toString object_toString (table rows) o = Text.Ok o' /\
    Text.dirty o' = true /\
    List.map (split tabchar) (Layout.split_lines (Text._text o')) = rows.
Proof.
  intros NE F. unfold Text.parseList, table.
  rewrite length_map.
  rewrite parse_items_rows by reflexivity. cbn [app].
  destruct (@set_text_string number_toString object_toString
              (join [newline] (List.map (join [tabchar]) rows)) o) as (o1 & E & T).
  rewrite E. cbn [Text.bind]. eexists. split; [reflexivity|].
  split; [reflexivity|].
  change (Text._text (Text.set_dirty true o1)) with (Text._text o1). rewrite T.
  rewrite split_lines_join.
  - rewrite map_map. rewrite <- (map_id rows) at 2.
    apply map_ext_in. intros r Ir. destruct (F r Ir) as [Nr Fr].
    apply split_join; [exact Nr|]. intros c Ic. apply (Fr c Ic).
  - destruct rows; [congruence|discriminate].
  - intros l Il. apply in_map_iff in Il. destruct Il as (r & <- & Ir).
    destruct (F r Ir) as [_ Fr].
    split; intro I; apply join_chars in I;
      destruct I as [I|(c & Ic & Ix)]; try discriminate I;
      destruct (Fr c Ic) as (_ & P2 & P3); [exact (P2 Ix)|exact (P3 Ix)].
Qed.

Lemma X16_parseList_round_trip_witness :
  exists o',
    Text.parseList demo_number demo_object
      (table [[lit "a"; lit "b"; lit "c"]; [lit "d"; lit "e"; lit "f"]]) clean_hello
    = Text.Ok o' /\
    Text.dirty o' = true /\
    List.map (split tabchar) (Layout.split_lines (Text._text o'))
    = [[lit "a"; lit "b"; lit "c"]; [lit "d"; lit "e"; lit "f"]].
Proof.
  apply (@X16_parseList_round_trip demo_number demo_object
           [[lit "a"; lit "b"; lit "c"]; [lit "d"; lit "e"; lit "f"]] clean_hello).
  - discriminate.
  - intros r [<-|[<-|[]]]; (split; [discriminate|]);
      intros c I; cbn in I; unfold plain_cell;
      repeat (destruct I as [<-|I]; [repeat split; intros [F|[]]; discriminate F|]);
      destruct I.
Defined.

(** ** The font setters, applied again *)

Section FontSetters.
Import Font Text.

Lemma updateFont_components (c : components) (o : text_obj) :
  _fontComponents (updateFont c o) = _fontComponents o.
Proof.
  unfold updateFont. destruct (negb _); [|reflexivity].
  unfold updateTransform_if_parent. destruct (parent _); reflexivity.
Qed.

(** A font setter that is given the components the object already
    holds leaves the object as it is. *)
Lemma font_setter_again (c : components) (o : text_obj) :
  let o1 := updateFont c (set__fontComponents c o) in
  updateFont c (set__fontComponents c o1) = o1.
Proof.
  intro o1.
  assert (C : canonical_font o1) by (apply updateFont_canonical; reflexivity).
  assert (K : _fontComponents o1 = c) by (apply updateFont_components).
  assert (S : set__fontComponents c o1 = o1).
  { subst o1. unfold updateFont.
    destruct (negb _); [|reflexivity].
    unfold updateTransform_if_parent. destruct (parent _); reflexivity. }
  rewrite S. unfold updateFont.
  unfold canonical_font in C. rewrite C, K, eqb_refl. reflexivity.
Qed.

Lemma with_family_again (f : jstr) (c : components) :
  with_family f (with_family f c) = with_family f c.
Proof. reflexivity. Qed.

Lemma trim_start_head (s : jstr) :
  match trim_start s with [] => True | x :: _ => Regex.is_space x = false end.
Proof.
  induction s as [|x s IH]; cbn [trim_start]; [exact I|].
  destruct (Regex.is_space x) eqn:E; [exact IH|exact E].
Qed.

Lemma trim_start_fix (s : jstr) :
  match s with [] => True | x :: _ => Regex.is_space x = false end ->
  trim_start s = s.
Proof.
  destruct s as [|x s]; [reflexivity|]. cbn [trim_start]. intros ->. reflexivity.
Qed.

Lemma trim_start_suffix (s : jstr) : exists p, s = p ++ trim_start s.
Proof.
  induction s as [|x s [p IH]]; [exists []; reflexivity|].
  cbn [trim_start]. destruct (Regex.is_space x).
  - exists (x :: p). cbn [app]. f_equal. exact IH.
  - exists []. reflexivity.
Qed.

Lemma trimmed_ends (s : jstr) :
  match s with [] => True | x :: _ => Regex.is_space x = false end ->
  match rev s with [] => True | x :: _ => Regex.is_space x = false end ->
  trimmed s.
Proof.
  intros H1 H2. unfold trimmed, trim.
  rewrite (trim_start_fix s H1), (trim_start_fix (rev s) H2). apply rev_involutive.
Qed.

Lemma trim_trimmed (s : jstr) : trimmed (trim s).
Proof.
  unfold trim.
  set (a := trim_start s).
  set (b := trim_start (rev a)).
  pose proof (trim_start_head s) as Ha. fold a in Ha.
  pose proof (trim_start_head (rev a)) as Hb. fold b in Hb.
  destruct (trim_start_suffix (rev a)) as [p Hp]. fold b in Hp.
  assert (Ea : a = rev b ++ rev p).
  { rewrite <- rev_app_distr, <- Hp. symmetry. apply rev_involutive. }
  apply trimmed_ends.
  - destruct (rev b) as [|x r] eqn:R; [exact I|].
    rewrite Ea in Ha. exact Ha.
  - rewrite rev_involutive. exact Hb.
Qed.

Lemma matches_cls (p : N -> bool) (s : jstr) :
  existsb p s = true -> forall pv, Regex.exec_from (Regex.Cls p) pv s <> None.
Proof.
  induction s as [|x s IH]; [discriminate|].
  cbn [existsb]. intros H pv. cbn [Regex.exec_from Regex.ms Regex.rest].
  destruct (p x) eqn:E; [discriminate|].
  cbn [orb] in H. apply IH. exact H.
Qed.

Lemma quoted_has_quote (t : jstr) :
  matches (Regex.Cls quote_or_comma) ([39%N] ++ t ++ [39%N]) = true.
Proof.
  unfold matches, Regex.exec.
  destruct (Regex.exec_from _ _ _) eqn:E; [reflexivity|].
  exfalso. revert E. apply matches_cls. reflexivity.
Qed.

Lemma quoted_trimmed (t : jstr) : trimmed ([39%N] ++ t ++ [39%N]).
Proof.
  apply trimmed_ends; [reflexivity|].
  cbn [app]. change (39%N :: t ++ [39%N]) with ([39%N] ++ t ++ [39%N]).
  rewrite !rev_app_distr. reflexivity.
Qed.

Lemma or_str_nonempty (s : jstr) (d : jstr) : s <> [] -> or_str (Some s) d = s.
Proof. destruct s; [congruence|reflexivity]. Qed.

(** What the setter stores is not empty, is trimmed, and is a generic
    family or holds a quote or a comma. *)
Lemma stored_family_spec (v : option jstr) :
  let f := stored_family v in
  f <> [] /\ trimmed f /\
  (matches generic_family_re f = true \/
   matches (Regex.Cls quote_or_comma) f = true).
Proof.
  unfold stored_family.
  set (t := trim (or_str v (lit "Arial"))).
  assert (T : trimmed t) by apply trim_trimmed.
  destruct (matches generic_family_re t) eqn:G; cbn [negb andb].
  - split; [|split; [exact T|left; exact G]].
    intro Z. rewrite Z in G. vm_compute in G. discriminate.
  - destruct (matches (Regex.Cls quote_or_comma) t) eqn:Q; cbn [negb].
    + split; [|split; [exact T|right; exact Q]].
      intro Z. rewrite Z in Q. vm_compute in Q. discriminate.
    + split; [discriminate|]. split; [apply quoted_trimmed|].
      right. apply quoted_has_quote.
Qed.

Lemma stored_family_again (v : option jstr) :
  stored_family (Some (stored_family v)) = stored_family v.
Proof.
  destruct (stored_family_spec v) as (NE & T & C).
  set (f := stored_family v) in *.
  unfold stored_family at 1. rewrite (or_str_nonempty _ NE).
  unfold trimmed in T. rewrite T.
  destruct C as [C|C]; rewrite C; [reflexivity|].
  rewrite andb_false_r. reflexivity.
Qed.

Lemma set_font_eq (v : option jstr) (o : text_obj) :
  set_font v o =
  updateFont (with_family (stored_family v) (_fontComponents o))
    (set__fontComponents (with_family (stored_family v) (_fontComponents o)) o).
Proof. reflexivity. Qed.

End FontSetters.

(** X17. The setter of [font] never stores an empty family or a bare
    name: what it puts into the components begins and ends with a
    character that is not white space, and is one of the generic
    families of its pattern or holds a quote or a comma; and assigning
    [font] the value its getter returns, after the property has been
    assigned, leaves the object exactly as it is, without another pair
    of quotes. *)
Theorem X17_font_family_is_quoted_once (v : option jstr) (o : Text.text_obj) :
  let o1 := Text.set_font v o in
  exists f,
    Accessors.get_font o1 = Some f /\ f <> [] /\ trimmed f /\
    (Text.matches Text.generic_family_re f = true \/
     existsb Text.quote_or_comma f = true) /\
    Text.set_font (Accessors.get_font o1) o1 = o1.
Proof.
  intro o1. exists (stored_family v).
  destruct (stored_family_spec v) as (NE & T & C).
  assert (G : Accessors.get_font o1 = Some (stored_family v)).
  { unfold Accessors.get_font. subst o1. rewrite set_font_eq.
    rewrite updateFont_components. reflexivity. }
  split; [exact G|]. split; [exact NE|]. split; [exact T|]. split.
  - destruct C as [C|C]; [left; exact C|right].
    unfold Text.matches, Regex.exec in C.
    destruct (existsb Text.quote_or_comma (stored_family v)) eqn:X; [reflexivity|].
    exfalso. clear - C X. revert C X. generalize (@None N).
    induction (stored_family v) as [|x s IH]; intros pv C X.
    + cbn in C. discriminate.
    + cbn [existsb] in X. apply orb_false_iff in X. destruct X as [X1 X2].
      cbn [Regex.exec_from Regex.ms Regex.rest] in C. rewrite X1 in C.
      exact (IH _ C X2).
  - rewrite G. rewrite set_font_eq.
    assert (K : Text._fontComponents o1 =
                Text.with_family (stored_family v) (Text._fontComponents o)).
    { subst o1. rewrite set_font_eq. apply updateFont_components. }
    rewrite K, stored_family_again, with_family_again.
    subst o1. rewrite set_font_eq. apply font_setter_again.
Qed.

(** X18. Assigning [fontWeight], [fontStyle] or [fontVariant] the value
    its getter returns, after the property has been assigned, leaves
    the object exactly as it is. *)
Theorem X18_font_property_reassigned (v : option jstr) (o : Text.text_obj) :
  (let o1 := Text.set_fontWeight v o in
   Text.set_fontWeight (Some (Accessors.get_fontWeight o1)) o1 = o1) /\
  (let o1 := Text.set_fontStyle v o in
   Text.set_fontStyle (Some (Accessors.get_fontStyle o1)) o1 = o1) /\
  (let o1 := Text.set_fontVariant v o in
   Text.set_fontVariant (Some (Accessors.get_fontVariant o1)) o1 = o1).
Proof.
  assert (N : forall d, Text.or_str (Some (Text.or_str v d)) d = Text.or_str v d).
  { intro d. destruct v as [[|x s]|]; cbn; try reflexivity; destruct d; reflexivity. }
  split; [|split]; intro o1.
  - assert (G : Accessors.get_fontWeight o1 = Text.or_str v (lit "normal")).
    { unfold Accessors.get_fontWeight. subst o1. unfold Text.set_fontWeight.
      rewrite updateFont_components. cbn.
      destruct v as [[|x s]|]; reflexivity. }
    rewrite G. unfold Text.set_fontWeight at 1. rewrite N.
    assert (K : Text._fontComponents o1 = _) by
      (subst o1; unfold Text.set_fontWeight; apply updateFont_components).
    rewrite K. cbn [Text._fontComponents Text.set__fontComponents Font.font
                    Font.fontStyle Font.fontVariant Font.fontSize Font.fontFamily].
    subst o1. unfold Text.set_fontWeight. apply font_setter_again.
  - assert (G : Accessors.get_fontStyle o1 = Text.or_str v (lit "normal")).
    { unfold Accessors.get_fontStyle. subst o1. unfold Text.set_fontStyle.
      rewrite updateFont_components. cbn.
      destruct v as [[|x s]|]; reflexivity. }
    rewrite G. unfold Text.set_fontStyle at 1. rewrite N.
    assert (K : Text._fontComponents o1 = _) by
      (subst o1; unfold Text.set_fontStyle; apply updateFont_components).
    rewrite K. cbn [Text._fontComponents Text.set__fontComponents Font.font
                    Font.fontWeight Font.fontVariant Font.fontSize Font.fontFamily].
    subst o1. unfold Text.set_fontStyle. apply font_setter_again.
  - assert (G : Accessors.get_fontVariant o1 = Text.or_str v (lit "normal")).
    { unfold Accessors.get_fontVariant. subst o1. unfold Text.set_fontVariant.
      rewrite updateFont_components. cbn.
      destruct v as [[|x s]|]; reflexivity. }
    rewrite G. unfold Text.set_fontVariant at 1. rewrite N.
    assert (K : Text._fontComponents o1 = _) by
      (subst o1; unfold Text.set_fontVariant; apply updateFont_components).
    rewrite K. cbn [Text._fontComponents Text.set__fontComponents Font.font
                    Font.fontWeight Font.fontStyle Font.fontSize Font.fontFamily].
    subst o1. unfold Text.set_fontVariant. apply font_setter_again.
Qed.

(** ** The calls of a layout pass *)

Section Calls.
Import Num Layout Text Canvas.
Variable measureText : jstr -> jstr -> Q.
Variable determineFontProperties : jstr -> font_properties.
Variable font_read : jstr -> jstr.
Variable o : text_obj.

Let st := style o.

Lemma updateShadow_ink (fill : bool) (flag : option bool) (c : context) :
  ink fill (updateShadow st flag c) = ink fill c.
Proof. unfold updateShadow. destruct (or_false flag), fill; reflexivity. Qed.

Lemma updateShadow_shadow (flag : option bool) (c : context) :
  ctx_shadow (updateShadow st flag c) = Some (shadow_for st flag).
Proof. unfold updateShadow, shadow_for. destruct (or_false flag); reflexivity. Qed.

Lemma updateShadow_font (flag : option bool) (c : context) :
  ctx_font (updateShadow st flag c) = ctx_font c.
Proof. unfold updateShadow. destruct (or_false flag); reflexivity. Qed.

(** *** Every call is made under the shadow its kind asks for *)

Let shadowed (c : call) : Prop :=
  ctx_shadow (call_ctx c) =
  Some (shadow_for st (shadow_flag (draw_fill (call_draw c)) st)).

Lemma updateLine_shadowed (line : jstr) :
  forall x y c n,
    Forall shadowed (fst (updateLine measureText font_read o line x y c n)).
Proof.
  induction line as [|letter line IH]; intros x y c n; [constructor|].
  cbn [updateLine]. fold st.
  set (c1 := if (_ || _)%bool then _ else c).
  destruct (strokes st); cbn [fst snd].
  - destruct (fills st); cbn [fst snd app].
    + constructor; [apply updateShadow_shadow|].
      constructor; [apply updateShadow_shadow|]. apply IH.
    + constructor; [apply updateShadow_shadow|]. apply IH.
  - destruct (fills st); cbn [fst snd app].
    + constructor; [apply updateShadow_shadow|]. apply IH.
    + apply IH.
Qed.

Lemma renderTabLine_at_fill (font : jstr) (t : tabs_t) (line : jstr) (x : num) (y : Q)
      (fill : bool) :
  Forall (fun d => draw_fill d = fill)
         (renderTabLine_at measureText font t line x y fill).
Proof.
  unfold renderTabLine_at. destruct x as [q|].
  - unfold renderTabLine. destruct t as [g|stops].
    + generalize (split tabchar line) q. intros text.
      induction text as [|s text IH]; intro q0; cbn [render_scalar_loop];
        constructor; [reflexivity|apply IH].
    + generalize (split tabchar line) 0%nat (Num 0). intros text.
      induction text as [|s text IH]; intros k tab; cbn [render_array_loop];
        constructor; [reflexivity|apply IH].
  - apply Forall_forall. intros d I. apply in_map_iff in I.
    destruct I as (s & <- & _). reflexivity.
Qed.

Lemma whole_line_shadowed (fill : bool) (line : jstr) (x : num) (y : Q) (c : context) :
  Forall shadowed
    (if tabs_is_zero (tabs st)
     then [Call (Draw fill line x y) (updateShadow st (shadow_flag fill st) c)]
     else List.map (fun d => Call d (updateShadow st (shadow_flag fill st) c))
            (renderTabLine_at measureText (style_font st) (tabs st) line x y fill)).
Proof.
  destruct (tabs_is_zero (tabs st)).
  - constructor; [apply updateShadow_shadow|constructor].
  - apply Forall_forall. intros k I. apply in_map_iff in I.
    destruct I as (d & <- & Id).
    pose proof (proj1 (Forall_forall _ _)
                  (renderTabLine_at_fill (style_font st) (tabs st) line x y fill) d Id) as F.
    unfold shadowed. cbn [call_ctx call_draw]. rewrite F. apply updateShadow_shadow.
Qed.

Lemma draw_line_shadowed (line : jstr) (x : num) (y : Q) (c : context) (n : nat) :
  Forall shadowed (fst (draw_line measureText font_read o line x y c n)).
Proof.
  unfold draw_line. fold st. destruct (per_character o).
  - apply updateLine_shadowed.
  - cbn [fst]. apply Forall_app. split.
    + destruct (strokes st); cbn [fst]; [|constructor].
      apply (whole_line_shadowed false).
    + destruct (fills st); cbn [fst]; [|constructor].
      apply (whole_line_shadowed true).
Qed.

Lemma draw_lines_forall (P : call -> Prop) :
  (forall line x y c n, Forall P (fst (draw_line measureText font_read o line x y c n))) ->
  forall lines W lh ls asc i c n,
    Forall P (fst (draw_lines measureText font_read o W lh ls asc i lines c n)).
Proof.
  intros H lines W lh ls asc.
  induction lines as [|l lines IH]; intros i c n; [constructor|].
  cbn [draw_lines fst]. apply Forall_app. split; [apply H|apply IH].
Qed.

(** *** Colour runs *)

Lemma in_effect_step (runs : list (option jstr)) (n : nat) (d : jstr) :
  in_effect runs n d =
  match run_at runs n with
  | Some v => v
  | None => in_effect_before runs n d
  end.
Proof. destruct n; reflexivity. Qed.

Lemma numbered_cons (ch : N) (l : jstr) (n : nat) :
  numbered (ch :: l) n = (ch, n) :: numbered l (S n).
Proof. reflexivity. Qed.

Lemma numbered_app (a b : jstr) :
  forall n, numbered (a ++ b) n = numbered a n ++ numbered b (n + List.length a).
Proof.
  induction a as [|ch a IH]; intro n.
  - cbn [app List.length]. rewrite Nat.add_0_r. reflexivity.
  - cbn [app]. rewrite !numbered_cons. cbn [app]. rewrite IH.
    cbn [List.length]. rewrite Nat.add_succ_r. reflexivity.
Qed.

Section Inks.
Variable fill : bool.
Hypothesis on : enabled fill st = true.

Let runs := runs_of fill o.
Let d := base_ink fill st.
Let shown (p : N * nat) : jstr * jstr := ([fst p], in_effect runs (snd p) d).

Lemma updateLine_ink (line : jstr) :
  forall x y c n,
    ink fill c = in_effect_before runs n d ->
    let r := updateLine measureText font_read o line x y c n in
    snd (snd r) = (n + List.length line)%nat /\
    ink fill (fst (snd r)) = in_effect_before runs (n + List.length line) d /\
    List.map (painted fill) (calls_of fill (fst r)) = List.map shown (numbered line n).
Proof.
  induction line as [|letter line IH]; intros x y c n Hc.
  - cbn. rewrite Nat.add_0_r. repeat split. exact Hc.
  - cbn [updateLine]. fold st.
    set (c1 := if (_ || _)%bool then _ else c).
    assert (H1 : ink fill c1 = ink fill c).
    { subst c1. destruct (_ || _)%bool; [|reflexivity]. destruct fill; reflexivity. }
    rewrite numbered_cons. cbn [List.map List.length].
    unfold enabled in on. subst runs d. unfold runs_of, base_ink in *.
    destruct fill.
    + (* the calls of fillText *)
      rewrite on.
      set (c2 := snd (if strokes st then _ else ([], c1))).
      assert (H2 : fillStyle c2 = fillStyle c1).
      { subst c2. destruct (strokes st); cbn [snd]; [|reflexivity].
        rewrite (updateShadow_ink true).
        destruct (run_at (strokeColors o) n); reflexivity. }
      cbn [snd fst].
      set (c3 := updateShadow st (shadowFill st) _).
      assert (H3 : fillStyle c3 = in_effect (colors o) n (Text.fill st)).
      { subst c3. rewrite (updateShadow_ink true). rewrite in_effect_step.
        destruct (run_at (colors o) n); [reflexivity|].
        cbn [ink]. rewrite H2. exact (eq_trans H1 Hc). }
      match goal with
      | |- context [updateLine _ _ _ _ ?x' _ _ _] =>
          destruct (IH x' y c3 (S n) H3) as (I1 & I2 & I3)
      end.
      rewrite Nat.add_succ_r. split; [exact I1|]. split; [exact I2|].
      unfold calls_of in *. rewrite !filter_app, !map_app.
      assert (S0 : filter (of_kind true)
                     (fst (if strokes st
                           then ([Call (Draw false [letter] x y)
                                    (updateShadow st (shadowStroke st)
                                       match run_at (strokeColors o) n with
                                       | Some v => set_strokeStyle v c1
                                       | None => c1
                                       end)],
                                 updateShadow st (shadowStroke st)
                                   match run_at (strokeColors o) n with
                                   | Some v => set_strokeStyle v c1
                                   | None => c1
                                   end)
                           else ([], c1))) = []).
      { destruct (strokes st); reflexivity. }
      rewrite S0. cbn [List.map app filter of_kind call_draw draw_fill Bool.eqb].
      cbn [filter of_kind call_draw draw_fill Bool.eqb] in I3. rewrite I3.
      unfold shown, painted. cbn [call_draw call_ctx draw_text fst snd ink].
      rewrite H3. reflexivity.
    + (* the calls of strokeText *)
      rewrite on. cbn [snd fst].
      set (c2 := updateShadow st (shadowStroke st) _).
      assert (H2 : strokeStyle c2 = in_effect (strokeColors o) n (stroke st)).
      { subst c2. rewrite (updateShadow_ink false). rewrite in_effect_step.
        destruct (run_at (strokeColors o) n); [reflexivity|].
        cbn [ink]. exact (eq_trans H1 Hc). }
      set (c3 := snd (if fills st then _ else ([], c2))).
      assert (H3 : strokeStyle c3 = strokeStyle c2).
      { subst c3. destruct (fills st); cbn [snd]; [|reflexivity].
        rewrite (updateShadow_ink false).
        destruct (run_at (colors o) n); reflexivity. }
      match goal with
      | |- context [updateLine _ _ _ _ ?x' _ _ _] =>
          destruct (IH x' y c3 (S n) (eq_trans H3 H2)) as (I1 & I2 & I3)
      end.
      rewrite Nat.add_succ_r. split; [exact I1|]. split; [exact I2|].
      unfold calls_of in *. rewrite !filter_app, !map_app.
      assert (S0 : filter (of_kind false)
                     (fst (if fills st
                           then ([Call (Draw true [letter] x y)
                                    (updateShadow st (shadowFill st)
                                       match run_at (colors o) n with
                                       | Some v => set_fillStyle v c2
                                       | None => c2
                                       end)],
                                 updateShadow st (shadowFill st)
                                   match run_at (colors o) n with
                                   | Some v => set_fillStyle v c2
                                   | None => c2
                                   end)
                           else ([], c2))) = []).
      { destruct (fills st); reflexivity. }
      rewrite S0. cbn [List.map app filter of_kind call_draw draw_fill Bool.eqb].
      rewrite I3. unfold shown, painted. cbn [call_draw call_ctx draw_text fst snd ink].
      rewrite H2. reflexivity.
Qed.

Lemma draw_lines_ink (lines : list jstr) (W : num) (lh ls asc : Q) :
  per_character o = true ->
  forall i c n,
    ink fill c = in_effect_before runs n d ->
    let r := draw_lines measureText font_read o W lh ls asc i lines c n in
    snd (snd r) = (n + List.length (List.concat lines))%nat /\
    ink fill (fst (snd r)) = in_effect_before runs (n + List.length (List.concat lines)) d /\
    List.map (painted fill) (calls_of fill (fst r)) =
    List.map shown (numbered (List.concat lines) n).
Proof.
  intro PC. induction lines as [|l lines IH]; intros i c n Hc.
  - cbn. rewrite Nat.add_0_r. repeat split. exact Hc.
  - cbn [draw_lines List.concat]. unfold draw_line. rewrite PC.
    match goal with
    | |- context [updateLine _ _ _ _ ?x' ?y' _ _] =>
        destruct (updateLine_ink l x' y' c n Hc) as (U1 & U2 & U3)
    end.
    cbn zeta in U1, U2, U3.
    rewrite <- U1 in U2.
    match goal with
    | |- context [draw_lines _ _ _ _ _ _ _ ?i' _ ?c' ?n'] =>
        destruct (IH i' c' n' U2) as (I1 & I2 & I3)
    end.
    cbn zeta in I1, I2, I3. cbn zeta. cbn [fst snd].
    rewrite length_app, Nat.add_assoc, <- U1.
    split; [exact I1|]. split; [exact I2|].
    unfold calls_of in *. rewrite filter_app, map_app, numbered_app, map_app.
    rewrite U3, I3, U1. reflexivity.
Qed.

End Inks.

(** *** Where the characters and the lines go *)

Lemma updateLine_positions (line : jstr) :
  fontWeights o = [] -> fontStyles o = [] ->
  forall x y c n k,
    In k (fst (updateLine measureText font_read o line (Num x) y c n)) ->
    exists i ch q,
      nth_error line i = Some ch /\ draw_text (call_draw k) = [ch] /\
      draw_x (call_draw k) = Num q /\
      q == x + advance (measureText (ctx_font c)) (firstn i line) /\
      draw_y (call_draw k) = y.
Proof.
  intros FW FS. induction line as [|letter line IH]; intros x y c n k I; [destruct I|].
  cbn [updateLine] in I. fold st in I. rewrite FW, FS in I.
  cbn [List.length Nat.ltb Nat.leb orb] in I.
  set (c2 := snd (if strokes st then _ else ([], c))) in I.
  assert (F2 : ctx_font c2 = ctx_font c).
  { subst c2. destruct (strokes st); cbn [snd]; [|reflexivity].
    rewrite updateShadow_font. destruct (run_at (strokeColors o) n); reflexivity. }
  set (c3 := snd (if fills st then _ else ([], c2))) in I.
  assert (F3 : ctx_font c3 = ctx_font c).
  { subst c3. destruct (fills st); cbn [snd]; [|exact F2].
    rewrite updateShadow_font. rewrite <- F2.
    destruct (run_at (colors o) n); reflexivity. }
  cbn [fst] in I. apply in_app_or in I. destruct I as [I|I].
  { exists 0%nat, letter, x. destruct (strokes st); cbn [fst] in I; [|destruct I].
    destruct I as [<-|[]]. cbn. repeat split; try reflexivity. ring. }
  apply in_app_or in I. destruct I as [I|I].
  { exists 0%nat, letter, x. destruct (fills st); cbn [fst] in I; [|destruct I].
    destruct I as [<-|[]]. cbn. repeat split; try reflexivity. ring. }
  cbn [add] in I.
  destruct (IH _ _ _ _ _ I) as (i & ch & q & N1 & N2 & N3 & N4 & N5).
  exists (S i), ch, q. cbn [nth_error firstn advance].
  repeat split; try assumption.
  rewrite N4, F3. ring.
Qed.



Lemma renderTabLine_at_texts (font : jstr) (t : tabs_t) (line : jstr) (x : num) (y : Q)
      (fill : bool) :
  List.map draw_text (renderTabLine_at measureText font t line x y fill)
  = split tabchar line.
Proof.
  unfold renderTabLine_at. destruct x as [q|].
  - unfold renderTabLine. destruct t as [g|stops].
    + generalize (split tabchar line) q. intros text.
      induction text as [|s text IH]; intro q0; cbn [render_scalar_loop List.map];
        [reflexivity|]. rewrite IH. reflexivity.
    + generalize (split tabchar line) 0%nat (Num 0). intros text.
      induction text as [|s text IH]; intros k tab; cbn [render_array_loop List.map];
        [reflexivity|]. rewrite IH. reflexivity.
  - rewrite map_map. cbn [draw_text]. apply map_id.
Qed.








(** *** Whole lines *)

Lemma whole_line_kind (fill k : bool) (line : jstr) (x : num) (y : Q) (c : context) :
  filter (of_kind k)
    (if tabs_is_zero (tabs st)
     then [Call (Draw fill line x y) c]
     else List.map (fun d => Call d c)
            (renderTabLine_at measureText (style_font st) (tabs st) line x y fill))
  = if Bool.eqb fill k
    then (if tabs_is_zero (tabs st)
          then [Call (Draw fill line x y) c]
          else List.map (fun d => Call d c)
                 (renderTabLine_at measureText (style_font st) (tabs st) line x y fill))
    else [].
Proof.
  destruct (tabs_is_zero (tabs st)).
  - cbn [filter]. unfold of_kind. cbn [call_draw draw_fill].
    destruct (Bool.eqb fill k); reflexivity.
  - pose proof (renderTabLine_at_fill (style_font st) (tabs st) line x y fill) as F.
    induction F as [|d0 l Hd Hl IH]; cbn [List.map filter].
    + destruct (Bool.eqb fill k); reflexivity.
    + unfold of_kind at 1. cbn [call_draw]. rewrite Hd, IH.
      destruct (Bool.eqb fill k); reflexivity.
Qed.

Lemma whole_line_painted (fill : bool) (line : jstr) (x : num) (y : Q) (c : context) :
  List.map (painted fill)
    (if tabs_is_zero (tabs st)
     then [Call (Draw fill line x y) c]
     else List.map (fun d => Call d c)
            (renderTabLine_at measureText (style_font st) (tabs st) line x y fill))
  = List.map (fun t => (t, ink fill c)) (drawn_texts (tabs st) [line]).
Proof.
  unfold drawn_texts. destruct (tabs_is_zero (tabs st)); [reflexivity|].
  cbn [flat_map]. rewrite app_nil_r.
  rewrite <- (renderTabLine_at_texts (style_font st) (tabs st) line x y fill).
  rewrite !map_map. reflexivity.
Qed.

Lemma drawn_texts_cons (t : tabs_t) (l : jstr) (lines : list jstr) :
  drawn_texts t (l :: lines) = drawn_texts t [l] ++ drawn_texts t lines.
Proof.
  unfold drawn_texts. destruct (tabs_is_zero t); [reflexivity|].
  cbn [flat_map]. rewrite app_nil_r. reflexivity.
Qed.

Lemma draw_lines_whole (fill : bool) (lines : list jstr) (W : num) (lh ls asc : Q) :
  per_character o = false -> enabled fill st = true ->
  forall i c n,
    ink fill c = base_ink fill st ->
    let r := draw_lines measureText font_read o W lh ls asc i lines c n in
    List.map (painted fill) (calls_of fill (fst r)) =
    List.map (fun t => (t, base_ink fill st)) (drawn_texts (tabs st) lines) /\
    snd (snd r) = n.
Proof.
  intros PC E. induction lines as [|l lines IH]; intros i c n Hc.
  - split; [|reflexivity]. unfold drawn_texts.
    destruct (tabs_is_zero (tabs st)); reflexivity.
  - cbn [draw_lines]. cbn zeta. unfold draw_line. rewrite PC. fold st.
    cbn [fst snd].
    set (cS := snd (if strokes st then _ else ([], c))).
    assert (HS : ink fill cS = base_ink fill st).
    { subst cS. destruct (strokes st); cbn [snd]; [|exact Hc].
      rewrite updateShadow_ink. exact Hc. }
    set (cF := snd (if fills st then _ else ([], cS))).
    assert (HF : ink fill cF = base_ink fill st).
    { subst cF. destruct (fills st); cbn [snd]; [|exact HS].
      rewrite updateShadow_ink. exact HS. }
    match goal with
    | |- context [draw_lines _ _ _ _ _ _ _ (S i) _ ?c' ?n'] =>
        destruct (IH (S i) c' n' HF) as [I1 I2]
    end.
    cbn zeta in I1, I2. split; [|exact I2].
    unfold calls_of in *. rewrite !filter_app, !map_app, I1.
    rewrite (drawn_texts_cons (tabs st) l lines), map_app. f_equal.
    unfold enabled in E. destruct fill.
    + rewrite E. cbn [fst].
      assert (Z : filter (of_kind true)
                    (fst (if strokes st
                          then (if tabs_is_zero (tabs st)
                                then [Call (Draw false l
                                        (linePositionX o W
                                           (reported_width (measureText (style_font st))
                                              (tabs st) (strokeThickness st) (padding_x o) l))
                                        (linePositionY o lh ls asc i))
                                        (updateShadow st (shadowStroke st) c)]
                                else List.map
                                       (fun d0 => Call d0 (updateShadow st (shadowStroke st) c))
                                       (renderTabLine_at measureText (style_font st) (tabs st) l
                                          (linePositionX o W
                                             (reported_width (measureText (style_font st))
                                                (tabs st) (strokeThickness st) (padding_x o) l))
                                          (linePositionY o lh ls asc i) false),
                                updateShadow st (shadowStroke st) c)
                          else ([], c))) = []).
      { destruct (strokes st); cbn [fst]; [|reflexivity].
        rewrite (whole_line_kind false true). reflexivity. }
      rewrite Z. cbn [List.map app].
      rewrite (whole_line_kind true true). cbn [Bool.eqb].
      rewrite whole_line_painted. rewrite updateShadow_ink, HS. reflexivity.
    + rewrite E. cbn [fst].
      rewrite (whole_line_kind false false). cbn [Bool.eqb].
      rewrite whole_line_painted.
      assert (Z : filter (of_kind false)
                    (fst (if fills st
                          then (if tabs_is_zero (tabs st)
                                then [Call (Draw true l
                                        (linePositionX o W
                                           (reported_width (measureText (style_font st))
                                              (tabs st) (strokeThickness st) (padding_x o) l))
                                        (linePositionY o lh ls asc i))
                                        (updateShadow st (shadowFill st) cS)]
                                else List.map
                                       (fun d0 => Call d0 (updateShadow st (shadowFill st) cS))
                                       (renderTabLine_at measureText (style_font st) (tabs st) l
                                          (linePositionX o W
                                             (reported_width (measureText (style_font st))
                                                (tabs st) (strokeThickness st) (padding_x o) l))
                                          (linePositionY o lh ls asc i) true),
                                updateShadow st (shadowFill st) cS)
                          else ([], cS))) = []).
      { destruct (fills st); cbn [fst]; [|reflexivity].
        rewrite (whole_line_kind true false). reflexivity. }
      rewrite Z, app_nil_r. rewrite updateShadow_ink, Hc. reflexivity.
Qed.

Lemma draw_lines_whole_x (lines : list jstr) (W : num) (lh ls asc : Q) :
  per_character o = false -> tabs_is_zero (tabs st) = true ->
  forall i c n,
    Forall (fun k =>
              In (draw_text (call_draw k)) lines /\
              draw_x (call_draw k) =
              linePositionX o W
                (reported_width (measureText (style_font st)) (tabs st)
                   (strokeThickness st) (padding_x o) (draw_text (call_draw k))))
           (fst (draw_lines measureText font_read o W lh ls asc i lines c n)).
Proof.
  intros PC TZ. induction lines as [|l lines IH]; intros i c n; [constructor|].
  cbn [draw_lines]. cbn zeta. unfold draw_line. rewrite PC. fold st. rewrite TZ.
  cbn [fst snd]. apply Forall_app. split.
  - apply Forall_app. split.
    + destruct (strokes st); cbn [fst]; [|constructor].
      constructor; [|constructor]. cbn [call_draw draw_text draw_x].
      split; [left; reflexivity|reflexivity].
    + destruct (fills st); cbn [fst]; [|constructor].
      constructor; [|constructor]. cbn [call_draw draw_text draw_x].
      split; [left; reflexivity|reflexivity].
  - eapply Forall_impl; [|apply IH].
    intros k [K1 K2]. split; [right; exact K1|exact K2].
Qed.

End Calls.

(** X19. Every call of [fillText] that a layout pass issues is made
    with the shadow of the style when [shadowFill] is true and with the
    shadow switched off (offsets, colour and blur 0) otherwise, and
    every call of [strokeText] likewise for [shadowStroke]: in the
    per-character path, for whole lines and for tab-separated
    segments. *)
Theorem X19_shadow_per_kind_of_call
        (measureText : jstr -> jstr -> Q)
        (determineFontProperties : jstr -> Text.font_properties)
        (font_read : jstr -> jstr) (o : Text.text_obj) (c : Canvas.call) :
  In c (fst (Canvas.draw_calls measureText determineFontProperties font_read o)) ->
  Canvas.ctx_shadow (Canvas.call_ctx c) =
  Some (shadow_for (Text.style o)
          (shadow_flag (Layout.draw_fill (Canvas.call_draw c)) (Text.style o))).
Proof.
  intro I. unfold Canvas.draw_calls in I. cbn [fst] in I.
  pose proof (@draw_lines_forall measureText font_read o _
                (@draw_line_shadowed measureText font_read o)) as F.
  exact (proj1 (Forall_forall _ _) (F _ _ _ _ _ _ _ _) c I).
Qed.

(** X20. In the per-character path, the calls of [fillText], in order,
    draw the characters of the laid-out lines one by one, the character
    at index k (line breaks not counted) in the colour in effect at k:
    the last colour that [addColor] set at an index up to k, or the
    fill of the style when there is none; the calls of [strokeText] do
    the same with the colours of [addStrokeColor] and the stroke of the
    style; and [_charCount] ends as the number of characters. *)
Theorem X20_colour_runs
        (measureText : jstr -> jstr -> Q)
        (determineFontProperties : jstr -> Text.font_properties)
        (font_read : jstr -> jstr) (o : Text.text_obj) (fill : bool) :
  Canvas.per_character o = true ->
  enabled fill (Text.style o) = true ->
  let r := Canvas.draw_calls measureText determineFontProperties font_read o in
  let chars := List.concat (Canvas.output_lines measureText o) in
  List.map (painted fill) (calls_of fill (fst r)) =
  List.map (fun p => ([fst p],
                      in_effect (runs_of fill o) (snd p) (base_ink fill (Text.style o))))
           (numbered chars 0) /\
  snd r = List.length chars.
Proof.
  intros PC E r chars. subst r chars. unfold Canvas.draw_calls. cbn [fst snd].
  match goal with
  | |- context [Canvas.draw_lines _ _ _ ?W ?lh ?ls ?asc _ ?lines ?c _] =>
      destruct (@draw_lines_ink measureText font_read o fill E lines W lh ls asc PC
                  0%nat c 0%nat) as (I1 & _ & I3)
  end.
  - destruct fill; reflexivity.
  - cbn zeta in I1, I3. split; [exact I3|exact I1].
Qed.

(** X21. Without font runs, [updateLine] lays the characters of a line
    side by side: every call it issues draws one character of the line,
    on the base line it was given, at the start of the line plus the
    widths of the characters before it. *)
Theorem X21_characters_side_by_side
        (measureText : jstr -> jstr -> Q) (font_read : jstr -> jstr)
        (o : Text.text_obj) (line : jstr) (x y : Q) (c : Canvas.context) (n : nat)
        (k : Canvas.call) :
  Text.fontWeights o = [] -> Text.fontStyles o = [] ->
  In k (fst (Canvas.updateLine measureText font_read o line (Num.Num x) y c n)) ->
  exists i ch q,
    nth_error line i = Some ch /\
    Layout.draw_text (Canvas.call_draw k) = [ch] /\
    Layout.draw_x (Canvas.call_draw k) = Num.Num q /\
    q == x + advance (measureText (Canvas.ctx_font c)) (firstn i line) /\
    Layout.draw_y (Canvas.call_draw k) = y.
Proof.
  intros FW FS I.
  exact (@updateLine_positions measureText font_read o line FW FS x y c n k I).
Qed.

Lemma X21_characters_side_by_side_witness :
  let k := first_call
             (fst (Canvas.updateLine demo_measure demo_read coloured_hello (lit "hi")
                     (Num.Num 4) 20 (Canvas.start_context coloured_hello) 0)) in
  exists i ch q,
    nth_error (lit "hi") i = Some ch /\
    Layout.draw_text (Canvas.call_draw k) = [ch] /\
    Layout.draw_x (Canvas.call_draw k) = Num.Num q /\
    q == 4 + advance (demo_measure (Canvas.ctx_font (Canvas.start_context coloured_hello)))
               (firstn i (lit "hi")) /\
    Layout.draw_y (Canvas.call_draw k) = 20.
Proof.
  apply (@X21_characters_side_by_side demo_measure demo_read coloured_hello (lit "hi")
           4 20 (Canvas.start_context coloured_hello) 0).
  - reflexivity.
  - reflexivity.
  - vm_compute. left. reflexivity.
Defined.



(** X23. Without tabs, colour runs or rounding, every line is drawn,
    as a whole, inside the width of the widest: its start is at least
    half the stroke thickness, its measured width at most
    [maxLineWidth]; with [align] right the line ends where the widest
    line ends, with [align] center its middle is the middle of the
    widest line, and otherwise it starts at half the stroke thickness. *)
Theorem X23_alignment_of_lines
        (measureText : jstr -> jstr -> Q)
        (determineFontProperties : jstr -> Text.font_properties)
        (font_read : jstr -> jstr) (o : Text.text_obj) (W : Q) (k : Canvas.call) :
  let st := Text.style o in
  let measure := measureText (Text.style_font st) in
  Layout.max_line_width measure (Text.tabs st) (Text.strokeThickness st)
    (Text.padding_x o) (Canvas.output_lines measureText o) = Num.Num W ->
  Canvas.per_character o = false ->
  Layout.tabs_is_zero (Text.tabs st) = true ->
  Text.autoRound o = false ->
  In k (fst (Canvas.draw_calls measureText determineFontProperties font_read o)) ->
  In (Layout.draw_text (Canvas.call_draw k)) (Canvas.output_lines measureText o) /\
  exists w x,
    Layout.reported_width measure (Text.tabs st) (Text.strokeThickness st)
      (Text.padding_x o) (Layout.draw_text (Canvas.call_draw k)) = Num.Num w /\
    Layout.draw_x (Canvas.call_draw k) = Num.Num x /\
    w <= W /\ Text.strokeThickness st / 2 <= x /\
    (if Js.eqb (Text.align st) (lit "right")
     then x + w == Text.strokeThickness st / 2 + W
     else if Js.eqb (Text.align st) (lit "center")
     then x + w / 2 == Text.strokeThickness st / 2 + W / 2
     else x == Text.strokeThickness st / 2).
Proof.
  intros st measure HW PC TZ AR I.
  unfold Canvas.draw_calls in I. cbn [fst] in I. fold st in I. fold measure in I.
  rewrite HW in I.
  pose proof (proj1 (Forall_forall _ _)
                (@draw_lines_whole_x measureText font_read o _ (Num.Num W) _ _ _ PC TZ
                   0%nat _ 0%nat) k I) as [K1 K2].
  split; [exact K1|].
  destruct (@max_bounds jstr _ (Canvas.output_lines measureText o) 0 W HW) as [_ B].
  destruct (B _ K1) as (w & Ew & Lw).
  fold st in K2. fold measure in K2. rewrite Ew in K2.
  unfold Canvas.linePositionX in K2. fold st in K2. rewrite AR in K2.
  exists w.
  destruct (Js.eqb (Text.align st) (lit "right")).
  - eexists. split; [exact Ew|]. split; [exact K2|].
    split; [exact Lw|]. split; [lra|ring].
  - destruct (Js.eqb (Text.align st) (lit "center")).
    + eexists. split; [exact Ew|]. split; [exact K2|].
      split; [exact Lw|]. split; [|field].
      assert (0 <= (W - w) / 2) by (apply Qle_shift_div_l; lra). lra.
    + eexists. split; [exact Ew|]. split; [exact K2|].
      split; [exact Lw|]. split; [apply Qle_refl|reflexivity].
Qed.

Lemma X23_alignment_of_lines_witness :
  let o := Text.set_align (lit "right")
             (Text.set__text (lit "a" ++ [newline] ++ lit "bcd") clean_hello) in
  let k := first_call (fst (Canvas.draw_calls demo_measure demo_metrics demo_read o)) in
  In (Layout.draw_text (Canvas.call_draw k)) (Canvas.output_lines demo_measure o) /\
  exists w x,
    Layout.reported_width (demo_measure (Text.style_font (Text.style o)))
      (Text.tabs (Text.style o)) (Text.strokeThickness (Text.style o))
      (Text.padding_x o) (Layout.draw_text (Canvas.call_draw k)) = Num.Num w /\
    Layout.draw_x (Canvas.call_draw k) = Num.Num x /\
    w <= 30 /\ Text.strokeThickness (Text.style o) / 2 <= x /\
    (if Js.eqb (Text.align (Text.style o)) (lit "right")
     then x + w == Text.strokeThickness (Text.style o) / 2 + 30
     else if Js.eqb (Text.align (Text.style o)) (lit "center")
     then x + w / 2 == Text.strokeThickness (Text.style o) / 2 + 30 / 2
     else x == Text.strokeThickness (Text.style o) / 2).
Proof.
  apply (@X23_alignment_of_lines demo_measure demo_metrics demo_read
           (Text.set_align (lit "right")
              (Text.set__text (lit "a" ++ [newline] ++ lit "bcd") clean_hello)) 30).
  - vm_compute. reflexivity.
  - reflexivity.
  - reflexivity.
  - reflexivity.
  - vm_compute. left. reflexivity.
Defined.

(** X24. Without colour or font runs, a layout pass draws every line
    once with [fillText] when the style has a fill, and once with
    [strokeText] when it has a stroke of some thickness -- the line as
    a whole when tabs are off, its tab-separated segments in order when
    they are on -- in the fill or the stroke colour of the style; and
    it leaves [_charCount] at 0. *)
Theorem X24_whole_lines_are_drawn
        (measureText : jstr -> jstr -> Q)
        (determineFontProperties : jstr -> Text.font_properties)
        (font_read : jstr -> jstr) (o : Text.text_obj) (fill : bool) :
  Canvas.per_character o = false ->
  enabled fill (Text.style o) = true ->
  let r := Canvas.draw_calls measureText determineFontProperties font_read o in
  List.map (painted fill) (calls_of fill (fst r)) =
  List.map (fun t => (t, base_ink fill (Text.style o)))
           (drawn_texts (Text.tabs (Text.style o)) (Canvas.output_lines measureText o)) /\
  snd r = 0%nat.
Proof.
  intros PC E r. subst r. unfold Canvas.draw_calls. cbn [fst snd].
  apply (@draw_lines_whole measureText font_read o fill _ _ _ _ _ PC E).
  destruct fill; reflexivity.
Qed.

Lemma X24_whole_lines_are_drawn_witness :
  let o := Text.set_tabs 0 (Layout.TabSize 50)
             (Text.set__text (lit "a" ++ [tabchar] ++ lit "b") clean_hello) in
  let r := Canvas.draw_calls demo_measure demo_metrics demo_read o in
  List.map (painted true) (calls_of true (fst r)) =
  List.map (fun t => (t, base_ink true (Text.style o)))
           (drawn_texts (Text.tabs (Text.style o)) (Canvas.output_lines demo_measure o)) /\
  snd r = 0%nat.
Proof.
  apply (@X24_whole_lines_are_drawn demo_measure demo_metrics demo_read
           (Text.set_tabs 0 (Layout.TabSize 50)
              (Text.set__text (lit "a" ++ [tabchar] ++ lit "b") clean_hello)) true);
    reflexivity.
Defined.

Lemma X19_shadow_per_kind_of_call_witness :
  let k := first_call
             (fst (Canvas.draw_calls demo_measure demo_metrics demo_read shadowed_hello)) in
  Canvas.ctx_shadow (Canvas.call_ctx k) =
  Some (shadow_for (Text.style shadowed_hello)
          (shadow_flag (Layout.draw_fill (Canvas.call_draw k)) (Text.style shadowed_hello))).
Proof.
  apply (@X19_shadow_per_kind_of_call demo_measure demo_metrics demo_read shadowed_hello).
  vm_compute. left. reflexivity.
Defined.

Lemma X20_colour_runs_witness :
  let r := Canvas.draw_calls demo_measure demo_metrics demo_read coloured_hello in
  let chars := List.concat (Canvas.output_lines demo_measure coloured_hello) in
  List.map (painted true) (calls_of true (fst r)) =
  List.map (fun p => ([fst p],
                      in_effect (runs_of true coloured_hello) (snd p)
                        (base_ink true (Text.style coloured_hello))))
           (numbered chars 0) /\
  snd r = List.length chars.
Proof.
  apply (@X20_colour_runs demo_measure demo_metrics demo_read coloured_hello true);
    reflexivity.
Defined.

(** ** The scan of the probe image *)

Section Probe.
Import FontProbe.
Local Open Scope Z_scope.

Lemma scan_down_range (data : list N) (w : nat) (line : Z) (rows : nat) :
  forall i idx,
    i <= scan_down data w line rows i idx <= i + Z.of_nat rows.
Proof.
  induction rows as [|rows IH]; intros i idx; cbn [scan_down]; [lia|].
  destruct (row_stops data idx w 0); [lia|].
  specialize (IH (i + 1) (idx + line)). lia.
Qed.

Lemma scan_up_range (data : list N) (w : nat) (line : Z) (rows : nat) :
  forall i idx,
    i - Z.of_nat rows <= scan_up data w line rows i idx <= i.
Proof.
  induction rows as [|rows IH]; intros i idx; cbn [scan_up]; [lia|].
  destruct (row_stops data idx w 0); [lia|].
  specialize (IH (i - 1) (idx - line)). lia.
Qed.

(** The loop for the ascent stops at the first row that is inked. *)
Lemma scan_down_first (data : list N) (w : nat) (line : Z) (r : nat) :
  forall rows i idx,
    (r < rows)%nat ->
    (forall k, (k < r)%nat -> row_stops data (idx + Z.of_nat k * line) w 0 = false) ->
    row_stops data (idx + Z.of_nat r * line) w 0 = true ->
    scan_down data w line rows i idx = i + Z.of_nat r.
Proof.
  induction r as [|r IH]; intros rows i idx L C Hs.
  - destruct rows as [|rows]; [lia|]. cbn [scan_down].
    replace (idx + Z.of_nat 0 * line) with idx in Hs by lia. rewrite Hs. lia.
  - destruct rows as [|rows]; [lia|]. cbn [scan_down].
    pose proof (C 0%nat ltac:(lia)) as C0.
    replace (idx + Z.of_nat 0 * line) with idx in C0 by lia. rewrite C0.
    rewrite (IH rows (i + 1) (idx + line)); [lia|lia| |].
    + intros k Hk. specialize (C (S k) ltac:(lia)).
      replace (idx + line + Z.of_nat k * line) with (idx + Z.of_nat (S k) * line) by lia.
      exact C.
    + replace (idx + line + Z.of_nat r * line) with (idx + Z.of_nat (S r) * line) by lia.
      exact Hs.
Qed.

Lemma scan_down_none (data : list N) (w : nat) (line : Z) (rows : nat) :
  forall i idx,
    (forall k, (k < rows)%nat -> row_stops data (idx + Z.of_nat k * line) w 0 = false) ->
    scan_down data w line rows i idx = i + Z.of_nat rows.
Proof.
  induction rows as [|rows IH]; intros i idx C; cbn [scan_down]; [lia|].
  pose proof (C 0%nat ltac:(lia)) as C0.
  replace (idx + Z.of_nat 0 * line) with idx in C0 by lia. rewrite C0.
  rewrite IH; [lia|]. intros k Hk. specialize (C (S k) ltac:(lia)).
  replace (idx + line + Z.of_nat k * line) with (idx + Z.of_nat (S k) * line) by lia.
  exact C.
Qed.

(** The loop for the descent stops at the first row from below that is inked. *)
Lemma scan_up_first (data : list N) (w : nat) (line : Z) (r : nat) :
  forall rows i idx,
    (r < rows)%nat ->
    (forall k, (k < r)%nat -> row_stops data (idx - Z.of_nat k * line) w 0 = false) ->
    row_stops data (idx - Z.of_nat r * line) w 0 = true ->
    scan_up data w line rows i idx = i - Z.of_nat r.
Proof.
  induction r as [|r IH]; intros rows i idx L C Hs.
  - destruct rows as [|rows]; [lia|]. cbn [scan_up].
    replace (idx - Z.of_nat 0 * line) with idx in Hs by lia. rewrite Hs. lia.
  - destruct rows as [|rows]; [lia|]. cbn [scan_up].
    pose proof (C 0%nat ltac:(lia)) as C0.
    replace (idx - Z.of_nat 0 * line) with idx in C0 by lia. rewrite C0.
    rewrite (IH rows (i - 1) (idx - line)); [lia|lia| |].
    + intros k Hk. specialize (C (S k) ltac:(lia)).
      replace (idx - line - Z.of_nat k * line) with (idx - Z.of_nat (S k) * line) by lia.
      exact C.
    + replace (idx - line - Z.of_nat r * line) with (idx - Z.of_nat (S r) * line) by lia.
      exact Hs.
Qed.

End Probe.

(** X25. Whatever the picture of the probe text holds, the ascent that
    [determineFontProperties] derives from it lies between 0 and the
    base line, the descent between 6 and the rows below the base line
    plus 6, and the font size is their sum; without a picture the
    ascent is the base line and the descent the base line plus 6. *)
Theorem X25_font_properties_bounds (width baseline : Z) (imagedata : list N) :
  (0 <= baseline)%Z -> (baseline <= 2 * width)%Z ->
  let p := FontProbe.measured width baseline (Some imagedata) in
  let q := FontProbe.measured width baseline None in
  (exists a d : Z,
     Text.ascent p = inject_Z a /\ Text.descent p = inject_Z d /\
     (0 <= a <= baseline)%Z /\ (6 <= d <= 2 * width - baseline + 6)%Z) /\
  Text.fontSize_px p = Text.ascent p + Text.descent p /\
  Text.ascent q = inject_Z baseline /\ Text.descent q = inject_Z (baseline + 6).
Proof.
  intros B H p q. subst p q. cbn [FontProbe.measured Text.ascent Text.descent Text.fontSize_px].
  split; [|repeat split].
  eexists _, _. split; [reflexivity|]. split; [reflexivity|].
  unfold FontProbe.ascent_of, FontProbe.descent_of.
  match goal with
  | |- context [FontProbe.scan_down ?d ?w ?l ?r ?i ?x] =>
      pose proof (scan_down_range d w l r i x) as D
  end.
  match goal with
  | |- context [FontProbe.scan_up ?d ?w ?l ?r ?i ?x] =>
      pose proof (scan_up_range d w l r i x) as U
  end.
  rewrite Z2Nat.id in D by lia. rewrite Z2Nat.id in U by lia. lia.
Qed.

Lemma X25_font_properties_bounds_witness :
  let p := FontProbe.measured 2 2 (Some probe_picture) in
  let q := FontProbe.measured 2 2 None in
  (exists a d : Z,
     Text.ascent p = inject_Z a /\ Text.descent p = inject_Z d /\
     (0 <= a <= 2)%Z /\ (6 <= d <= 2 * 2 - 2 + 6)%Z) /\
  Text.fontSize_px p = Text.ascent p + Text.descent p /\
  Text.ascent q = inject_Z 2 /\ Text.descent q = inject_Z (2 + 6).
Proof.
  apply (@X25_font_properties_bounds 2 2 probe_picture); lia.
Defined.

(** X26. The scan finds the ink: when the picture has all its rows,
    the first row from the top that holds a pixel whose first byte is
    not 255, if it lies above the base line, gives the ascent as its
    distance to the base line, and the first such row from the bottom,
    if it lies at or below the base line, gives the descent as the rows
    from the base line down to it, plus 6; a picture with no such pixel
    above the base line gives the ascent 0. *)
Theorem X26_scan_finds_the_ink (width baseline : Z) (imagedata : list N) (top bottom : Z) :
  (0 <= width)%Z -> (0 <= baseline <= 2 * width)%Z ->
  Z.of_nat (List.length imagedata) = (2 * width * (width * 4))%Z ->
  ((0 <= top < baseline)%Z ->
   (forall r, (0 <= r < top)%Z -> inked imagedata width r = false) ->
   inked imagedata width top = true ->
   FontProbe.ascent_of imagedata width baseline = (baseline - top)%Z) /\
  ((baseline <= bottom < 2 * width)%Z ->
   (forall r, (bottom < r < 2 * width)%Z -> inked imagedata width r = false) ->
   inked imagedata width bottom = true ->
   FontProbe.descent_of imagedata width baseline = (bottom + 1 - baseline + 6)%Z) /\
  ((forall r, (0 <= r < baseline)%Z -> inked imagedata width r = false) ->
   FontProbe.ascent_of imagedata width baseline = 0%Z).
Proof.
  intros W B L. unfold inked. split; [|split].
  - intros T C Hs. unfold FontProbe.ascent_of.
    rewrite (@scan_down_first imagedata (Z.to_nat width) (width * 4) (Z.to_nat top)).
    + rewrite Z2Nat.id by lia. lia.
    + lia.
    + intros k Hk. specialize (C (Z.of_nat k) ltac:(lia)).
      rewrite Z.add_0_l. exact C.
    + rewrite Z.add_0_l, Z2Nat.id by lia. exact Hs.
  - intros T C Hs. unfold FontProbe.descent_of. rewrite L.
    rewrite (@scan_up_first imagedata (Z.to_nat width) (width * 4)
               (Z.to_nat (2 * width - 1 - bottom))).
    + rewrite Z2Nat.id by lia. lia.
    + lia.
    + intros k Hk. specialize (C (2 * width - 1 - Z.of_nat k)%Z ltac:(lia)).
      replace (2 * width * (width * 4) - width * 4 - Z.of_nat k * (width * 4))%Z
        with ((2 * width - 1 - Z.of_nat k) * (width * 4))%Z by lia.
      exact C.
    + rewrite Z2Nat.id by lia.
      replace (2 * width * (width * 4) - width * 4 - (2 * width - 1 - bottom) * (width * 4))%Z
        with (bottom * (width * 4))%Z by lia.
      exact Hs.
  - intro C. unfold FontProbe.ascent_of.
    rewrite scan_down_none.
    + rewrite Z2Nat.id by lia. lia.
    + intros k Hk. specialize (C (Z.of_nat k) ltac:(lia)).
      rewrite Z.add_0_l. exact C.
Qed.

Lemma X26_scan_finds_the_ink_witness :
  ((0 <= 1 < 2)%Z ->
   (forall r, (0 <= r < 1)%Z -> inked probe_picture 2 r = false) ->
   inked probe_picture 2 1 = true ->
   FontProbe.ascent_of probe_picture 2 2 = (2 - 1)%Z) /\
  ((2 <= 2 < 2 * 2)%Z ->
   (forall r, (2 < r < 2 * 2)%Z -> inked probe_picture 2 r = false) ->
   inked probe_picture 2 2 = true ->
   FontProbe.descent_of probe_picture 2 2 = (2 + 1 - 2 + 6)%Z) /\
  ((forall r, (0 <= r < 2)%Z -> inked probe_picture 2 r = false) ->
   FontProbe.ascent_of probe_picture 2 2 = 0%Z).
Proof.
  apply (@X26_scan_finds_the_ink 2 2 probe_picture 1 2).
  - lia.
  - lia.
  - reflexivity.
Defined.

(** ** The font string and the components of an object *)

Lemma explicit_read_back (c : Font.components) :
  explicit c = true ->
  same_font (Font.fontToComponents (Font.componentsToFont c)) c.
Proof.
  intro H.
  destruct c as [f [st|] [va|] [we|] [sz|] [fam|]]; cbn in H; try discriminate.
  apply andb_true_iff in H. destruct H as [H Hfam].
  apply andb_true_iff in H. destruct H as [H Hsz].
  apply andb_true_iff in H. destruct H as [H Hwe].
  apply andb_true_iff in H. destruct H as [Hst Hva].
  pose proof (@explicit_size_readable sz fam Hsz) as R.
  pose proof R as (Nsz & M & _).
  rewrite components_written.
  - rewrite (@read_back_components st va we sz fam Hst Hva Hwe R Hfam).
    unfold same_font. cbn. repeat split.
  - exact (@one_of_nonempty styles st eq_refl Hst).
  - exact (@one_of_nonempty variants va eq_refl Hva).
  - exact (@one_of_nonempty weights we eq_refl Hwe).
  - exact Nsz.
  - exact M.
Qed.

(** X27. The font string of an object and its font components say the
    same: in every state a program can bring a Text object to, if the
    components are explicit (as in X3), [fontToComponents] of
    [style.font] gives the style, variant, weight, size and family the
    components hold -- whatever [setStyle] overrode and the font
    setters assigned. *)
Theorem X27_style_font_reads_as_components
        (measureText : jstr -> jstr -> Q)
        (determineFontProperties : jstr -> Text.font_properties)
        (number_toString : Num.num -> jstr) (object_toString : nat -> jstr)
        (o : Text.text_obj) :
  reachable measureText determineFontProperties number_toString object_toString o ->
  explicit (Text._fontComponents o) = true ->
  same_font (Font.fontToComponents (Text.style_font (Text.style o)))
            (Text._fontComponents o).
Proof.
  intro R.
  assert (C : canonical_font o).
  { induction R as [res cw ch text a o H|p o o' R IH H].
    - exact (construct_canonical _ _ _ _ _ _ _ _ _ H).
    - exact (step_canonical _ _ _ _ _ H IH). }
  intro E. unfold canonical_font in C. rewrite C. apply explicit_read_back. exact E.
Qed.

Lemma X27_style_font_reads_as_components_witness :
  let o := Text.set_fontWeight (Some (lit "lighter"))
             (Text.set_cssFont (Some (lit "italic 12px serif")) clean_hello) in
  same_font (Font.fontToComponents (Text.style_font (Text.style o)))
            (Text._fontComponents o).
Proof.
  apply (@X27_style_font_reads_as_components demo_measure demo_metrics demo_number
           demo_object).
  - apply (@reach_step _ _ _ _ (OSetFontWeight (Some (lit "lighter")))
             (Text.set_cssFont (Some (lit "italic 12px serif")) clean_hello)); [|reflexivity].
    apply (@reach_step _ _ _ _ (OSetCssFont (Some (lit "italic 12px serif"))) clean_hello);
      [|reflexivity].
    eapply (@reach_step _ _ _ _ ORenderCanvas).
    + eapply (@reach_new _ _ _ _ 1 (Num.Num 300) (Num.Num 150)
                (Text.VString (lit "hello")) None).
      vm_compute. reflexivity.
    + vm_compute. reflexivity.
  - vm_compute. reflexivity.
Defined.

(** ** The size of the font, written and read *)

Section SizeRoundTrip.
Import Regex Font Text FontSize.

Lemma digit_of_mod (n : Z) :
  (0 <= n)%Z ->
  is_digit (48 + Z.to_N (n mod 10)) = true /\
  Z.of_N (48 + Z.to_N (n mod 10) - 48) = (n mod 10)%Z.
Proof.
  intro H. pose proof (Z.mod_pos_bound n 10 ltac:(lia)) as B.
  split.
  - unfold is_digit. apply andb_true_iff. split; apply N.leb_le; lia.
  - replace (48 + Z.to_N (n mod 10) - 48)%N with (Z.to_N (n mod 10)) by lia.
    apply Z2N.id. lia.
Qed.

Lemma digits_of_value (fuel : nat) :
  forall n acc rest,
    (0 <= n)%Z -> (Z.to_nat n < fuel)%nat ->
    digits_value (digits_of fuel n acc ++ rest) 0 = digits_value (acc ++ rest) n.
Proof.
  induction fuel as [|fuel IH]; intros n acc rest H F; [lia|].
  cbn [digits_of]. destruct (digit_of_mod H) as [D V].
  destruct (n <? 10)%Z eqn:L.
  - apply Z.ltb_lt in L. cbn [app digits_value]. rewrite D, V.
    rewrite Z.mod_small by lia. reflexivity.
  - apply Z.ltb_ge in L.
    assert (Q1 : (0 <= n / 10)%Z) by (apply Z.div_pos; lia).
    assert (Q2 : (n / 10 < n)%Z) by (apply Z.div_lt; lia).
    rewrite IH by lia. cbn [app digits_value]. rewrite D, V.
    f_equal. pose proof (Z.div_mod n 10 ltac:(lia)). lia.
Qed.

Lemma digits_of_head (fuel : nat) :
  forall n acc, (0 <= n)%Z ->
    exists x s, digits_of (S fuel) n acc = x :: s /\ is_digit x = true.
Proof.
  induction fuel as [|fuel IH]; intros n acc H.
  - cbn [digits_of]. destruct (digit_of_mod H) as [D _].
    destruct (n <? 10)%Z; eexists _, _; split; try reflexivity; exact D.
  - change (digits_of (S (S fuel)) n acc)
      with (if (n <? 10)%Z then (48 + Z.to_N (n mod 10))%N :: acc
            else digits_of (S fuel) (n / 10) ((48 + Z.to_N (n mod 10))%N :: acc)).
    destruct (n <? 10)%Z eqn:L.
    + destruct (digit_of_mod H) as [D _]. eexists _, _. split; [reflexivity|exact D].
    + apply IH. apply Z.div_pos; lia.
Qed.

Lemma digit_not_space (x : N) : is_digit x = true -> is_space x = false.
Proof.
  intro H. apply digit_cases in H. cbn in H.
  repeat (destruct H as [<-|H]; [reflexivity|]). destruct H.
Qed.

Lemma digit_not_sign (x : N) : is_digit x = true -> (N.eqb x 45 || N.eqb x 43) = false.
Proof.
  intro H. apply digit_cases in H. cbn in H.
  repeat (destruct H as [<-|H]; [reflexivity|]). destruct H.
Qed.

(** A whole number below 2^53 is a double as it is. *)
Lemma to_double_small (n : Z) :
  (0 <= n < 2 ^ 53)%Z -> to_double false n = Finite n.
Proof.
  intro H. unfold to_double, nearest_double.
  assert (L : (Z.log2 n < 53)%Z).
  { destruct (Z.eq_dec n 0) as [->|NZ]; [reflexivity|].
    apply Z.log2_lt_pow2; lia. }
  destruct (Z.leb_spec (Z.log2 n + 1 - 53) 0) as [_|G]; [|lia].
  destruct (Z.leb_spec (2 ^ 1024) n) as [G|_]; [|reflexivity].
  exfalso. assert (2 ^ 53 < 2 ^ 1024)%Z by (apply Z.pow_lt_mono_r; lia). lia.
Qed.

(** Reading the digits of a whole number followed by px. *)
Lemma parseInt_digits (n : Z) :
  (0 <= n)%Z -> parseInt (decimal n ++ lit "px") = to_double false n.
Proof.
  intro H. unfold parseInt, decimal.
  destruct (@digits_of_head (Z.to_nat n) n [] H) as (x & s & E & D).
  pose proof (@digits_of_value (S (Z.to_nat n)) n [] (lit "px") H ltac:(lia)) as V.
  rewrite E in *. cbn [app trim_start].
  rewrite (digit_not_space _ D).
  assert (M : N.eqb x 45 = false).
  { pose proof (digit_not_sign _ D) as G. apply orb_false_iff in G. apply G. }
  rewrite (digit_not_sign _ D), M, D.
  cbn [app] in V. rewrite V. reflexivity.
Qed.

(** Reading a whole number of pixels below 2^53. *)
Lemma parseInt_decimal (n : Z) :
  (0 <= n < 2 ^ 53)%Z -> parseInt (decimal n ++ lit "px") = Finite n.
Proof.
  intro H. rewrite parseInt_digits by lia. apply to_double_small. exact H.
Qed.

Lemma px_matches (s : jstr) :
  forall pv, exec_from pixel_re pv (s ++ lit "px") <> None.
Proof.
  induction s as [|x s IH]; intro pv.
  - destruct pv; vm_compute; discriminate.
  - cbn [app exec_from]. destruct (ms pixel_re _); [apply IH|discriminate].
Qed.

Lemma px_found (s : jstr) : matches pixel_re (s ++ lit "px") = true.
Proof.
  unfold matches, exec. destruct (exec_from _ _ _) eqn:E; [reflexivity|].
  exfalso. exact (px_matches s None E).
Qed.

Lemma prefix_all (w s : jstr) :
  prefixb w s = true -> skipn (List.length w) s = [] -> s = w.
Proof.
  revert s. induction w as [|x w IH]; intros s P K.
  - exact K.
  - destruct s as [|y s]; [discriminate P|]. cbn in P, K.
    apply andb_true_iff in P. destruct P as [E P].
    apply N.eqb_eq in E. subst y. f_equal. apply IH; assumption.
Qed.

(** A literal up to the end of the input is the rest of the input. *)
Lemma lit_to_end (w : jstr) (st : mstate) :
  ms (Seq (Lit w) Eol) st <> [] -> rest st = w.
Proof.
  intro H. destruct (ms (Seq (Lit w) Eol) st) as [|x l] eqn:E; [congruence|].
  assert (I : In x (ms (Seq (Lit w) Eol) st)) by (rewrite E; left; reflexivity).
  apply in_ms_seq in I. destruct I as (y & z & Iy & Iz & _).
  cbn [ms] in Iy. destruct (prefixb w (rest st)) eqn:P; [|destruct Iy].
  destruct Iy as [<-|[]]. cbn [ms snd advance rest] in Iz.
  destruct (skipn (List.length w) (rest st)) eqn:K; [|destruct Iz].
  apply prefix_all; assumption.
Qed.

(** What the pattern can match at one place. *)
Lemma pixel_re_at (pv : option N) (s : jstr) (cs : list (nat * jstr)) :
  ms pixel_re (MState pv s cs) <> [] ->
  (pv = None /\ s = lit "0") \/ s = lit "px".
Proof.
  unfold pixel_re. cbn [seqs]. intro H.
  change (ms (Alt (Seq Bol (Seq (Lit (lit "0")) Eol)) (Seq (Lit (lit "px")) Eol))
             (MState pv s cs))
    with (ms (Seq Bol (Seq (Lit (lit "0")) Eol)) (MState pv s cs) ++
          ms (Seq (Lit (lit "px")) Eol) (MState pv s cs)) in H.
  destruct (ms (Seq Bol (Seq (Lit (lit "0")) Eol)) (MState pv s cs)) as [|x l] eqn:A.
  - right. cbn [app] in H. exact (@lit_to_end _ _ H).
  - left.
    assert (I : In x (ms (Seq Bol (Seq (Lit (lit "0")) Eol)) (MState pv s cs)))
      by (rewrite A; left; reflexivity).
    apply in_ms_seq in I. destruct I as (y & z & Iy & Iz & _).
    cbn [ms prev] in Iy. destruct pv; [destruct Iy|].
    destruct Iy as [<-|[]]. split; [reflexivity|].
    cbn [snd] in Iz.
    assert (NE : ms (Seq (Lit (lit "0")) Eol) (MState None s cs) <> []).
    { intro Z. rewrite Z in Iz. destruct Iz. }
    exact (@lit_to_end _ _ NE).
Qed.

Lemma pixel_re_scan (s : jstr) :
  forall pv m, exec_from pixel_re pv s = Some m ->
    (pv = None /\ s = lit "0") \/ ends_in_px s.
Proof.
  induction s as [|x s IH]; intros pv m H; cbn [exec_from] in H.
  - destruct (ms pixel_re (MState pv [] [])) as [|y l] eqn:A; [discriminate|].
    destruct (@pixel_re_at pv [] []) as [[_ Z]|Z]; try discriminate.
    rewrite A. discriminate.
  - destruct (ms pixel_re (MState pv (x :: s) [])) as [|y l] eqn:A.
    + destruct (IH _ _ H) as [[Z _]|[a E]]; [discriminate|].
      right. exists (x :: a). cbn [app]. f_equal. exact E.
    + destruct (@pixel_re_at pv (x :: s) []) as [Z|Z].
      * rewrite A. discriminate.
      * left. exact Z.
      * right. exists []. exact Z.
Qed.

Lemma not_px (s : jstr) :
  s <> lit "0" -> ~ ends_in_px s -> matches pixel_re s = false.
Proof.
  intros Z P. unfold matches, exec.
  destruct (exec_from pixel_re None s) as [m|] eqn:E; [|reflexivity].
  exfalso. destruct (pixel_re_scan _ _ E) as [[_ Z']|P']; [exact (Z Z')|exact (P P')].
Qed.

Lemma updateFont_size (c : components) (o : text_obj) :
  fontSize (_fontComponents (updateFont c o)) = fontSize (_fontComponents o).
Proof. rewrite updateFont_components. reflexivity. Qed.

End SizeRoundTrip.

(** X28. The size of the font is read as it was written.  On a host
    that prints a whole number in decimal, a size assigned as a whole
    number of pixels from 0 to below 2^53 is read back as that number,
    and so is a size assigned as the string of that number followed by
    px; a size assigned as a string that is not empty, is not 0 and
    does not end in px is read back as that string.  Beyond 2^53 the
    number read is the nearest double: 9007199254740993px is read as
    9007199254740992. *)
Theorem X28_font_size_round_trip
        (number_toString : Num.num -> jstr) (n : Z) (s : jstr) (o : Text.text_obj) :
  (0 <= n < 2 ^ 53)%Z ->
  number_toString (Num.Num (inject_Z n)) = decimal n ->
  s <> [] -> s <> lit "0" -> ~ ends_in_px s ->
  FontSize.get_fontSize
    (Text.set_fontSize number_toString (Some (Text.SizeNumber (Num.Num (inject_Z n)))) o)
  = Some (FontSize.AsNumber (FontSize.Finite n)) /\
  FontSize.get_fontSize
    (Text.set_fontSize number_toString (Some (Text.SizeString (decimal n ++ lit "px"))) o)
  = Some (FontSize.AsNumber (FontSize.Finite n)) /\
  FontSize.get_fontSize (Text.set_fontSize number_toString (Some (Text.SizeString s)) o)
  = Some (FontSize.AsString s) /\
  FontSize.get_fontSize
    (Text.set_fontSize number_toString
       (Some (Text.SizeString (lit "9007199254740993px"))) o)
  = Some (FontSize.AsNumber (FontSize.Finite 9007199254740992)).
Proof.
  intros N0 Hn S0 S1 S2.
  assert (P : forall a, a <> [] ->
            Text.size_truthy (Some (Text.SizeString a)) = true).
  { intros a Ha. destruct a; [congruence|reflexivity]. }
  assert (D : decimal n ++ lit "px" <> []).
  { intro Z. apply app_eq_nil in Z. destruct Z as [_ Z]. discriminate Z. }
  split; [|split; [|split]].
  - unfold FontSize.get_fontSize, Text.set_fontSize.
    rewrite updateFont_size. cbn [Text._fontComponents Text.set__fontComponents Font.fontSize].
    cbn [Text.size_truthy Text.size_string].
    destruct (Qeq_bool (inject_Z n) 0) eqn:Z; cbn [negb].
    + assert (n = 0%Z).
      { apply Qeq_bool_iff in Z. unfold Qeq in Z. cbn in Z. lia. }
      subst n. reflexivity.
    + rewrite Hn, px_found. rewrite parseInt_decimal by exact N0.
      destruct (decimal n ++ lit "px") eqn:E; [congruence|reflexivity].
  - unfold FontSize.get_fontSize, Text.set_fontSize.
    rewrite updateFont_size. cbn [Text._fontComponents Text.set__fontComponents Font.fontSize].
    rewrite (P _ D). cbn [Text.size_string].
    rewrite px_found. rewrite parseInt_decimal by exact N0.
    destruct (decimal n ++ lit "px") eqn:E; [congruence|reflexivity].
  - unfold FontSize.get_fontSize, Text.set_fontSize.
    rewrite updateFont_size. cbn [Text._fontComponents Text.set__fontComponents Font.fontSize].
    rewrite (P _ S0). cbn [Text.size_string].
    rewrite (not_px S1 S2). rewrite andb_false_r. reflexivity.
  - unfold FontSize.get_fontSize, Text.set_fontSize.
    rewrite updateFont_size. vm_compute. reflexivity.
Qed.

Lemma X28_font_size_round_trip_witness :
  FontSize.get_fontSize
    (Text.set_fontSize decimal_number (Some (Text.SizeNumber (Num.Num (inject_Z 32))))
       clean_hello)
  = Some (FontSize.AsNumber (FontSize.Finite 32)) /\
  FontSize.get_fontSize
    (Text.set_fontSize decimal_number (Some (Text.SizeString (decimal 32 ++ lit "px")))
       clean_hello)
  = Some (FontSize.AsNumber (FontSize.Finite 32)) /\
  FontSize.get_fontSize
    (Text.set_fontSize decimal_number (Some (Text.SizeString (lit "12pt"))) clean_hello)
  = Some (FontSize.AsString (lit "12pt")) /\
  FontSize.get_fontSize
    (Text.set_fontSize decimal_number
       (Some (Text.SizeString (lit "9007199254740993px"))) clean_hello)
  = Some (FontSize.AsNumber (FontSize.Finite 9007199254740992)).
Proof.
  apply (@X28_font_size_round_trip decimal_number 32 (lit "12pt") clean_hello).
  - lia.
  - reflexivity.
  - discriminate.
  - discriminate.
  - intros [a E].
    assert (L : rev (lit "12pt") = rev (a ++ lit "px")) by (rewrite E; reflexivity).
    rewrite rev_app_distr in L. cbn in L. discriminate L.
Defined.
